(** * Earlessly: the audio engine, the metronome and the ear training,
    verified

    A shallow embedding of [src/utils/audioEngine.ts] (note mapper, pitch
    detector, metronome engine, polyphonic synth, question generator), of
    the effects and controls of [src/components/Metronome.tsx] and of the
    selections, questions and answers of [src/components/EarTraining.tsx].

    Conventions of the embedding:
    - a JavaScript [number] that holds a sample, a time, a frequency or a
      gain is an IEEE-754 binary64 value, Rocq's primitive [float];
    - a [number] that the code only uses as a counter, an index, a MIDI
      pitch or, in the component, an integer tempo is a [Z] (binary64 is
      exact on the integers of magnitude below 2^53, far above every bound
      met here);
    - arrays are lists, read with stdpp's lookup (an index out of range is
      JavaScript's [undefined], here [None]) and written with stdpp's
      insert;
    - the Web Audio graph is not simulated: every instruction sent to it is
      appended to a log that is part of the state;
    - the audio clock ([ctx.currentTime]) is an input of each operation;
    - React is modelled by its effects: an event updates the state, then
      the effects whose dependencies changed run;
    - [Math.random] is an input: [random k n] is the value of
      [Math.floor(Math.random() * n)] at the [k]-th draw of a call. *)

From Stdlib Require Import ZArith List Bool Lia Znumtheory Floats.
From Stdlib Require String DecimalString.
From Stdlib Require Import Sorted.
From Equations Require Import Equations.
From stdpp Require Import base list.
Import ListNotations.

(* Decimal literals denote the nearest binary64 value, as in JavaScript. *)
Set Warnings "-inexact-float".

Local Open Scope Z_scope.

(** ** types.ts *)

Inductive BeatIntensity : Set :=
  | MUTE | WEAK | STRONG | POLY_A | POLY_B | POLY_BOTH.

#[global] Instance BeatIntensity_eq_dec : EqDecision BeatIntensity.
Proof. solve_decision. Defined.

(** [enum NoteName]; the constructors are used qualified, [NoteName.A], as
    in the source. *)
Module NoteName.
Inductive t : Set :=
  | C | CSharp | D | DSharp | E | F | FSharp | G | GSharp | A | ASharp | B.
End NoteName.

#[global] Instance NoteName_eq_dec : EqDecision NoteName.t.
Proof. solve_decision. Defined.

Record SpeedTrainerSettings : Set := mkTrainer {
  enabled : bool;
  barCount : Z;
  increment : Z;
  currentBarTracker : Z
}.

(** [for (let i = 0; i < n; i++) body] over a loop state. *)
Definition forLoop {St : Type} (n : Z) (body : Z -> St -> St) (s : St) : St :=
  fold_left (fun acc i => body i acc) (seqZ 0 n) s.

(** ** The JavaScript platform: numbers and the [Math] object

    The operations of ECMAScript that the engine calls, on binary64
    values. [+], [-], [*], [/], [<], [<=], [Math.abs] and [Math.sqrt] are
    the primitive IEEE-754 operations. [Math.floor], [Math.round],
    [Math.max], [Math.min], [%], [Number.isFinite] and the conversions are
    defined here after the language standard, which fixes their result on
    every input. [Math.log] and [Math.pow] are only specified up to an
    implementation-chosen approximation: the embedding takes them as a
    parameter ([MathImpl]). A theorem holds for every choice, or, where
    the result depends on how accurate they are, for every choice within a
    stated number of units in the last place of a reference
    implementation ([within]). *)

Module Js.

Local Open Scope float_scope.

Abbreviation number := float.

(** The binary64 value nearest to an integer. *)
Definition ofZ (z : Z) : number :=
  SF2Prim (binary_normalize prec emax z 0 false).

Definition isFinite (x : number) : bool := is_finite x.

Definition Math_abs (x : number) : number := PrimFloat.abs x.

Definition Math_sqrt (x : number) : number := PrimFloat.sqrt x.

Definition two52 : number := 4503599627370496.

(** [Math.floor]: the largest integral value not above [x]; infinities,
    NaN and both zeros are returned unchanged. Below 2^52 in magnitude the
    sum [|x| + 2^52] rounds [|x|] to an integer, one correction step away
    from the floor. *)
Definition Math_floor (x : number) : number :=
  if negb (is_finite x) then x
  else if is_zero x then x
  else if two52 <=? Math_abs x then x
  else
    let r := (Math_abs x + two52) - two52 in
    let t := if x <? 0 then - r else r in
    if x <? t then t - 1 else t.

(** [Math.round]: the integral value nearest to [x], a tie going up; the
    result is [-0] for [-0.5 <= x < 0]. *)
Definition Math_round (x : number) : number :=
  if negb (is_finite x) then x
  else
    let f := Math_floor x in
    if f =? x then x
    else
      let r := if (x - f) <? 0.5 then f else f + 1 in
      if is_zero r && (x <? 0) then neg_zero else r.

(** [Math.max] and [Math.min]: NaN if an argument is NaN; [+0] is above
    [-0]. *)
Definition Math_max (x y : number) : number :=
  if is_nan x || is_nan y then nan
  else if x <? y then y
  else if y <? x then x
  else if get_sign x then y else x.

Definition Math_min (x y : number) : number :=
  if is_nan x || is_nan y then nan
  else if x <? y then x
  else if y <? x then y
  else if get_sign x then x else y.

(** The [%] operator on numbers: the remainder of the truncating division,
    with the sign of the dividend; it is exact. *)
Definition rem (n d : number) : number :=
  match Prim2SF n, Prim2SF d with
  | S754_nan, _ => nan
  | _, S754_nan => nan
  | S754_infinity _, _ => nan
  | _, S754_zero _ => nan
  | _, S754_infinity _ => n
  | S754_zero _, _ => n
  | S754_finite sn mn en, S754_finite _ md ed =>
      let e0 := Z.min en ed in
      let N := (Zpos mn * 2 ^ (en - e0))%Z in
      let D := (Zpos md * 2 ^ (ed - e0))%Z in
      let R := (N mod D)%Z in
      if (R =? 0)%Z then (if sn then neg_zero else zero)
      else SF2Prim (binary_normalize prec emax (if sn then - R else R)%Z e0 false)
  end.

(** The array index a number denotes as a property key, if any: a
    non-negative integer ([-0] is the key "0"). *)
Definition toIndex (x : number) : option Z :=
  match Prim2SF x with
  | S754_zero _ => Some 0%Z
  | S754_finite false m e =>
      if (0 <=? e)%Z then Some (Zpos m * 2 ^ e)%Z
      else if (Zpos m mod 2 ^ (- e) =? 0)%Z then Some (Zpos m / 2 ^ (- e))%Z
      else None
  | _ => None
  end.

(** The integer a finite number truncates to (0 otherwise). *)
Definition truncZ (x : number) : Z :=
  match Prim2SF x with
  | S754_finite s m e =>
      let a := (if (0 <=? e)%Z then Zpos m * 2 ^ e else Zpos m / 2 ^ (- e))%Z in
      if s then (- a)%Z else a
  | _ => 0%Z
  end.

(** [arr[i]] for an integer [i]: [undefined] out of range. *)
Definition getZ {X : Type} (arr : list X) (i : Z) : option X :=
  if (i <? 0)%Z then None else arr !! Z.to_nat i.

(** [arr[x]] for a number [x]. *)
Definition get {X : Type} (arr : list X) (x : number) : option X :=
  match toIndex x with
  | Some i => getZ arr i
  | None => None
  end.

(** What a store into a [Float32Array] keeps: the binary32 value nearest
    to [x] (ties to even), as a binary64 value. *)
Definition fround (x : number) : number :=
  match Prim2SF x with
  | S754_finite s m e => SF2Prim (binary_round 24 128 s m e)
  | _ => x
  end.

(** The implementation-approximated functions. *)
Record MathImpl : Set := mkMath {
  Math_log : number -> number;
  Math_pow : number -> number -> number
}.

(** *** A reference implementation

    One [MathImpl], to run the embedding on concrete inputs and to measure
    the others against: logarithm by argument reduction and the series of
    [atanh], exponential by argument reduction and its Taylor series. The
    special values are those the standard prescribes. *)

Definition LN2 : number := 0.6931471805599453.

Fixpoint atanh_tail (terms : nat) (k : Z) (t2 : number) : number :=
  match terms with
  | O => 0
  | S r => 1 / ofZ (2 * k + 1) + t2 * atanh_tail r (k + 1)%Z t2
  end.

Definition ref_log (x : number) : number :=
  if is_nan x then nan
  else if is_zero x then neg_infinity
  else if x <? 0 then nan
  else if is_infinity x then infinity
  else
    let (m, e) := Z.frexp x in
    let (m, e) :=
      if m <? 0.7071067811865476 then (m * 2, (e - 1)%Z) else (m, e) in
    let t := (m - 1) / (m + 1) in
    ofZ e * LN2 + 2 * (t * atanh_tail 24 0 (t * t)).

Fixpoint exp_tail (terms : nat) (k : Z) (r : number) : number :=
  match terms with
  | O => 1
  | S n => 1 + r / ofZ k * exp_tail n (k + 1)%Z r
  end.

Definition ref_exp (z : number) : number :=
  if is_nan z then nan
  else if is_infinity z then (if z <? 0 then 0 else infinity)
  else
    let k := Math_round (z / LN2) in
    let r := z - k * LN2 in
    Z.ldexp (exp_tail 24 1 r) (truncZ k).

Definition ref_pow (b y : number) : number :=
  if is_nan y then nan
  else if is_zero y then 1
  else if is_nan b then nan
  else if b <? 0 then nan
  else ref_exp (y * ref_log b).

Definition refMath : MathImpl := mkMath ref_log ref_pow.

(** *** Implementations near the reference

    [within k r]: the numbers at most [k] units in the last place from
    [r], that is [r], the [k] numbers next above it and the [k] next below
    it. *)
Fixpoint above (k : nat) (r : number) : list number :=
  match k with
  | O => []
  | S k' => next_up r :: above k' (next_up r)
  end.

Fixpoint below (k : nat) (r : number) : list number :=
  match k with
  | O => []
  | S k' => next_down r :: below k' (next_down r)
  end.

Definition within (k : nat) (r : number) : list number :=
  r :: above k r ++ below k r.

End Js.

(** ** audioEngine.ts: tuner logic *)

Definition NOTE_STRINGS : list NoteName.t :=
  [ NoteName.C; NoteName.CSharp; NoteName.D; NoteName.DSharp; NoteName.E;
    NoteName.F; NoteName.FSharp; NoteName.G; NoteName.GSharp; NoteName.A;
    NoteName.ASharp; NoteName.B ].

(** [interface TunerData]. The type declares [note : NoteName]; at run time
    the field holds whatever the table lookup returns, [undefined] (here
    [None]) included. *)
Record TunerData : Set := mkTunerData {
  note : option NoteName.t;
  octave : Js.number;
  cents : Js.number;
  frequency : Js.number;
  isSilent : bool
}.

Section Tuner.

Local Open Scope float_scope.
Variable M : Js.MathImpl.

(** [getNoteFromFrequency] (lines 22-40). *)
Definition getNoteFromFrequency (frequency : Js.number) : TunerData :=
  if negb (Js.isFinite frequency) || (frequency <=? 0) then
    mkTunerData (Some NoteName.A) 4 0 440 true
  else
    let noteNum :=
      12 * (Js.Math_log M (frequency / 440) / Js.Math_log M 2) + 69 in
    let midi := Js.Math_round noteNum in
    let cents := Js.Math_floor ((noteNum - midi) * 100) in
    let noteIndex := Js.rem (Js.rem midi 12 + 12) 12 in
    let octave := Js.Math_floor (midi / 12) - 1 in
    mkTunerData (Js.get NOTE_STRINGS noteIndex) octave cents frequency false.

(** The midi-to-frequency formula of [PolySynth.play] and [playNotes]
    (lines 244 and 323). *)
Definition midiToFrequency (midi : Js.number) : Js.number :=
  440 * Js.Math_pow M 2 ((midi - 69) / 12).

End Tuner.

Section RoundTripCheck.

Local Open Scope float_scope.

(** Line 26 of [getNoteFromFrequency]: the fractional MIDI number. *)
Definition fractionalMidi (M : Js.MathImpl) (frequency : Js.number)
    : Js.number :=
  12 * (Js.Math_log M (frequency / 440) / Js.Math_log M 2) + 69.

(** Lines 27-39 of [getNoteFromFrequency], given the fractional MIDI
    number. *)
Definition noteOfNum (frequency noteNum : Js.number) : TunerData :=
  let midi := Js.Math_round noteNum in
  let cents := Js.Math_floor ((noteNum - midi) * 100) in
  let noteIndex := Js.rem (Js.rem midi 12 + 12) 12 in
  let octave := Js.Math_floor (midi / 12) - 1 in
  mkTunerData (Js.get NOTE_STRINGS noteIndex) octave cents frequency false.

(** The record is the one of the pitch [m]: its note and octave, and cents
    0 or -1, which is within -50..49. *)
Definition isPitch (m : Z) (r : TunerData) : bool :=
  bool_decide (note r = NOTE_STRINGS !! Z.to_nat (m mod 12))
  && (octave r =? Js.ofZ (m / 12 - 1))
  && ((cents r =? 0) || (cents r =? -1))
  && ((-50 <=? cents r) && (cents r <=? 49))
  && negb (isSilent r).

(** The exponent of the power for the pitch [m] (line 244). *)
Definition pitchExponent (m : Z) : Js.number := (Js.ofZ m - 69) / 12.

(** A platform whose [Math.pow] and [Math.log] are, on the arguments the
    round trip of the pitches 0..127 hands them, within [k] units in the
    last place of the reference's: the power of 2 for each pitch, the
    logarithm of [frequency / 440] for each frequency such a power gives,
    and the logarithm of 2. *)
Definition Accurate (k : nat) (M : Js.MathImpl) : Prop :=
  (forall m, (0 <= m <= 127)%Z ->
     In (Js.Math_pow M 2 (pitchExponent m))
        (Js.within k (Js.ref_pow 2 (pitchExponent m))))
  /\ (forall m p, (0 <= m <= 127)%Z ->
        In p (Js.within k (Js.ref_pow 2 (pitchExponent m))) ->
        In (Js.Math_log M (440 * p / 440))
           (Js.within k (Js.ref_log (440 * p / 440))))
  /\ In (Js.Math_log M 2) (Js.within k (Js.ref_log 2)).

(** The round trip of the pitch [m] run on every value such a platform may
    return: for the power, then for the logarithm of the resulting
    quotient, and for the logarithm of 2. *)
Definition roundTripCheck (k : nat) (m : Z) : bool :=
  forallb
    (fun p =>
       let frequency := 440 * p in
       negb (negb (Js.isFinite frequency) || (frequency <=? 0))
       && forallb
            (fun logx =>
               forallb
                 (fun log2 =>
                    isPitch m
                      (noteOfNum frequency (12 * (logx / log2) + 69)))
                       (Js.within k (Js.ref_log 2)))
            (Js.within k (Js.ref_log (frequency / 440))))
    (Js.within k (Js.ref_pow 2 (pitchExponent m))).

End RoundTripCheck.

Section PitchDetector.

Local Open Scope float_scope.

(** A read of a typed array inside an arithmetic expression: [undefined]
    (index out of range) converts to NaN. *)
Definition sample (buf : list Js.number) (i : Z) : Js.number :=
  match Js.getZ buf i with
  | Some v => v
  | None => nan
  end.

(** Lines 51-55: the root mean square of the buffer. *)
Definition rmsOf (buf : list Js.number) : Js.number :=
  let SIZE := Z.of_nat (length buf) in
  let rms :=
    forLoop SIZE (fun i rms => let val := sample buf i in rms + val * val) 0 in
  Js.Math_sqrt (rms / Js.ofZ SIZE).

(** Lines 63-68: the correlation of the buffer with itself shifted by
    [offset]. *)
Definition correlationAt (buf : list Js.number) (MAX_SAMPLES offset : Z)
    : Js.number :=
  let correlation :=
    forLoop MAX_SAMPLES
      (fun i correlation =>
         correlation + Js.Math_abs (sample buf i - sample buf (i + offset))) 0 in
  1 - correlation / Js.ofZ MAX_SAMPLES.

(** The variables the offset loop updates. *)
Record LoopState : Set := mkLoop {
  bestOffset : Z;
  bestCorrelation : Js.number;
  foundGoodCorrelation : bool;
  lastCorrelation : Js.number;
  correlations : list Js.number
}.

(** One turn of the offset loop (lines 63-83): [inl r] is [return r]. *)
Definition offsetStep (buf : list Js.number) (sampleRate : Js.number)
    (MAX_SAMPLES offset : Z) (st : LoopState) : Js.number + LoopState :=
  let correlation := correlationAt buf MAX_SAMPLES offset in
  let correlations :=
    <[Z.to_nat offset := Js.fround correlation]> st.(correlations) in
  if (0.9 <? correlation) && (st.(lastCorrelation) <? correlation) then
    if st.(bestCorrelation) <? correlation then
      inr (mkLoop offset correlation true correlation correlations)
    else
      inr (mkLoop st.(bestOffset) st.(bestCorrelation) true correlation
                  correlations)
  else if st.(foundGoodCorrelation) then
    let bestOffset := st.(bestOffset) in
    let denom :=
      2 * sample correlations bestOffset
      - sample correlations (bestOffset + 1)
      - sample correlations (bestOffset - 1) in
    if Js.Math_abs denom <? 0.0001 then
      inl (sampleRate / Js.ofZ (if (bestOffset =? 0)%Z then 1 else bestOffset))
    else
      let shift :=
        (sample correlations (bestOffset + 1)
         - sample correlations (bestOffset - 1)) / (2 * denom) in
      inl (sampleRate / (Js.ofZ bestOffset + shift))
  else
    inr (mkLoop st.(bestOffset) st.(bestCorrelation)
                st.(foundGoodCorrelation) correlation correlations).

(** The offset loop over the lags still to try. *)
Fixpoint offsetLoop (buf : list Js.number) (sampleRate : Js.number)
    (MAX_SAMPLES : Z) (offsets : list Z) (st : LoopState)
    : Js.number + LoopState :=
  match offsets with
  | [] => inr st
  | offset :: rest =>
      match offsetStep buf sampleRate MAX_SAMPLES offset st with
      | inl r => inl r
      | inr st' => offsetLoop buf sampleRate MAX_SAMPLES rest st'
      end
  end.

(** The lags of [for (let offset = 2; offset < MAX_SAMPLES - 1; offset++)]. *)
Definition candidateLags (MAX_SAMPLES : Z) : list Z :=
  seqZ 2 (MAX_SAMPLES - 1 - 2).

(** The lag of highest correlation among [lags], with its correlation:
    what a fallback to the best lag over all candidates would select. *)
Definition bestLag (buf : list Js.number) (MAX_SAMPLES : Z) (lags : list Z)
    : option (Z * Js.number) :=
  fold_left
    (fun best lag =>
       let c := correlationAt buf MAX_SAMPLES lag in
       match best with
       | None => Some (lag, c)
       | Some (_, cBest) => if cBest <? c then Some (lag, c) else best
       end)
    lags None.

(** [autoCorrelate] (lines 42-89); [-1] is the no-pitch sentinel. *)
Definition autoCorrelate (buf : list Js.number) (sampleRate : Js.number)
    : Js.number :=
  let SIZE := Z.of_nat (length buf) in
  let MAX_SAMPLES := (SIZE / 2)%Z in
  let rms := rmsOf buf in
  if rms <? 0.01 then -1
  else
    let init :=
      mkLoop (-1) 0 false 1 (replicate (Z.to_nat MAX_SAMPLES) 0) in
    match offsetLoop buf sampleRate MAX_SAMPLES (candidateLags MAX_SAMPLES)
                     init with
    | inl r => r
    | inr st =>
        if (0.01 <? st.(bestCorrelation)) && (0 <? st.(bestOffset))%Z then
          sampleRate / Js.ofZ st.(bestOffset)
        else -1
    end.

(** [new Float32Array(values)]: each value is stored as binary32. *)
Definition Float32Array (values : list Js.number) : list Js.number :=
  map Js.fround values.

(** Two input frames used in the examples: sixteen samples of a square wave
    of period 4 on a ramp (multiples of 1/16, exact in binary32), and a
    frame of silence of the tuner's size. *)
Definition risingWave : list Js.number :=
  [ 0.5; 0.5625; -0.375; -0.3125; 0.75; 0.8125; -0.125; -0.0625;
    1; 1.0625; 0.125; 0.1875; 1.25; 1.3125; 0.375; 0.4375 ].

Definition silence : list Js.number := replicate 2048 0.

(** The RMS of an all-zero frame of [k] samples, [sqrt (0 / k)], is below
    the floor for each of the [fuel] lengths from [k] on. *)
Fixpoint zeroFramesSilent (fuel : nat) (k : Z) : bool :=
  match fuel with
  | O => true
  | S fuel' =>
      (Js.Math_sqrt (0 / Js.ofZ k) <? 0.01) && zeroFramesSilent fuel' (k + 1)
  end.

End PitchDetector.

(** ** audioEngine.ts: metronome logic *)

Module MetronomeEngine.

Local Open Scope float_scope.

Inductive OscType : Set := sine | triangle.

(** What the engine asks of its environment, in order:
    - [UiStep beatNumber delay]: the [setTimeout] of [scheduleNote], which
      calls [onStep(beatNumber)] after [delay] ms if the engine still plays;
    - [Click f type gainVal schedTime]: one oscillator of frequency [f]
      through a gain node with the click envelope, started at [schedTime];
    - [Rearm delay]: the [setTimeout] that runs [scheduler] again;
    - [ClearTimer]: the [clearTimeout] of [stop]. *)
Inductive Event : Set :=
  | UiStep (beatNumber : Z) (delay : Js.number)
  | Click (f : Js.number) (type : OscType) (gainVal schedTime : Js.number)
  | Rearm (delay : Js.number)
  | ClearTimer.

(** The fields of [class MetronomeEngine] that change, and the log;
    [timerID] tells whether a timer handle is held. *)
Record Engine : Set := mkEngine {
  isPlaying : bool;
  nextNoteTime : Js.number;
  timerID : bool;
  currentStep : Z;
  bpm : Js.number;
  grid : list BeatIntensity;
  stepInterval : Js.number;
  out : list Event
}.

Definition lookahead : Js.number := 25.0.
Definition scheduleAheadTime : Js.number := 0.1.

(** The engine as the constructor leaves it. *)
Definition init : Engine := mkEngine false 0.0 false 0 120 [] 0.5 [].

Definition emit (evs : list Event) (e : Engine) : Engine :=
  mkEngine e.(isPlaying) e.(nextNoteTime) e.(timerID) e.(currentStep)
           e.(bpm) e.(grid) e.(stepInterval) (e.(out) ++ evs).

Definition setParams (bpm : Js.number) (grid : list BeatIntensity)
    (e : Engine) : Engine :=
  mkEngine e.(isPlaying) e.(nextNoteTime) e.(timerID) e.(currentStep)
           bpm grid e.(stepInterval) e.(out).

Definition setStepInterval (seconds : Js.number) (e : Engine) : Engine :=
  mkEngine e.(isPlaying) e.(nextNoteTime) e.(timerID) e.(currentStep)
           e.(bpm) e.(grid) (Js.Math_max 0.001 seconds) e.(out).

(** [nextNote] (lines 164-170). *)
Definition nextNote (e : Engine) : Engine :=
  let nextNoteTime := e.(nextNoteTime) + e.(stepInterval) in
  let currentStep := (e.(currentStep) + 1)%Z in
  let currentStep :=
    if (currentStep >=? Z.of_nat (length e.(grid)))%Z then 0%Z
    else currentStep in
  mkEngine e.(isPlaying) nextNoteTime e.(timerID) currentStep e.(bpm)
           e.(grid) e.(stepInterval) e.(out).

(** The [switch] of [scheduleNote] (lines 187-194); [None] is the
    [undefined] read past the end of the grid, which only [default]
    matches. *)
Definition tones (intensity : option BeatIntensity)
    : list Js.number * Js.number :=
  match intensity with
  | Some STRONG => ([1500], 1.0)
  | Some WEAK => ([800], 0.4)
  | Some POLY_A => ([600], 0.6)
  | Some POLY_B => ([1200], 0.6)
  | Some POLY_BOTH => ([600; 1200], 0.8)
  | _ => ([800], 0.4)
  end.

(** [scheduleNote] (lines 172-211), the audio clock reading [now]. *)
Definition scheduleNote (now : Js.number) (beatNumber : Z)
    (time : Js.number) (e : Engine) : Engine :=
  let schedTime := Js.Math_max now time in
  let drawTime := (schedTime - now) * 1000 in
  let e := emit [UiStep beatNumber (Js.Math_max 0 drawTime)] e in
  let intensity := Js.getZ e.(grid) beatNumber in
  if bool_decide (intensity = Some MUTE) || negb e.(isPlaying) then e
  else
    let '(freqs, gainVal) := tones intensity in
    emit (map (fun f =>
                 Click f (if 1000 <? f then triangle else sine)
                       gainVal schedTime) freqs) e.

(** The [while] of [scheduler]: at most [fuel] turns, 100 in the source. *)
Fixpoint schedulerLoop (fuel : nat) (now : Js.number) (e : Engine)
    : Engine :=
  match fuel with
  | O => e
  | S fuel' =>
      if e.(nextNoteTime) <? now + scheduleAheadTime then
        schedulerLoop fuel' now
          (nextNote (scheduleNote now e.(currentStep) e.(nextNoteTime) e))
      else e
  end.

(** [scheduler] (lines 148-162). *)
Definition scheduler (now : Js.number) (e : Engine) : Engine :=
  if negb e.(isPlaying) then e
  else
    let e :=
      if e.(nextNoteTime) <? now then
        mkEngine e.(isPlaying) now e.(timerID) e.(currentStep) e.(bpm)
                 e.(grid) e.(stepInterval) e.(out)
      else e in
    let e := schedulerLoop 100 now e in
    mkEngine e.(isPlaying) e.(nextNoteTime) true e.(currentStep) e.(bpm)
             e.(grid) e.(stepInterval) (e.(out) ++ [Rearm lookahead]).

(** [start] (lines 129-138). *)
Definition start (now : Js.number) (e : Engine) : Engine :=
  if e.(isPlaying) then e
  else
    scheduler now
      (mkEngine true (now + 0.05) e.(timerID) 0 e.(bpm) e.(grid)
                e.(stepInterval) e.(out)).

(** [stop] (lines 140-146). *)
Definition stop (e : Engine) : Engine :=
  mkEngine false e.(nextNoteTime) false e.(currentStep) e.(bpm) e.(grid)
           e.(stepInterval)
           (if e.(timerID) then e.(out) ++ [ClearTimer] else e.(out)).

(** What [scheduleNote] emits for a step read past the end of the grid
    while the engine plays: the UI callback and the [default] tone. *)
Definition defaultStep (now : Js.number) (bt : Z * Js.number) : list Event :=
  let schedTime := Js.Math_max now (snd bt) in
  [ UiStep (fst bt) (Js.Math_max 0 ((schedTime - now) * 1000));
    Click 800 sine 0.4 schedTime ].

Definition isClick (ev : Event) : bool :=
  match ev with Click _ _ _ _ => true | _ => false end.

(** The tones a run of the engine instructed. *)
Definition clicks (e : Engine) : list Event := List.filter isClick e.(out).

End MetronomeEngine.

(** ** audioEngine.ts: keyboard / synth logic *)

Module PolySynth.

Local Open Scope float_scope.

(** A note object [{ osc, gain, isStopped }]. Objects live in a store and
    are named by their reference, so that the [isStopped] flag written
    through one alias is seen through the others, and [===] on objects is
    equality of references. *)
Record Voice : Set := mkVoice {
  osc : nat;
  gain : nat;
  isStopped : bool
}.

(** The instructions sent to the audio graph and to the timer queue. *)
Inductive Cmd : Set :=
  | OscCreate (osc gain : nat) (freq : Js.number)
  | SetValueAtTime (gain : nat) (value time : Js.number)
  | LinearRampToValueAtTime (gain : nat) (value time : Js.number)
  | SetTargetAtTime (gain : nat) (target time timeConstant : Js.number)
  | CancelScheduledValues (gain : nat) (time : Js.number)
  | OscStart (osc : nat) (time : Js.number)
  | OscStop (osc : nat) (time : Js.number)
  | SafetyTimeout (midi : Z) (noteObj : nat) (delay : Js.number).

(** [class PolySynth]: [activeNotes] is a JavaScript [Map] from MIDI pitch
    to note object, kept in insertion order (the order [forEach] visits);
    [heap] is the object store, a reference being an index into it. *)
Record Synth : Set := mkSynth {
  activeNotes : list (Z * nat);
  heap : list Voice;
  decayMode : bool;
  log : list Cmd
}.

Definition init : Synth := mkSynth [] [] true [].

(** *** The [Map] operations *)

Fixpoint mapGet (k : Z) (m : list (Z * nat)) : option nat :=
  match m with
  | [] => None
  | (k', v) :: rest => if (k' =? k)%Z then Some v else mapGet k rest
  end.

Definition mapHas (k : Z) (m : list (Z * nat)) : bool :=
  match mapGet k m with Some _ => true | None => false end.

(** [set]: an existing key keeps its place and takes the new value, a new
    key goes last. *)
Fixpoint mapSet (k : Z) (v : nat) (m : list (Z * nat)) : list (Z * nat) :=
  match m with
  | [] => [(k, v)]
  | (k', v') :: rest =>
      if (k' =? k)%Z then (k', v) :: rest else (k', v') :: mapSet k v rest
  end.

Definition mapDelete (k : Z) (m : list (Z * nat)) : list (Z * nat) :=
  List.filter (fun kv => negb (fst kv =? k)%Z) m.

Definition mapKeys (m : list (Z * nat)) : list Z := map fst m.

(** *** The methods *)

(** [stop] (lines 282-302). The [try] block only guards calls into the
    audio graph; whatever they do, the flag is set before it and the entry
    is deleted after it. *)
Definition stop (now : Js.number) (midi : Z) (immediate : bool)
    (s : Synth) : Synth :=
  match mapGet midi s.(activeNotes) with
  | None => s
  | Some ref =>
      match s.(heap) !! ref with
      | None => s
      | Some active =>
          if active.(isStopped) then s
          else
            let heap' :=
              <[ref := mkVoice active.(osc) active.(gain) true]> s.(heap) in
            let stopTime := if immediate then 0.05 else 0.3 in
            let cmds :=
              [ CancelScheduledValues active.(gain) now;
                SetTargetAtTime active.(gain) 0.0001 now
                                (if immediate then 0.01 else 0.05);
                OscStop active.(osc) (now + stopTime) ] in
            mkSynth (mapDelete midi s.(activeNotes)) heap' s.(decayMode)
                    (s.(log) ++ cmds)
      end
  end.

Section Play.

Variable M : Js.MathImpl.

(** [play] (lines 234-280). *)
Definition play (now : Js.number) (midi : Z) (s : Synth) : Synth :=
  let s :=
    if mapHas midi s.(activeNotes) then stop now midi true s else s in
  let ref := length s.(heap) in
  let osc := (2 * ref)%nat in
  let gain := (2 * ref + 1)%nat in
  let freq := midiToFrequency M (Js.ofZ midi) in
  let pivot := 60 in
  let sensitivity := 0.012 in
  let noteGain := 0.3 * (1 - (Js.ofZ midi - pivot) * sensitivity) in
  let noteGain := Js.Math_max 0.1 (Js.Math_min 0.6 noteGain) in
  let attack :=
    [ OscCreate osc gain freq;
      SetValueAtTime gain 0.0001 now;
      LinearRampToValueAtTime gain noteGain (now + 0.02) ] in
  let decay :=
    if s.(decayMode) then [SetTargetAtTime gain 0.0001 (now + 0.02) 0.8]
    else [] in
  let timeout :=
    if s.(decayMode) then [SafetyTimeout midi ref 5000] else [] in
  mkSynth (mapSet midi ref s.(activeNotes))
          (s.(heap) ++ [mkVoice osc gain false])
          s.(decayMode)
          (s.(log) ++ attack ++ decay ++ [OscStart osc now] ++ timeout).

End Play.

(** The callback of the safety timeout (lines 274-278): it stops the note
    only if the map still holds the very object it was armed for. *)
Definition safetyTimeout (now : Js.number) (midi : Z) (noteObj : nat)
    (s : Synth) : Synth :=
  if bool_decide (mapGet midi s.(activeNotes) = Some noteObj)
  then stop now midi true s
  else s.

(** [stopAll] (lines 304-307). [forEach] visits the entries in insertion
    order; an entry deleted before its turn would be skipped, and [stop]
    on its key is then a no-op, so iterating over the keys as they were
    when the loop began is the same walk. *)
Definition stopAll (now : Js.number) (s : Synth) : Synth :=
  let s :=
    fold_left (fun acc midi => stop now midi true acc)
              (mapKeys s.(activeNotes)) s in
  mkSynth [] s.(heap) s.(decayMode) s.(log).

(** The calls a client can make, and the timer callback. *)
Inductive Op : Set :=
  | Play (now : Js.number) (midi : Z)
  | Stop (now : Js.number) (midi : Z) (immediate : bool)
  | StopAll (now : Js.number)
  | Timeout (now : Js.number) (midi : Z) (noteObj : nat)
  | SetDecayMode (b : bool).

Definition step (M : Js.MathImpl) (s : Synth) (op : Op) : Synth :=
  match op with
  | Play now midi => play M now midi s
  | Stop now midi immediate => stop now midi immediate s
  | StopAll now => stopAll now s
  | Timeout now midi noteObj => safetyTimeout now midi noteObj s
  | SetDecayMode b => mkSynth s.(activeNotes) s.(heap) b s.(log)
  end.

Definition run (M : Js.MathImpl) (ops : list Op) (s : Synth) : Synth :=
  fold_left (step M) ops s.

(** The object a reference names. *)
Definition voiceOf (s : Synth) (ref : nat) : option Voice := s.(heap) !! ref.

(** The voice-map invariant: one entry per pitch, no object under two
    pitches, and every entry names an object of the store whose flag is
    still down. *)
Definition Inv (s : Synth) : Prop :=
  NoDup (mapKeys s.(activeNotes)) /\
  NoDup (map snd s.(activeNotes)) /\
  forall midi ref, In (midi, ref) s.(activeNotes) ->
    exists v, voiceOf s ref = Some v /\ v.(isStopped) = false.

(** The converse: a voice whose flag is down is in the map. *)
Definition Live (s : Synth) : Prop :=
  forall ref v, voiceOf s ref = Some v -> v.(isStopped) = false ->
    exists midi, In (midi, ref) s.(activeNotes).

End PolySynth.

(** ** Metronome.tsx: gcd, lcm and the grid effect *)

Module Metronome.

(** [const gcd = (a, b) => b === 0 ? a : gcd(b, a % b)]; [%] is the
    truncating remainder, [Z.rem]. *)
Equations gcd (a b : Z) : Z by wf (Z.abs_nat b) lt :=
  gcd a b with Z.eq_dec b 0 := {
    | left _ => a
    | right _ => gcd b (Z.rem a b) }.
Next Obligation.
  intros a b Hb _.
  pose proof (Z.rem_bound_abs a b Hb). lia.
Qed.

(** [lcm]: the quotient [Math.abs(a * b) / gcd(a, b)] is a float division
    in the source; it is exact because the gcd divides the product
    ([gcd_divides_product] below), so integer division gives the same
    number. *)
Definition lcm (a b : Z) : Z :=
  if (a =? 0) || (b =? 0) then 0 else Z.abs (a * b) / gcd a b.

Inductive Mode : Set := STANDARD | POLYRHYTHM.

(** The component's React state, with the [prevStepRef] ref. *)
Record State : Set := mkState {
  bpm : Z;
  isPlaying : bool;
  mode : Mode;
  numerator : Z;
  subdivision : Z;
  polyA : Z;
  polyB : Z;
  trainerSettings : SpeedTrainerSettings;
  currentStepIndex : Z;
  grid : list BeatIntensity;
  prevStepRef : Z
}.

Definition setGrid (g : list BeatIntensity) (s : State) : State :=
  mkState s.(bpm) s.(isPlaying) s.(mode) s.(numerator) s.(subdivision)
          s.(polyA) s.(polyB) s.(trainerSettings) s.(currentStepIndex)
          g s.(prevStepRef).

Definition setBpm (f : Z -> Z) (s : State) : State :=
  mkState (f s.(bpm)) s.(isPlaying) s.(mode) s.(numerator) s.(subdivision)
          s.(polyA) s.(polyB) s.(trainerSettings) s.(currentStepIndex)
          s.(grid) s.(prevStepRef).

Definition setIsPlaying (p : bool) (s : State) : State :=
  mkState s.(bpm) p s.(mode) s.(numerator) s.(subdivision)
          s.(polyA) s.(polyB) s.(trainerSettings) s.(currentStepIndex)
          s.(grid) s.(prevStepRef).

Definition setTrainer (t : SpeedTrainerSettings) (s : State) : State :=
  mkState s.(bpm) s.(isPlaying) s.(mode) s.(numerator) s.(subdivision)
          s.(polyA) s.(polyB) t s.(currentStepIndex)
          s.(grid) s.(prevStepRef).

Definition setCurrentStepIndex (i : Z) (s : State) : State :=
  mkState s.(bpm) s.(isPlaying) s.(mode) s.(numerator) s.(subdivision)
          s.(polyA) s.(polyB) s.(trainerSettings) i
          s.(grid) s.(prevStepRef).

Definition setPrevStepRef (i : Z) (s : State) : State :=
  mkState s.(bpm) s.(isPlaying) s.(mode) s.(numerator) s.(subdivision)
          s.(polyA) s.(polyB) s.(trainerSettings) s.(currentStepIndex)
          s.(grid) i.

(** Body of the standard-mode loop (lines 213-216). *)
Definition standardStep (subdivision : Z) (i : Z)
    (newGrid : list BeatIntensity) : list BeatIntensity :=
  if i =? 0 then <[Z.to_nat i := STRONG]> newGrid
  else if Z.rem i subdivision =? 0 then <[Z.to_nat i := WEAK]> newGrid
  else newGrid.

(** Body of the polyrhythm loop (lines 226-232). *)
Definition polyStep (stepIntervalA stepIntervalB : Z) (i : Z)
    (newGrid : list BeatIntensity) : list BeatIntensity :=
  let hitA := Z.rem i stepIntervalA =? 0 in
  let hitB := Z.rem i stepIntervalB =? 0 in
  if hitA && hitB then <[Z.to_nat i := POLY_BOTH]> newGrid
  else if hitA then <[Z.to_nat i := POLY_A]> newGrid
  else if hitB then <[Z.to_nat i := POLY_B]> newGrid
  else newGrid.

(** The grid effect (lines 209-235): rebuilds the grid from the mode and
    its parameters; in polyrhythm mode a zero [totalSteps] returns before
    [setGrid] and leaves the grid as it was. *)
Definition gridEffect (s : State) : State :=
  match s.(mode) with
  | STANDARD =>
      let totalSteps := s.(numerator) * s.(subdivision) in
      let newGrid := replicate (Z.to_nat totalSteps) MUTE in
      setGrid (forLoop totalSteps (standardStep s.(subdivision)) newGrid) s
  | POLYRHYTHM =>
      let stepsA := Z.max 1 s.(polyA) in
      let stepsB := Z.max 1 s.(polyB) in
      let totalSteps := lcm stepsA stepsB in
      if totalSteps =? 0 then s
      else
        let newGrid := replicate (Z.to_nat totalSteps) MUTE in
        let stepIntervalA := totalSteps / stepsA in
        let stepIntervalB := totalSteps / stepsB in
        setGrid (forLoop totalSteps (polyStep stepIntervalA stepIntervalB)
                         newGrid) s
  end.

(** The grid the polyrhythm branch builds for the pickers' values [a], [b],
    whatever the rest of the state. *)
Definition polyGridOf (a b : Z) (s : State) : list BeatIntensity :=
  grid (gridEffect
          (mkState s.(bpm) s.(isPlaying) POLYRHYTHM s.(numerator)
                   s.(subdivision) a b s.(trainerSettings)
                   s.(currentStepIndex) s.(grid) s.(prevStepRef))).

Definition isPolyA (x : BeatIntensity) : bool :=
  match x with POLY_A | POLY_BOTH => true | _ => false end.

Definition isPolyB (x : BeatIntensity) : bool :=
  match x with POLY_B | POLY_BOTH => true | _ => false end.

Definition countA (g : list BeatIntensity) : Z :=
  Z.of_nat (length (List.filter isPolyA g)).

Definition countB (g : list BeatIntensity) : Z :=
  Z.of_nat (length (List.filter isPolyB g)).

(** The component as [useState] and [useRef] initialise it. *)
Definition initialState : State :=
  mkState 120 false STANDARD 4 1 3 4 (mkTrainer false 4 5 0) (-1) [] (-1).

(** The speed-trainer effect (lines 193-207). The updater passed to
    [setTrainerSettings] reads the settings [prev] and, when the bar count
    is exceeded, also queues the [setBpm] update. *)
Definition trainerEffect (s : State) : State :=
  let wasZero := s.(prevStepRef) =? 0 in
  let s := setPrevStepRef s.(currentStepIndex) s in
  if wasZero || negb (s.(currentStepIndex) =? 0) then s
  else if negb s.(isPlaying) || negb s.(trainerSettings).(enabled) then s
  else
    let prev := s.(trainerSettings) in
    let nextCount := prev.(currentBarTracker) + 1 in
    if nextCount >? prev.(barCount) then
      setTrainer
        (mkTrainer prev.(enabled) prev.(barCount) prev.(increment) 1)
        (setBpm (fun current => Z.min 300 (current + prev.(increment))) s)
    else
      setTrainer
        (mkTrainer prev.(enabled) prev.(barCount) prev.(increment) nextCount)
        s.

(** The engine's step callback, [(step) => setCurrentStepIndex(step)],
    followed by the render it causes: setting a state to the value it
    already has causes none; otherwise the trainer effect runs, since
    [currentStepIndex] is one of its dependencies. *)
Definition onStep (step : Z) (s : State) : State :=
  if step =? s.(currentStepIndex) then s
  else trainerEffect (setCurrentStepIndex step s).

(** [togglePlay] (lines 252-261) and the render it causes: [isPlaying]
    always changes, so the trainer effect runs. *)
Definition togglePlay (s : State) : State :=
  let s' :=
    if negb s.(isPlaying) then
      let prev := s.(trainerSettings) in
      setCurrentStepIndex (-1)
        (setTrainer
           (mkTrainer prev.(enabled) prev.(barCount) prev.(increment) 0) s)
    else
      setPrevStepRef (-1) (setCurrentStepIndex (-1) s) in
  trainerEffect (setIsPlaying (negb s.(isPlaying)) s').

(** The step callbacks delivered in turn. *)
Definition runSteps (steps : list Z) (s : State) : State :=
  fold_left (fun acc step => onStep step acc) steps s.


Definition tracker (s : State) : Z := currentBarTracker (trainerSettings s).


(** The classification of index [i] for step intervals [dA] and [dB]. *)
Definition classify (dA dB i : Z) : BeatIntensity :=
  if (i mod dA =? 0) && (i mod dB =? 0) then POLY_BOTH
  else if i mod dA =? 0 then POLY_A
  else if i mod dB =? 0 then POLY_B
  else MUTE.

End Metronome.

(** ** The metronome engine's log, read back *)

Module EngineLog.
Import MetronomeEngine.

Local Open Scope float_scope.

(** What one call of [scheduleNote] appends to the log (lines 172-211):
    the UI callback, then the tones of the step unless it is muted or the
    engine is stopped. *)
Definition noteEvents (now : Js.number) (grid : list BeatIntensity)
    (isPlaying : bool) (bt : Z * Js.number) : list Event :=
  let schedTime := Js.Math_max now (snd bt) in
  let intensity := Js.getZ grid (fst bt) in
  UiStep (fst bt) (Js.Math_max 0 ((schedTime - now) * 1000))
  :: (if bool_decide (intensity = Some MUTE) || negb isPlaying then []
      else
        map (fun f => Click f (if 1000 <? f then triangle else sine)
                            (snd (tones intensity)) schedTime)
            (fst (tones intensity))).

(** The step that follows step [c] on a grid of [n] steps (lines 166-169). *)
Definition nextStep (n c : Z) : Z :=
  if (c + 1 >=? n)%Z then 0%Z else (c + 1)%Z.

(** The [k] steps visited from step [c] on. *)
Fixpoint walk (n c : Z) (k : nat) : list Z :=
  match k with
  | O => []
  | S k' => c :: walk n (nextStep n c) k'
  end.

(** The step reached after [k] steps. *)
Fixpoint walkEnd (n c : Z) (k : nat) : Z :=
  match k with
  | O => c
  | S k' => walkEnd n (nextStep n c) k'
  end.

(** The beat numbers of the UI callbacks in a log. *)
Definition beats (evs : list Event) : list Z :=
  omap (fun ev => match ev with UiStep b _ => Some b | _ => None end) evs.

(** The start times of the tones in a log. *)
Definition clickTimes (evs : list Event) : list Js.number :=
  omap (fun ev => match ev with Click _ _ _ t => Some t | _ => None end) evs.

End EngineLog.

(** ** The synth's log, read back *)

Module SynthLog.
Import PolySynth.

Local Open Scope float_scope.

(** The peak gain of a note's attack (lines 253-256): quieter up the
    keyboard, clamped to 0.1 .. 0.6. *)
Definition attackGain (midi : Z) : Js.number :=
  let pivot := 60 in
  let sensitivity := 0.012 in
  let noteGain := 0.3 * (1 - (Js.ofZ midi - pivot) * sensitivity) in
  Js.Math_max 0.1 (Js.Math_min 0.6 noteGain).

(** What [play] sends for the voice it creates at reference [ref] (lines
    242-279). *)
Definition playCmds (M : Js.MathImpl) (now : Js.number) (midi : Z)
    (ref : nat) (decayMode : bool) : list Cmd :=
  let osc := (2 * ref)%nat in
  let gain := (2 * ref + 1)%nat in
  [ OscCreate osc gain (midiToFrequency M (Js.ofZ midi));
    SetValueAtTime gain 0.0001 now;
    LinearRampToValueAtTime gain (attackGain midi) (now + 0.02) ]
  ++ (if decayMode then [SetTargetAtTime gain 0.0001 (now + 0.02) 0.8]
      else [])
  ++ [OscStart osc now]
  ++ (if decayMode then [SafetyTimeout midi ref 5000] else []).

Definition isStartOf (o : nat) (c : Cmd) : bool :=
  match c with OscStart o' _ => Nat.eqb o' o | _ => false end.

Definition isStopOf (o : nat) (c : Cmd) : bool :=
  match c with OscStop o' _ => Nat.eqb o' o | _ => false end.

(** How many times the log starts, and stops, oscillator [o]. *)
Definition starts (o : nat) (l : list Cmd) : nat :=
  length (List.filter (isStartOf o) l).

Definition stops (o : nat) (l : list Cmd) : nat :=
  length (List.filter (isStopOf o) l).

(** The attack ramps of a log: their target gains. *)
Definition attackGains (l : list Cmd) : list Js.number :=
  omap (fun c => match c with
                 | LinearRampToValueAtTime _ v _ => Some v
                 | _ => None
                 end) l.

(** The pitches of the [play] calls in a run, in order. *)
Definition playedPitches (ops : list Op) : list Z :=
  omap (fun op => match op with Play _ midi => Some midi | _ => None end) ops.

(** The log against the store: the voice at reference [ref] owns
    oscillator [2 ref], started once, and stopped once if its flag is up,
    never otherwise; no other oscillator is named in the log. *)
Definition OscInv (s : Synth) : Prop :=
  (forall ref v, heap s !! ref = Some v ->
     osc v = (2 * ref)%nat
     /\ starts (2 * ref) (log s) = 1%nat
     /\ stops (2 * ref) (log s) = if isStopped v then 1%nat else 0%nat)
  /\ (forall o, (forall ref, (ref < length (heap s))%nat -> o <> (2 * ref)%nat) ->
        starts o (log s) = 0%nat /\ stops o (log s) = 0%nat).

End SynthLog.

(** ** The pitch detector's answer, read off the correlations *)

Section DetectorPeak.

Local Open Scope float_scope.

(** What [correlations[k]] holds once the offset loop has passed lag [k]:
    the correlation at that lag, stored as binary32; the entries below
    lag 2 are never written and stay 0. *)
Definition storedCorrelation (buf : list Js.number) (MAX_SAMPLES k : Z)
    : Js.number :=
  if (k <? 2)%Z then 0 else Js.fround (correlationAt buf MAX_SAMPLES k).

(** Lines 78-81 for the best lag [b]: the frequency of the lag, moved by
    the vertex of the parabola through the correlations around it. *)
Definition interpolated (buf : list Js.number) (sampleRate : Js.number)
    (MAX_SAMPLES b : Z) : Js.number :=
  let c := storedCorrelation buf MAX_SAMPLES in
  let denom := 2 * c b - c (b + 1)%Z - c (b - 1)%Z in
  if Js.Math_abs denom <? 0.0001 then sampleRate / Js.ofZ b
  else
    let shift := (c (b + 1)%Z - c (b - 1)%Z) / (2 * denom) in
    sampleRate / (Js.ofZ b + shift).

(** The loop's variables after the lags below [o]. *)
Definition LoopInv (buf : list Js.number) (MAX_SAMPLES o : Z)
    (st : LoopState) : Prop :=
  (forall k, (0 <= k < MAX_SAMPLES)%Z ->
     sample (correlations st) k
     = if (k <? o)%Z then storedCorrelation buf MAX_SAMPLES k else 0)
  /\ length (correlations st) = Z.to_nat MAX_SAMPLES
  /\ (if foundGoodCorrelation st
      then (2 <= bestOffset st < o)%Z
           /\ (0.9 <? correlationAt buf MAX_SAMPLES (bestOffset st)) = true
           /\ bestCorrelation st
              = correlationAt buf MAX_SAMPLES (bestOffset st)
      else bestOffset st = (-1)%Z /\ bestCorrelation st = 0).

End DetectorPeak.

(** ** Metronome.tsx: the controls *)

Module MetronomeControls.
Import Metronome.

#[global] Instance Mode_eq_dec : EqDecision Mode.
Proof. solve_decision. Defined.

(** [BeatIntensity] is a numeric enum: the grid holds the numbers 0..5. *)
Definition intensityNumber (b : BeatIntensity) : Z :=
  match b with
  | MUTE => 0 | WEAK => 1 | STRONG => 2
  | POLY_A => 3 | POLY_B => 4 | POLY_BOTH => 5
  end.

(** The member of the enum a number in 0..2 is; [cycleIntensity] stores no
    other. *)
Definition intensityOfNumber (n : Z) : BeatIntensity :=
  if n =? 0 then MUTE else if n =? 1 then WEAK else STRONG.

(** The renders a change of state causes: an effect runs again when one of
    its dependencies differs from the previous render's (lines 207 and
    235). The two effects write different parts of the state, and what
    they write is a dependency of neither, so one pass settles. *)
Definition trainerDepsChanged (old new : State) : bool :=
  negb ((currentStepIndex old =? currentStepIndex new)
        && Bool.eqb (isPlaying old) (isPlaying new)
        && Bool.eqb (enabled (trainerSettings old))
                    (enabled (trainerSettings new))).

Definition gridDepsChanged (old new : State) : bool :=
  negb (bool_decide (mode old = mode new)
        && (numerator old =? numerator new)
        && (subdivision old =? subdivision new)
        && (polyA old =? polyA new)
        && (polyB old =? polyB new)).

Definition render (old new : State) : State :=
  let s := if trainerDepsChanged old new then trainerEffect new else new in
  if gridDepsChanged old new then gridEffect s else s.

(** *** The accent grid (lines 263-282) *)

(** [cycleIntensity(index)]. The cells on screen are those of the grid, so
    [index] is one of its indices; a store past the end would leave holes
    in the array, which a list does not have: [None]. *)
Definition cycleIntensity (index : Z) (s : State) : option State :=
  match mode s with
  | POLYRHYTHM => Some s
  | STANDARD =>
      match Js.getZ (grid s) index with
      | None => None
      | Some currentIntensity =>
          let next := Z.rem (intensityNumber currentIntensity + 1) 3 in
          Some (setGrid (<[Z.to_nat index := intensityOfNumber next]> (grid s)) s)
      end
  end.

(** [resetPattern]. *)
Definition resetPattern (s : State) : State :=
  match mode s with
  | STANDARD =>
      let totalSteps := numerator s * subdivision s in
      let newGrid := replicate (Z.to_nat totalSteps) MUTE in
      setGrid (forLoop totalSteps (standardStep (subdivision s)) newGrid) s
  | POLYRHYTHM => s
  end.

(** *** Tap tempo (lines 284-299) *)

Local Open Scope float_scope.

(** [times[i]], read within the array. *)
Definition timeAt (times : list Z) (i : Z) : Z :=
  match Js.getZ times i with Some t => t | None => 0%Z end.

(** Lines 293-296: the tempo of the taps kept. The times are integers of
    milliseconds, so are their differences and the sum. *)
Definition tapBpm (times : list Z) : Js.number :=
  let n := Z.of_nat (length times) in
  let sumDiffs :=
    fold_left (fun sumDiffs i => (sumDiffs + (timeAt times i - timeAt times (i - 1)))%Z)
              (seqZ 1 (n - 1)) 0%Z in
  let avgDiff := Js.ofZ sumDiffs / Js.ofZ (n - 1) in
  Js.Math_round (60000 / avgDiff).

(** [handleTap], with the reading [now] of [Date.now()] and the ref
    [tapTimesRef]; the accepted tempo is an integer in 20..300, stored as
    such. *)
Definition handleTap (now : Z) (ts : list Z * State) : list Z * State :=
  let '(times, s) := ts in
  if (0 <? Z.of_nat (length times))%Z
     && (now - timeAt times (Z.of_nat (length times) - 1) >? 2000)%Z
  then ([now], s)
  else
    let times := times ++ [now] in
    let times := if (Z.of_nat (length times) >? 5)%Z then tail times else times in
    if (Z.of_nat (length times) >? 1)%Z then
      let newBpm := tapBpm times in
      if (20 <=? newBpm) && (newBpm <=? 300)
      then (times, setBpm (fun _ => Js.truncZ newBpm) s)
      else (times, s)
    else (times, s).

Local Close Scope float_scope.

(** *** The tempo and trainer controls *)

Definition setTrainerSettings (f : SpeedTrainerSettings -> SpeedTrainerSettings)
    (s : State) : State :=
  setTrainer (f (trainerSettings s)) s.

(** What the user and the engine can do to the tempo:
    - the minus and plus buttons and the slider (lines 387-389); a range
      input reports an integer between its [min] and [max];
    - the tap button (line 364);
    - the trainer's switch and its four buttons (lines 426-455);
    - the play button (line 374) and the engine's step callback
      (line 186). *)
Inductive TempoEvent : Set :=
  | BpmMinus | BpmPlus | BpmSlider (value : Z)
  | Tap (now : Z)
  | TrainerToggle
  | IncrementMinus | IncrementPlus | BarCountMinus | BarCountPlus
  | TogglePlay
  | EngineStep (step : Z).

Definition tempoStep (ts : list Z * State) (ev : TempoEvent) : list Z * State :=
  let '(times, s) := ts in
  match ev with
  | BpmMinus => (times, setBpm (fun b => Z.max 20 (b - 1)) s)
  | BpmPlus => (times, setBpm (fun b => Z.min 300 (b + 1)) s)
  | BpmSlider value => (times, setBpm (fun _ => value) s)
  | Tap now => handleTap now (times, s)
  | TrainerToggle =>
      (times,
       render s (setTrainerSettings
                   (fun t => mkTrainer (negb (enabled t)) (barCount t)
                                       (increment t) (currentBarTracker t)) s))
  | IncrementMinus =>
      (times,
       setTrainerSettings
         (fun t => mkTrainer (enabled t) (barCount t)
                             (Z.max 1 (increment t - 1)) (currentBarTracker t)) s)
  | IncrementPlus =>
      (times,
       setTrainerSettings
         (fun t => mkTrainer (enabled t) (barCount t)
                             (Z.min 20 (increment t + 1)) (currentBarTracker t)) s)
  | BarCountMinus =>
      (times,
       setTrainerSettings
         (fun t => mkTrainer (enabled t) (Z.max 1 (barCount t - 1))
                             (increment t) (currentBarTracker t)) s)
  | BarCountPlus =>
      (times,
       setTrainerSettings
         (fun t => mkTrainer (enabled t) (Z.min 64 (barCount t + 1))
                             (increment t) (currentBarTracker t)) s)
  | TogglePlay => (times, togglePlay s)
  | EngineStep step => (times, onStep step s)
  end.

Definition tempoRun (evs : list TempoEvent) (ts : list Z * State)
    : list Z * State :=
  fold_left tempoStep evs ts.

(** The range input keeps its promise. *)
Definition tempoEventOk (ev : TempoEvent) : Prop :=
  match ev with
  | BpmSlider value => 30 <= value <= 250
  | _ => True
  end.

(** The ranges the tempo controls keep. *)
Definition TempoInv (ts : list Z * State) : Prop :=
  20 <= bpm (snd ts) <= 300
  /\ 1 <= increment (trainerSettings (snd ts)) <= 20
  /\ 1 <= barCount (trainerSettings (snd ts)) <= 64
  /\ 0 <= currentBarTracker (trainerSettings (snd ts))
  /\ (length (fst ts) <= 5)%nat.

(** *** The pattern controls *)

Definition setMode (m : Mode) (s : State) : State :=
  mkState s.(bpm) s.(isPlaying) m s.(numerator) s.(subdivision)
          s.(polyA) s.(polyB) s.(trainerSettings) s.(currentStepIndex)
          s.(grid) s.(prevStepRef).

Definition setNumerator (v : Z) (s : State) : State :=
  mkState s.(bpm) s.(isPlaying) s.(mode) v s.(subdivision)
          s.(polyA) s.(polyB) s.(trainerSettings) s.(currentStepIndex)
          s.(grid) s.(prevStepRef).

Definition setSubdivision (v : Z) (s : State) : State :=
  mkState s.(bpm) s.(isPlaying) s.(mode) s.(numerator) v
          s.(polyA) s.(polyB) s.(trainerSettings) s.(currentStepIndex)
          s.(grid) s.(prevStepRef).

Definition setPolyA (v : Z) (s : State) : State :=
  mkState s.(bpm) s.(isPlaying) s.(mode) s.(numerator) s.(subdivision)
          v s.(polyB) s.(trainerSettings) s.(currentStepIndex)
          s.(grid) s.(prevStepRef).

Definition setPolyB (v : Z) (s : State) : State :=
  mkState s.(bpm) s.(isPlaying) s.(mode) s.(numerator) s.(subdivision)
          s.(polyA) v s.(trainerSettings) s.(currentStepIndex)
          s.(grid) s.(prevStepRef).

(** The arrows of a [VerticalPicker] (lines 114-115). *)
Definition inc (max value : Z) : Z := Z.min max (value + 1).
Definition dec (min value : Z) : Z := Z.max min (value - 1).

(** The subdivision picker (lines 348-353): it shows the index of the
    subdivision in [subValues], -1 if it is not there, and sets the value
    at the clamped index. *)
Definition subValues : list Z := [1; 2; 4].

Definition subIndex (subdivision : Z) : Z :=
  if subdivision =? 1 then 0
  else if subdivision =? 2 then 1
  else if subdivision =? 4 then 2
  else -1.

Definition handleSubChange (idx : Z) (s : State) : State :=
  let clamped := Z.max 0 (Z.min 2 idx) in
  match Js.getZ subValues clamped with
  | Some v => setSubdivision v s
  | None => s
  end.

(** What the user can do to the pattern: the two mode buttons (lines 400
    and 403), the arrows of the four pickers (lines 410-416), a click on a
    cell of the grid (line 331) and the reset button (line 468). *)
Inductive PatternEvent : Set :=
  | ModeStandard | ModePolyrhythm
  | NumeratorUp | NumeratorDown
  | SubdivisionUp | SubdivisionDown
  | PolyAUp | PolyADown | PolyBUp | PolyBDown
  | CellClick (index : Z)
  | Reset.

Definition patternStep (s : State) (ev : PatternEvent) : option State :=
  match ev with
  | ModeStandard =>
      Some (render s (setCurrentStepIndex (-1)
                        (setIsPlaying false (setMode STANDARD s))))
  | ModePolyrhythm =>
      Some (render s (setCurrentStepIndex (-1)
                        (setIsPlaying false (setMode POLYRHYTHM s))))
  | NumeratorUp => Some (render s (setNumerator (inc 16 (numerator s)) s))
  | NumeratorDown => Some (render s (setNumerator (dec 1 (numerator s)) s))
  | SubdivisionUp =>
      Some (render s (handleSubChange (inc 2 (subIndex (subdivision s))) s))
  | SubdivisionDown =>
      Some (render s (handleSubChange (dec 0 (subIndex (subdivision s))) s))
  | PolyAUp => Some (render s (setPolyA (inc 12 (polyA s)) s))
  | PolyADown => Some (render s (setPolyA (dec 2 (polyA s)) s))
  | PolyBUp => Some (render s (setPolyB (inc 12 (polyB s)) s))
  | PolyBDown => Some (render s (setPolyB (dec 2 (polyB s)) s))
  | CellClick index => cycleIntensity index s
  | Reset => Some (resetPattern s)
  end.

Fixpoint patternRun (evs : list PatternEvent) (s : State) : option State :=
  match evs with
  | [] => Some s
  | ev :: rest =>
      match patternStep s ev with
      | Some s' => patternRun rest s'
      | None => None
      end
  end.

(** The component after its first render: the grid effect has run. *)
Definition mounted : State := gridEffect initialState.

(** The grid the parameters call for, accents apart: its length. *)
Definition gridLength (s : State) : Z :=
  match mode s with
  | STANDARD => numerator s * subdivision s
  | POLYRHYTHM => Z.lcm (polyA s) (polyB s)
  end.

(** The accent of step [i] in the standard pattern of subdivision [d]:
    the downbeat strong, the other beats weak, the rest mute. *)
Definition standardClass (d i : Z) : BeatIntensity :=
  if i =? 0 then STRONG else if i mod d =? 0 then WEAK else MUTE.

(** The intensity after the one a click on a cell finds there. *)
Definition cycled (b : BeatIntensity) : BeatIntensity :=
  intensityOfNumber (Z.rem (intensityNumber b + 1) 3).

(** What the pattern controls keep. *)
Definition PatternInv (s : State) : Prop :=
  1 <= numerator s <= 16
  /\ In (subdivision s) subValues
  /\ 2 <= polyA s <= 12
  /\ 2 <= polyB s <= 12
  /\ Z.of_nat (length (grid s)) = gridLength s
  /\ match mode s with
     | STANDARD => Forall (fun b => In b [MUTE; WEAK; STRONG]) (grid s)
     | POLYRHYTHM =>
         grid s = classify (Z.lcm (polyA s) (polyB s) / polyA s)
                           (Z.lcm (polyA s) (polyB s) / polyB s)
                  <$> seqZ 0 (Z.lcm (polyA s) (polyB s))
     end.

End MetronomeControls.

(** ** audioEngine.ts: ear training logic *)

Module ChordQuality.
Inductive t : Set :=
  | MAJOR | MINOR | DIMINISHED | AUGMENTED
  | MAJOR_7 | MINOR_7 | DOMINANT_7 | HALF_DIM | DIMINISHED_7.
End ChordQuality.

Module IntervalQuality.
Inductive t : Set :=
  | m2 | M2 | m3 | M3 | P4 | TT | P5 | m6 | M6 | m7 | M7 | P8.
End IntervalQuality.

#[global] Instance ChordQuality_eq_dec : EqDecision ChordQuality.t.
Proof. solve_decision. Defined.

#[global] Instance IntervalQuality_eq_dec : EqDecision IntervalQuality.t.
Proof. solve_decision. Defined.

Module Questions.
Import Stdlib.Strings.String.

Local Open Scope string_scope.
Local Open Scope Z_scope.

#[global] Instance string_eq_dec : EqDecision string := string_dec.

(** [arr.includes(x)], on strings and on members of an enum. *)
Definition includes {X : Type} `{EqDecision X} (arr : list X) (x : X) : bool :=
  bool_decide (x ∈ arr).

(** The string values of the enums of [types.ts]. *)
Definition noteString (n : NoteName.t) : string :=
  match n with
  | NoteName.C => "C" | NoteName.CSharp => "C#" | NoteName.D => "D"
  | NoteName.DSharp => "D#" | NoteName.E => "E" | NoteName.F => "F"
  | NoteName.FSharp => "F#" | NoteName.G => "G" | NoteName.GSharp => "G#"
  | NoteName.A => "A" | NoteName.ASharp => "A#" | NoteName.B => "B"
  end.

Definition chordString (q : ChordQuality.t) : string :=
  match q with
  | ChordQuality.MAJOR => "Major"
  | ChordQuality.MINOR => "Minor"
  | ChordQuality.DIMINISHED => "Diminished"
  | ChordQuality.AUGMENTED => "Augmented"
  | ChordQuality.MAJOR_7 => "Major 7"
  | ChordQuality.MINOR_7 => "Minor 7"
  | ChordQuality.DOMINANT_7 => "Dominant 7"
  | ChordQuality.HALF_DIM => "m7b5"
  | ChordQuality.DIMINISHED_7 => "Diminished 7"
  end.

Definition intervalString (q : IntervalQuality.t) : string :=
  match q with
  | IntervalQuality.m2 => "Minor 2nd"
  | IntervalQuality.M2 => "Major 2nd"
  | IntervalQuality.m3 => "Minor 3rd"
  | IntervalQuality.M3 => "Major 3rd"
  | IntervalQuality.P4 => "Perfect 4th"
  | IntervalQuality.TT => "Tritone"
  | IntervalQuality.P5 => "Perfect 5th"
  | IntervalQuality.m6 => "Minor 6th"
  | IntervalQuality.M6 => "Major 6th"
  | IntervalQuality.m7 => "Minor 7th"
  | IntervalQuality.M7 => "Major 7th"
  | IntervalQuality.P8 => "Octave"
  end.

(** An integer in a template literal: its decimal digits, a minus sign
    before them if it is negative. *)
Definition showZ (z : Z) : string :=
  DecimalString.NilZero.string_of_int (Z.to_int z).

(** [mode: 'note' | 'chord' | 'interval' | 'vocal']. *)
Inductive Mode : Set := ModeNote | ModeChord | ModeInterval | ModeVocal.

(** [interface EarTrainingSettings] and [interface Question]. *)
Record EarTrainingSettings : Set := mkSettings {
  mode : Mode;
  selectedNotes : list NoteName.t;
  octaveRange : Z * Z;
  polyphony : Z;
  chordQualities : list ChordQuality.t;
  intervalQualities : list IntervalQuality.t
}.

Record Question : Set := mkQuestion {
  notes : list Z;
  answerLabel : string;
  answerNames : list string
}.

(** [NOTE_STRINGS[((m % 12) + 12) % 12]] (lines 343, 390, 396, 419): the
    index is within 0..11 for every integer [m], so the default of the
    lookup is never returned. *)
Definition noteIndex (m : Z) : Z := Z.rem (Z.rem m 12 + 12) 12.

Definition noteNameOf (m : Z) : NoteName.t :=
  match Js.getZ NOTE_STRINGS (noteIndex m) with
  | Some n => n
  | None => NoteName.C
  end.

(** Lines 338-349: the pitches of the octave range whose note is selected,
    in ascending order; middle C if there is none. *)
Definition candidatesOf (settings : EarTrainingSettings) : list Z :=
  let minMidi := (fst (octaveRange settings) + 1) * 12 in
  let maxMidi := (snd (octaveRange settings) + 1) * 12 + 11 in
  let candidates :=
    fold_left
      (fun candidates m =>
         if includes (selectedNotes settings) (noteNameOf m)
         then (candidates ++ [m])%list else candidates)
      (seqZ minMidi (maxMidi - minMidi + 1)) [] in
  if (Z.of_nat (List.length candidates) =? 0) then [60] else candidates.

(** The [switch] of lines 357-370. *)
Definition semitonesOf (quality : IntervalQuality.t) : Z :=
  match quality with
  | IntervalQuality.m2 => 1 | IntervalQuality.M2 => 2
  | IntervalQuality.m3 => 3 | IntervalQuality.M3 => 4
  | IntervalQuality.P4 => 5 | IntervalQuality.TT => 6
  | IntervalQuality.P5 => 7 | IntervalQuality.m6 => 8
  | IntervalQuality.M6 => 9 | IntervalQuality.m7 => 10
  | IntervalQuality.M7 => 11 | IntervalQuality.P8 => 12
  end.

(** The [switch] of lines 405-415. *)
Definition intervalsOf (quality : ChordQuality.t) : list Z :=
  match quality with
  | ChordQuality.MAJOR => [0; 4; 7]
  | ChordQuality.MINOR => [0; 3; 7]
  | ChordQuality.DIMINISHED => [0; 3; 6]
  | ChordQuality.AUGMENTED => [0; 4; 8]
  | ChordQuality.MAJOR_7 => [0; 4; 7; 11]
  | ChordQuality.MINOR_7 => [0; 3; 7; 10]
  | ChordQuality.DOMINANT_7 => [0; 4; 7; 10]
  | ChordQuality.HALF_DIM => [0; 3; 6; 10]
  | ChordQuality.DIMINISHED_7 => [0; 3; 6; 9]
  end.

(** [notes.sort((a, b) => a - b)]: the numbers in ascending order. *)
Fixpoint insertAsc (x : Z) (l : list Z) : list Z :=
  match l with
  | [] => [x]
  | y :: rest => if x <=? y then x :: l else y :: insertAsc x rest
  end.

Definition sortAsc (l : list Z) : list Z := fold_right insertAsc [] l.

(** The label of a pitch, line 396: note name and octave. *)
Definition pitchLabel (n : Z) : string :=
  noteString (noteNameOf n) ++ showZ (n / 12 - 1).

Section Random.

(** [Math.random] is the one input of [generateQuestion]. Every use of it
    has the form [Math.floor(Math.random() * n)] for the length [n] of an
    array: [random k n] is the value of that expression at the [k]-th
    call. *)
Variable random : nat -> Z -> Z.

(** [arr[Math.floor(Math.random() * arr.length)]], at the [k]-th call. *)
Definition choose {X : Type} (k : nat) (arr : list X) : option X :=
  Js.getZ arr (random k (Z.of_nat (List.length arr))).

(** The loop of the note mode (lines 384-392), [fuel] turns left: the
    variables [notes], [answerNames] and [pool], and the count [k] of the
    calls of [Math.random] so far. *)
Fixpoint drawNotes (fuel : nat) (k : nat) (notes : list Z)
    (answerNames : list string) (pool : list Z)
    : option (list Z * list string) :=
  match fuel with
  | O => Some (notes, answerNames)
  | S fuel' =>
      if (Z.of_nat (List.length pool) =? 0) then Some (notes, answerNames)
      else
        let idx := random k (Z.of_nat (List.length pool)) in
        match Js.getZ pool idx with
        | None => None
        | Some note =>
            let name := noteString (noteNameOf note) in
            let answerNames :=
              if includes answerNames name then answerNames
              else (answerNames ++ [name])%list in
            drawNotes fuel' (S k) (notes ++ [note])%list answerNames
                      (delete (Z.to_nat idx) pool)
        end
  end.

(** [generateQuestion] (lines 337-423). [None]: a drawn index was outside
    its array, which [Math.floor(Math.random() * n)] never is. *)
Definition generateQuestion (settings : EarTrainingSettings)
    : option Question :=
  let candidates := candidatesOf settings in
  match mode settings with
  | ModeInterval =>
      rootMidi ← choose 0 candidates;
      let intervalList :=
        if (0 <? Z.of_nat (List.length (intervalQualities settings)))
        then intervalQualities settings else [IntervalQuality.P5] in
      quality ← choose 1 intervalList;
      let semitones := semitonesOf quality in
      let secondMidi := rootMidi + semitones in
      Some (mkQuestion [rootMidi; secondMidi] (intervalString quality)
                       [intervalString quality])
  | ModeNote =>
      let numNotes :=
        if polyphony settings =? 0 then 1 else polyphony settings in
      '(notes, answerNames) ←
        drawNotes (Z.to_nat numNotes) 0 [] [] candidates;
      let notes := sortAsc notes in
      Some (mkQuestion notes (concat ", " (map pitchLabel notes)) answerNames)
  | _ =>
      rootMidi ← choose 0 candidates;
      let chordList :=
        if (0 <? Z.of_nat (List.length (chordQualities settings)))
        then chordQualities settings else [ChordQuality.MAJOR] in
      quality ← choose 1 chordList;
      let intervals := intervalsOf quality in
      let notes := map (fun i => rootMidi + i) intervals in
      Some (mkQuestion notes
              (noteString (noteNameOf rootMidi) ++ " " ++ chordString quality)
              [chordString quality])
  end.

End Random.

(** What the platform promises of [Math.floor(Math.random() * n)]. *)
Definition RandomOk (random : nat -> Z -> Z) : Prop :=
  forall k n, 0 < n -> 0 <= random k n < n.

(** A source of indices for the examples: the [k]-th draw from [n]. *)
Definition sampleRandom (k : nat) (n : Z) : Z := (7 * Z.of_nat k + 3) mod n.

(** A list of integers in strictly ascending order. *)
Definition Ascending (l : list Z) : Prop := StronglySorted Z.lt l.

End Questions.

(** ** EarTraining.tsx: selections, questions and answers *)

Module EarTraining.
Import Stdlib.Strings.String.

Local Open Scope string_scope.
Local Open Scope Z_scope.

(** [mode], [gameMode], [feedback] and [score] of the component. *)
Inductive Page : Set := Settings | Game.

Inductive GameMode : Set :=
  GameNote | GameChord | GameInterval | GameVocal | GameFrequency.

Inductive Feedback : Set := Correct | Incorrect.

Record Score : Set := mkScore { correct : Z; total : Z }.

(** The state of the component that its question and answer handlers read
    and write. [autoAdvanceTimer] is the delay of the pending timeout that
    will ask the next question, if there is one. The playback speed and
    the state of the microphone (listening, level, pitch offset and hold
    progress) are left out: none of the handlers below reads them. *)
Record State : Set := mkState {
  mode : Page;
  gameMode : GameMode;
  selectedNotes : list NoteName.t;
  octaveRange : Z * Z;
  polyphony : Z;
  chordQualities : list ChordQuality.t;
  intervalQualities : list IntervalQuality.t;
  currentQuestion : option Questions.Question;
  userSelection : list string;
  feedback : option Feedback;
  score : Score;
  autoAdvanceTimer : option Z
}.

(** The [useState] initial values, lines 10-21. *)
Definition initialState : State :=
  mkState Settings GameNote NOTE_STRINGS (3, 5) 1
          [ChordQuality.MAJOR; ChordQuality.MINOR]
          [IntervalQuality.M3; IntervalQuality.P5; IntervalQuality.P8]
          None [] None (mkScore 0 0) None.

Definition setMode (v : Page) (s : State) : State :=
  mkState v (gameMode s) (selectedNotes s) (octaveRange s) (polyphony s)
          (chordQualities s) (intervalQualities s) (currentQuestion s)
          (userSelection s) (feedback s) (score s) (autoAdvanceTimer s).

Definition setSelectedNotes (v : list NoteName.t) (s : State) : State :=
  mkState (mode s) (gameMode s) v (octaveRange s) (polyphony s)
          (chordQualities s) (intervalQualities s) (currentQuestion s)
          (userSelection s) (feedback s) (score s) (autoAdvanceTimer s).

Definition setChordQualities
    (f : list ChordQuality.t -> list ChordQuality.t) (s : State) : State :=
  mkState (mode s) (gameMode s) (selectedNotes s) (octaveRange s) (polyphony s)
          (f (chordQualities s)) (intervalQualities s) (currentQuestion s)
          (userSelection s) (feedback s) (score s) (autoAdvanceTimer s).

Definition setIntervalQualities
    (f : list IntervalQuality.t -> list IntervalQuality.t) (s : State) : State :=
  mkState (mode s) (gameMode s) (selectedNotes s) (octaveRange s) (polyphony s)
          (chordQualities s) (f (intervalQualities s)) (currentQuestion s)
          (userSelection s) (feedback s) (score s) (autoAdvanceTimer s).

Definition setCurrentQuestion (v : option Questions.Question) (s : State)
    : State :=
  mkState (mode s) (gameMode s) (selectedNotes s) (octaveRange s) (polyphony s)
          (chordQualities s) (intervalQualities s) v
          (userSelection s) (feedback s) (score s) (autoAdvanceTimer s).

Definition setUserSelection (f : list string -> list string) (s : State)
    : State :=
  mkState (mode s) (gameMode s) (selectedNotes s) (octaveRange s) (polyphony s)
          (chordQualities s) (intervalQualities s) (currentQuestion s)
          (f (userSelection s)) (feedback s) (score s) (autoAdvanceTimer s).

Definition setFeedback (v : option Feedback) (s : State) : State :=
  mkState (mode s) (gameMode s) (selectedNotes s) (octaveRange s) (polyphony s)
          (chordQualities s) (intervalQualities s) (currentQuestion s)
          (userSelection s) v (score s) (autoAdvanceTimer s).

Definition setScore (f : Score -> Score) (s : State) : State :=
  mkState (mode s) (gameMode s) (selectedNotes s) (octaveRange s) (polyphony s)
          (chordQualities s) (intervalQualities s) (currentQuestion s)
          (userSelection s) (feedback s) (f (score s)) (autoAdvanceTimer s).

Definition setAutoAdvanceTimer (v : option Z) (s : State) : State :=
  mkState (mode s) (gameMode s) (selectedNotes s) (octaveRange s) (polyphony s)
          (chordQualities s) (intervalQualities s) (currentQuestion s)
          (userSelection s) (feedback s) (score s) v.

(** [arr.indexOf(x)]: the first position of [x], -1 if there is none. *)
Fixpoint indexOfFrom {X : Type} `{EqDecision X} (arr : list X) (x : X) (i : Z)
    : Z :=
  match arr with
  | [] => -1
  | y :: rest => if decide (y = x) then i else indexOfFrom rest x (i + 1)
  end.

Definition indexOf {X : Type} `{EqDecision X} (arr : list X) (x : X) : Z :=
  indexOfFrom arr x 0.

(** [arr.sort(compare)], a stable sort: an element goes before the first
    one that does not compare below it. *)
Fixpoint insertBy {X : Type} (compare : X -> X -> Z) (x : X) (l : list X)
    : list X :=
  match l with
  | [] => [x]
  | y :: rest =>
      if compare x y <=? 0 then x :: l else y :: insertBy compare x rest
  end.

Definition sortBy {X : Type} (compare : X -> X -> Z) (l : list X) : list X :=
  fold_right (insertBy compare) [] l.

(** [arr.filter(c => c !== x)]. *)
Definition without {X : Type} `{EqDecision X} (x : X) (arr : list X) : list X :=
  List.filter (fun c => negb (bool_decide (c = x))) arr.

(** [toggleNote] (lines 47-51). *)
Definition toggleNote (note : NoteName.t) (s : State) : State :=
  if Questions.includes (selectedNotes s) note then
    if 1 <? Z.of_nat (List.length (selectedNotes s))
    then setSelectedNotes (without note (selectedNotes s)) s
    else s
  else
    setSelectedNotes
      (sortBy (fun a b => indexOf NOTE_STRINGS a - indexOf NOTE_STRINGS b)
              (selectedNotes s ++ [note])%list) s.

(** The update of [toggleChord] and [toggleInterval] (lines 53-54). *)
Definition toggled {X : Type} `{EqDecision X} (q : X) (prev : list X) : list X :=
  if Questions.includes prev q then
    if 1 <? Z.of_nat (List.length prev) then without q prev else prev
  else (prev ++ [q])%list.

Definition toggleChord (q : ChordQuality.t) (s : State) : State :=
  setChordQualities (toggled q) s.

Definition toggleInterval (q : IntervalQuality.t) (s : State) : State :=
  setIntervalQualities (toggled q) s.

(** The settings [nextQuestion] hands to [generateQuestion] (line 61).
    [generateQuestion] tells the modes 'interval' and 'note' from every
    other one only, so that for 'frequency', which its type leaves out,
    'chord' stands. *)
Definition questionSettings (s : State) : Questions.EarTrainingSettings :=
  Questions.mkSettings
    match gameMode s with
    | GameVocal | GameNote => Questions.ModeNote
    | GameInterval => Questions.ModeInterval
    | GameChord | GameFrequency => Questions.ModeChord
    end
    (selectedNotes s) (octaveRange s)
    match gameMode s with
    | GameNote => polyphony s
    | GameVocal => 1
    | _ => 3
    end
    (chordQualities s) (intervalQualities s).

(** [nextQuestion] (lines 58-63), [random] being [Math.random] during this
    call. [None]: the question could not be generated. *)
Definition nextQuestion (random : nat -> Z -> Z) (s : State) : option State :=
  let s := setFeedback None s in
  let s := setUserSelection (fun _ => []) s in
  let s := setAutoAdvanceTimer None s in
  q ← Questions.generateQuestion random (questionSettings s);
  Some (setCurrentQuestion (Some q) s).

(** [startGame] (line 56). *)
Definition startGame (random : nat -> Z -> Z) (s : State) : option State :=
  let s := setScore (fun _ => mkScore 0 0) s in
  let s := setMode Game s in
  match gameMode s with
  | GameFrequency => Some s
  | _ => nextQuestion random s
  end.

(** The two outcomes of an answer: [delay] is the time after which the
    next question follows a correct one. *)
Definition judge (isCorrect : bool) (delay : Z) (s : State) : State :=
  if isCorrect then
    let s := setFeedback (Some Correct) s in
    let s :=
      setScore (fun sc => mkScore (correct sc + 1) (total sc + 1)) s in
    setAutoAdvanceTimer (Some delay) s
  else
    let s := setFeedback (Some Incorrect) s in
    setScore (fun sc => mkScore (correct sc) (total sc + 1)) s.

(** [handleAnswerClick] (lines 116-131). *)
Definition handleAnswerClick (answer : string) (s : State) : State :=
  match feedback s, currentQuestion s with
  | Some _, _ | _, None => s
  | None, Some question =>
      match gameMode s with
      | GameNote =>
          if polyphony s =? 1 then
            let isCorrect :=
              Questions.includes (Questions.answerNames question) answer in
            let s := setUserSelection (fun _ => [answer]) s in
            judge isCorrect 1000 s
          else
            setUserSelection
              (fun prev =>
                 if Questions.includes prev answer then without answer prev
                 else if Z.of_nat (List.length prev) <? polyphony s
                      then (prev ++ [answer])%list else prev) s
      | _ =>
          let isCorrect :=
            Questions.includes (Questions.answerNames question) answer in
          let s := setUserSelection (fun _ => [answer]) s in
          judge isCorrect 1500 s
      end
  end.

(** [checkMultiNoteAnswer] (lines 133-139). *)
Definition checkMultiNoteAnswer (s : State) : State :=
  match currentQuestion s, feedback s with
  | None, _ | _, Some _ => s
  | Some question, None =>
      let correct := Questions.answerNames question in
      let isCorrect :=
        (Z.of_nat (List.length (userSelection s))
         =? Z.of_nat (List.length correct))
        && forallb (fun val => Questions.includes correct val)
                   (userSelection s) in
      judge isCorrect 1500 s
  end.

(** What the buttons of the game page do: an answer button, the check
    button, and the next question, asked for by its button or by the timer
    a correct answer arms. Each handler is the one of the latest render, so
    it reads the current state. (The vocal mode scores through
    [handleVocalSuccess], which the listening loop calls with the state of
    the render that started it; it is not part of this model.) *)
Inductive Event : Type :=
  | AnswerClick (answer : string)
  | CheckAnswer
  | NextQuestion (random : nat -> Z -> Z).

Definition gameStep (s : State) (e : Event) : option State :=
  match e with
  | AnswerClick answer => Some (handleAnswerClick answer s)
  | CheckAnswer => Some (checkMultiNoteAnswer s)
  | NextQuestion random => nextQuestion random s
  end.

Fixpoint gameRun (s : State) (events : list Event) : option State :=
  match events with
  | [] => Some s
  | e :: rest =>
      match gameStep s e with
      | Some s' => gameRun s' rest
      | None => None
      end
  end.



(** What happens on the settings page to the three selections. *)
Inductive Toggle : Set :=
  | ToggleNote (note : NoteName.t)
  | ToggleChord (q : ChordQuality.t)
  | ToggleInterval (q : IntervalQuality.t).

Definition toggle (s : State) (t : Toggle) : State :=
  match t with
  | ToggleNote note => toggleNote note s
  | ToggleChord q => toggleChord q s
  | ToggleInterval q => toggleInterval q s
  end.

(** The selections of a state: none is empty, none lists a member twice,
    and the notes are in the order of [NOTE_STRINGS]. *)
Definition SelectionInv (s : State) : Prop :=
  selectedNotes s <> [] /\ NoDup (selectedNotes s)
  /\ StronglySorted
       (fun a b => indexOf NOTE_STRINGS a < indexOf NOTE_STRINGS b)
       (selectedNotes s)
  /\ chordQualities s <> [] /\ NoDup (chordQualities s)
  /\ intervalQualities s <> [] /\ NoDup (intervalQualities s).

End EarTraining.
(** * Theorems *)

(** ** The platform operations on known values *)

Example platform_values :
  (map Js.Math_round [2.5; -2.5; 0.49999999999999994; -0.2; 68.6]
   = [3; -2; 0; -0; 69]
   /\ map Js.Math_floor [2.7; -2.7; -0.3; 5; -0] = [2; -3; -1; 5; -0]
   /\ map (fun x => Js.rem x 12) [69; -69; 5.5; 12; PrimFloat.neg_infinity]
      = [9; -9; 5.5; 0; PrimFloat.nan]
   /\ map Js.fround [0.1; 0.5; 16777217; 1e-50; 1e50]
      = [0.10000000149011612; 0.5; 16777216; 0; PrimFloat.infinity]
   /\ map Js.toIndex [3; -0; 2.5; -1; PrimFloat.nan]
      = [Some 3%Z; Some 0%Z; None; None; None]
   /\ map Js.ofZ [69; -3; 0]%Z = [69; -3; 0])%float.
Proof. repeat split; vm_compute; reflexivity. Qed.

Example reference_math_values :
  (Js.ref_log 2 = 0.6931471805599453
   /\ Js.ref_log 0 = PrimFloat.neg_infinity
   /\ Js.ref_log 1 = 0
   /\ Js.ref_pow 2 10 = 1024
   /\ midiToFrequency Js.refMath 69 = 440
   /\ midiToFrequency Js.refMath 60 = 261.6255653005986)%float.
Proof. repeat split; vm_compute; reflexivity. Qed.

(** ** The polyrhythm grid *)

Section GridFacts.
Import Metronome.

Lemma gcd_unfold (a b : Z) :
  gcd a b = if b =? 0 then a else gcd b (Z.rem a b).
Proof.
  rewrite gcd_equation_1. unfold gcd_unfold_clause_1.
  destruct (Z.eq_dec b 0) as [->|Hb]; [reflexivity|].
  apply Z.eqb_neq in Hb. now rewrite Hb.
Qed.

Lemma gcd_spec (a b : Z) : 0 <= a -> 0 <= b -> gcd a b = Z.gcd a b.
Proof.
  intros Ha Hb. revert a Ha. generalize Hb.
  pattern b. apply Z_lt_induction; [clear b Hb|exact Hb].
  intros b IH Hb a Ha.
  rewrite gcd_unfold.
  destruct (Z.eqb_spec b 0) as [->|Hb0].
  - rewrite Z.gcd_0_r. lia.
  - rewrite Z.rem_mod_nonneg by lia.
    pose proof (Z.mod_pos_bound a b ltac:(lia)) as Hm.
    rewrite IH by lia.
    rewrite Z.gcd_mod_r. apply Z.gcd_comm.
Qed.

Lemma gcd_divides_product (a b : Z) :
  0 <= a -> 0 <= b -> (gcd a b | Z.abs (a * b)).
Proof.
  intros Ha Hb. rewrite gcd_spec by assumption.
  rewrite Z.abs_eq by lia.
  apply Z.divide_mul_l, Z.gcd_divide_l.
Qed.

Lemma lcm_spec (a b : Z) : 0 < a -> 0 < b -> lcm a b = Z.lcm a b.
Proof.
  intros Ha Hb. unfold lcm.
  destruct (Z.eqb_spec a 0); [lia|]. destruct (Z.eqb_spec b 0); [lia|].
  cbn [orb]. rewrite gcd_spec by lia.
  unfold Z.lcm.
  assert (Hg : 0 < Z.gcd a b).
  { pose proof (Z.gcd_nonneg a b). 
    assert (Z.gcd a b <> 0) by (intros H0; apply Z.gcd_eq_0_l in H0; lia). lia. }
  rewrite (Z.abs_eq (a * b)) by lia.
  rewrite Z.divide_div_mul_exact by (try lia; apply Z.gcd_divide_r).
  rewrite Z.abs_eq; [reflexivity|].
  apply Z.mul_nonneg_nonneg; [lia|]. apply Z.div_pos; lia.
Qed.

Lemma lcm_pos (a b : Z) : 0 < a -> 0 < b -> 0 < Z.lcm a b.
Proof.
  intros Ha Hb. pose proof (Z.lcm_nonneg a b).
  assert (Z.lcm a b <> 0) by (rewrite Z.lcm_eq_0; lia). lia.
Qed.

(** [L / a] is a positive divisor of [L]: [L = (L / a) * a]. *)
Lemma lcm_div_l (a b : Z) :
  0 < a -> 0 < b -> 0 < Z.lcm a b / a /\ Z.lcm a b = Z.lcm a b / a * a.
Proof.
  intros Ha Hb. pose proof (lcm_pos a b Ha Hb) as HL.
  destruct (Z.divide_lcm_l a b) as [k Hk].
  rewrite Hk in HL |- *. rewrite Z.div_mul by lia.
  split; [nia|reflexivity].
Qed.


(** The loop writes the class of each index in turn. *)
Lemma forLoop_fill (c : Z -> BeatIntensity)
    (body : Z -> list BeatIntensity -> list BeatIntensity) (n : nat) :
  (forall i g, 0 <= i -> g !! Z.to_nat i = Some MUTE ->
               body i g = <[Z.to_nat i := c i]> g) ->
  forall k : nat, (k <= n)%nat ->
    fold_left (fun acc i => body i acc) (seqZ 0 (Z.of_nat k)) (replicate n MUTE)
    = (c <$> seqZ 0 (Z.of_nat k)) ++ replicate (n - k) MUTE.
Proof.
  intros Hbody. induction k as [|k IH]; intros Hk.
  - cbn. now rewrite Nat.sub_0_r.
  - rewrite seqZ_S, fold_left_app, IH by lia. cbn [fold_left].
    rewrite fmap_app. cbn [fmap list_fmap]. rewrite Z.add_0_l.
    assert (Hlen : length (c <$> seqZ 0 (Z.of_nat k)) = k).
    { rewrite length_fmap, length_seqZ. lia. }
    replace (n - k)%nat with (S (n - S k)) by lia. rewrite replicate_S.
    rewrite Hbody.
    + rewrite Nat2Z.id. rewrite insert_app_r_alt by lia.
      rewrite Hlen, Nat.sub_diag. cbn. now rewrite <- app_assoc.
    + lia.
    + rewrite Nat2Z.id. rewrite lookup_app_r by lia.
      now rewrite Hlen, Nat.sub_diag.
Qed.

Lemma polyStep_insert (dA dB i : Z) (g : list BeatIntensity) :
  0 < dA -> 0 < dB -> 0 <= i -> g !! Z.to_nat i = Some MUTE ->
  polyStep dA dB i g = <[Z.to_nat i := classify dA dB i]> g.
Proof.
  intros HA HB Hi Hg. unfold polyStep, classify. cbv zeta.
  rewrite !Z.rem_mod_nonneg by lia.
  destruct (i mod dA =? 0), (i mod dB =? 0); cbn; try reflexivity.
  symmetry. now apply list_insert_id.
Qed.


(** What the polyrhythm branch builds, for positive pickers. *)
Lemma polyGridOf_eq (a b : Z) (s : State) :
  0 < a -> 0 < b ->
  polyGridOf a b s
  = classify (Z.lcm a b / a) (Z.lcm a b / b) <$> seqZ 0 (Z.lcm a b).
Proof.
  intros Ha Hb. unfold polyGridOf, gridEffect. cbn [mode polyA polyB].
  rewrite !Z.max_r by lia. rewrite lcm_spec by assumption.
  pose proof (lcm_pos a b Ha Hb) as HL.
  destruct (Z.eqb_spec (Z.lcm a b) 0) as [H0|_]; [lia|].
  cbn [grid setGrid]. unfold forLoop.
  destruct (lcm_div_l a b Ha Hb) as [HdA _].
  destruct (lcm_div_l b a Hb Ha) as [HdB _]. rewrite (Z.lcm_comm b a) in HdB.
  rewrite <- (Z2Nat.id (Z.lcm a b)) at 1 by lia.
  rewrite (forLoop_fill (classify (Z.lcm a b / a) (Z.lcm a b / b))) by
    (try lia; intros; now apply polyStep_insert).
  rewrite Nat.sub_diag, Z2Nat.id by lia. cbn. now rewrite app_nil_r.
Qed.

Lemma filter_fmap_length {X Y : Type} (p : Y -> bool) (f : X -> Y) (l : list X) :
  length (List.filter p (f <$> l)) = length (List.filter (fun x => p (f x)) l).
Proof.
  induction l as [|x l IH]; [reflexivity|].
  cbn. destruct (p (f x)); cbn; now rewrite IH.
Qed.

Lemma filter_none {X : Type} (p : X -> bool) (l : list X) :
  Forall (fun x => p x = false) l -> List.filter p l = [].
Proof.
  induction 1 as [|x l Hx _ IH]; [reflexivity|]. cbn. now rewrite Hx.
Qed.

(** Among the first [d * k] naturals exactly [k] are multiples of [d]. *)
Lemma count_multiples (d : Z) (k : nat) :
  0 < d ->
  length (List.filter (fun i => i mod d =? 0) (seqZ 0 (d * Z.of_nat k))) = k.
Proof.
  intros Hd. induction k as [|k IH].
  - now rewrite Z.mul_0_r.
  - replace (d * Z.of_nat (S k)) with (d * Z.of_nat k + d) by lia.
    rewrite seqZ_app by lia. rewrite List.filter_app, length_app, IH.
    rewrite Z.add_0_l, seqZ_cons by lia. cbn [List.filter].
    replace ((d * Z.of_nat k) mod d) with 0
      by (symmetry; rewrite Z.mul_comm; apply Z_mod_mult).
    cbn. rewrite filter_none; [cbn; lia|].
    apply Forall_seqZ. intros j Hj. apply Z.eqb_neq.
    replace j with ((j - d * Z.of_nat k) + Z.of_nat k * d) by lia.
    rewrite Z_mod_plus_full, Z.mod_small by lia. lia.
Qed.

Lemma isPolyA_classify (dA dB i : Z) :
  isPolyA (classify dA dB i) = (i mod dA =? 0).
Proof. unfold classify. now destruct (i mod dA =? 0), (i mod dB =? 0). Qed.

Lemma isPolyB_classify (dA dB i : Z) :
  isPolyB (classify dA dB i) = (i mod dB =? 0).
Proof. unfold classify. now destruct (i mod dA =? 0), (i mod dB =? 0). Qed.

Lemma countA_polyGridOf (a b : Z) (s : State) :
  0 < a -> 0 < b -> countA (polyGridOf a b s) = a.
Proof.
  intros Ha Hb. rewrite polyGridOf_eq by assumption. unfold countA.
  rewrite filter_fmap_length.
  rewrite (List.filter_ext _ (fun i => i mod (Z.lcm a b / a) =? 0))
    by (intros; apply isPolyA_classify).
  destruct (lcm_div_l a b Ha Hb) as [Hd HL].
  replace (seqZ 0 (Z.lcm a b))
    with (seqZ 0 (Z.lcm a b / a * Z.of_nat (Z.to_nat a)))
    by (f_equal; rewrite Z2Nat.id; lia).
  rewrite count_multiples by assumption. lia.
Qed.

Lemma countB_polyGridOf (a b : Z) (s : State) :
  0 < a -> 0 < b -> countB (polyGridOf a b s) = b.
Proof.
  intros Ha Hb. rewrite polyGridOf_eq by assumption. unfold countB.
  rewrite filter_fmap_length.
  rewrite (List.filter_ext _ (fun i => i mod (Z.lcm a b / b) =? 0))
    by (intros; apply isPolyB_classify).
  destruct (lcm_div_l b a Hb Ha) as [Hd HL]. rewrite (Z.lcm_comm b a) in Hd, HL.
  replace (seqZ 0 (Z.lcm a b))
    with (seqZ 0 (Z.lcm a b / b * Z.of_nat (Z.to_nat b)))
    by (f_equal; rewrite Z2Nat.id; lia).
  rewrite count_multiples by assumption. lia.
Qed.

End GridFacts.

(** Sanity checks: the 3-against-4 grid of the application's defaults. *)
Example polyGrid_3_4 :
  Metronome.polyGridOf 3 4 Metronome.initialState
  = [POLY_BOTH; MUTE; MUTE; POLY_B; POLY_A; MUTE;
     POLY_B; MUTE; POLY_A; POLY_B; MUTE; MUTE].
Proof. reflexivity. Qed.

Example standardGrid_4_4 :
  Metronome.grid (Metronome.gridEffect Metronome.initialState)
  = [STRONG; WEAK; WEAK; WEAK].
Proof. reflexivity. Qed.

(** C1, as stated, fails: for 3 against 4 the grid has 12 steps, of which 3
    (not lcm/a = 4) are tagged POLY_A or POLY_BOTH and 4 (not lcm/b = 3)
    are tagged POLY_B or POLY_BOTH. *)
Lemma polyrhythm_counts_3_4 :
  Metronome.countA (Metronome.polyGridOf 3 4 Metronome.initialState) = 3
  /\ Metronome.lcm 3 4 / 3 = 4
  /\ Metronome.countB (Metronome.polyGridOf 3 4 Metronome.initialState) = 4
  /\ Metronome.lcm 3 4 / 4 = 3
  /\ Metronome.countA (Metronome.polyGridOf 3 4 Metronome.initialState)
     <> Metronome.lcm 3 4 / 3.
Proof. repeat split; try reflexivity. vm_compute. discriminate. Qed.

(** C1 (amended): for all positive integers a, b <= 12 the polyrhythm
    branch of the grid effect produces a grid of length L = lcm(a,b) in
    which index i is POLY_BOTH when i mod (L/a) = 0 and i mod (L/b) = 0,
    POLY_A when only the first holds, POLY_B when only the second and MUTE
    otherwise; exactly a indices are tagged POLY_A or POLY_BOTH and exactly
    b are tagged POLY_B or POLY_BOTH. *)
Theorem polyrhythm_grid (a b : Z) (s : Metronome.State) :
  1 <= a <= 12 -> 1 <= b <= 12 ->
  Metronome.lcm a b = Z.lcm a b
  /\ Z.of_nat (length (Metronome.polyGridOf a b s)) = Metronome.lcm a b
  /\ (forall i, 0 <= i < Metronome.lcm a b ->
        Metronome.polyGridOf a b s !! Z.to_nat i
        = Some (Metronome.classify (Metronome.lcm a b / a)
                                   (Metronome.lcm a b / b) i))
  /\ Metronome.countA (Metronome.polyGridOf a b s) = a
  /\ Metronome.countB (Metronome.polyGridOf a b s) = b.
Proof.
  intros Ha Hb.
  assert (HL : Metronome.lcm a b = Z.lcm a b) by (apply lcm_spec; lia).
  pose proof (lcm_pos a b ltac:(lia) ltac:(lia)) as Hpos.
  rewrite HL, polyGridOf_eq by lia.
  repeat split.
  - rewrite length_fmap, length_seqZ. lia.
  - intros i Hi. rewrite list_lookup_fmap, lookup_seqZ_lt by lia.
    cbn. do 2 f_equal. lia.
  - rewrite <- polyGridOf_eq with (s := s) by lia.
    apply countA_polyGridOf; lia.
  - rewrite <- polyGridOf_eq with (s := s) by lia.
    apply countB_polyGridOf; lia.
Qed.

Lemma polyrhythm_grid_witness :
  Metronome.countA (Metronome.polyGridOf 3 4 Metronome.initialState) = 3
  /\ Metronome.countB (Metronome.polyGridOf 3 4 Metronome.initialState) = 4.
Proof.
  pose proof (polyrhythm_grid 3 4 Metronome.initialState
                ltac:(lia) ltac:(lia)) as (_ & _ & _ & HA & HB).
  exact (conj HA HB).
Defined.


(** ** The order of binary64 values *)

Section FloatOrder.

Local Open Scope float_scope.

Lemma is_nan_spec (x : float) :
  is_nan x = match Prim2SF x with S754_nan => true | _ => false end.
Proof.
  unfold is_nan. rewrite FloatAxioms.eqb_spec. unfold SFeqb.
  destruct (Prim2SF x) as [[]| []| |[] m e]; cbn;
    rewrite ?Z.compare_refl, ?Pos.compare_cont_refl; reflexivity.
Qed.

Lemma add_nan_l (x y : float) : is_nan (x + y) = false -> is_nan x = false.
Proof.
  rewrite !is_nan_spec, add_spec.
  destruct (Prim2SF x); cbn; auto.
Qed.

Lemma ltb_leb (x y : float) : (x <? y) = true -> (x <=? y) = true.
Proof.
  rewrite FloatAxioms.ltb_spec, FloatAxioms.leb_spec. unfold SFltb, SFleb.
  destruct (SFcompare _ _) as [[]|]; congruence.
Qed.

Lemma ltb_not_nan (x y : float) :
  (x <? y) = true -> is_nan x = false /\ is_nan y = false.
Proof.
  unfold is_nan. rewrite FloatAxioms.ltb_spec, !FloatAxioms.eqb_spec. unfold SFltb, SFeqb.
  destruct (Prim2SF x) as [[]| []| |[] mx ex], (Prim2SF y) as [[]| []| |[] my ey];
    cbn; try discriminate; intros _;
    rewrite ?Z.compare_refl, ?Pos.compare_cont_refl; auto.
Qed.

Lemma leb_refl (x : float) : is_nan x = false -> (x <=? x) = true.
Proof.
  unfold is_nan. rewrite FloatAxioms.leb_spec, FloatAxioms.eqb_spec. unfold SFleb, SFeqb.
  destruct (SFcompare _ _) as [[]|]; cbn; congruence.
Qed.

Lemma SFcompare_antisym (x y : spec_float) (c : comparison) :
  SFcompare x y = Some c -> SFcompare y x = Some (CompOpp c).
Proof.
  destruct x as [[]| []| |[] mx ex], y as [[]| []| |[] my ey]; cbn;
    intros [= <-]; try reflexivity;
    rewrite (Z.compare_antisym ex ey);
    destruct (ex ?= ey)%Z; cbn; try reflexivity;
    rewrite ?CompOpp_involutive; f_equal;
    first [ apply (Pos.compare_cont_antisym my mx Eq)
          | symmetry; apply (Pos.compare_cont_antisym mx my Eq) ].
Qed.

Lemma SFcompare_not_nan (x y : float) :
  is_nan x = false -> is_nan y = false ->
  exists c, SFcompare (Prim2SF x) (Prim2SF y) = Some c.
Proof.
  unfold is_nan. rewrite !FloatAxioms.eqb_spec. unfold SFeqb.
  destruct (Prim2SF x) as [[]| []| |[] mx ex], (Prim2SF y) as [[]| []| |[] my ey];
    cbn; try discriminate; eauto.
Qed.

(** Two numbers that are not NaN and of which neither is below the other
    compare equal. *)
Lemma not_ltb_leb (x y : float) :
  is_nan x = false -> is_nan y = false -> (y <? x) = false -> (x <=? y) = true.
Proof.
  intros Hx Hy. rewrite FloatAxioms.ltb_spec, FloatAxioms.leb_spec. unfold SFltb, SFleb.
  destruct (SFcompare_not_nan x y Hx Hy) as (c & Hc).
  rewrite Hc, (SFcompare_antisym _ _ _ Hc). destruct c; cbn; congruence.
Qed.

(** [Math.max] is NaN exactly when an argument is. *)
Lemma Math_max_nan (x y : float) :
  is_nan (Js.Math_max x y) = is_nan x || is_nan y.
Proof.
  unfold Js.Math_max.
  destruct (is_nan x) eqn:Hx; [reflexivity|].
  destruct (is_nan y) eqn:Hy; [reflexivity|]. cbn [orb].
  destruct (x <? y); [exact Hy|].
  destruct (y <? x); [exact Hx|].
  destruct (get_sign x); assumption.
Qed.

Lemma Math_min_nan (x y : float) :
  is_nan (Js.Math_min x y) = is_nan x || is_nan y.
Proof.
  unfold Js.Math_min.
  destruct (is_nan x) eqn:Hx; [reflexivity|].
  destruct (is_nan y) eqn:Hy; [reflexivity|]. cbn [orb].
  destruct (x <? y); [exact Hx|].
  destruct (y <? x); [exact Hy|].
  destruct (get_sign x); assumption.
Qed.

(** [Math.max] is above both arguments, [Math.min] below both. *)
Lemma Math_max_ge (x y : float) :
  is_nan x = false -> is_nan y = false ->
  (x <=? Js.Math_max x y) = true /\ (y <=? Js.Math_max x y) = true.
Proof.
  intros Hx Hy. unfold Js.Math_max. rewrite Hx, Hy. cbn [orb].
  destruct (x <? y) eqn:Hxy.
  { split; [now apply ltb_leb|now apply leb_refl]. }
  destruct (y <? x) eqn:Hyx.
  { split; [now apply leb_refl|now apply ltb_leb]. }
  destruct (get_sign x); split;
    auto using leb_refl, not_ltb_leb.
Qed.

Lemma Math_min_le (x y : float) :
  is_nan x = false -> is_nan y = false ->
  (Js.Math_min x y <=? x) = true /\ (Js.Math_min x y <=? y) = true.
Proof.
  intros Hx Hy. unfold Js.Math_min. rewrite Hx, Hy. cbn [orb].
  destruct (x <? y) eqn:Hxy.
  { split; [now apply leb_refl|now apply ltb_leb]. }
  destruct (y <? x) eqn:Hyx.
  { split; [now apply ltb_leb|now apply leb_refl]. }
  destruct (get_sign x); split;
    auto using leb_refl, not_ltb_leb.
Qed.

(** [Math.max] and [Math.min] return one of their arguments, NaN apart. *)
Lemma Math_max_cases (x y : float) :
  is_nan x = false -> is_nan y = false ->
  Js.Math_max x y = x \/ Js.Math_max x y = y.
Proof.
  intros Hx Hy. unfold Js.Math_max. rewrite Hx, Hy. cbn [orb].
  destruct (x <? y), (y <? x), (get_sign x); auto.
Qed.

Lemma Math_min_cases (x y : float) :
  is_nan x = false -> is_nan y = false ->
  Js.Math_min x y = x \/ Js.Math_min x y = y.
Proof.
  intros Hx Hy. unfold Js.Math_min. rewrite Hx, Hy. cbn [orb].
  destruct (x <? y), (y <? x), (get_sign x); auto.
Qed.

End FloatOrder.

(** ** Arithmetic that cannot produce NaN *)

Section NoNaN.

Local Open Scope Z_scope.

Local Abbreviation notNaN x := (x <> S754_nan).

Lemma shr_1_nonneg (mrs : shr_record) :
  0 <= shr_m mrs -> 0 <= shr_m (shr_1 mrs).
Proof. destruct mrs as [[|[p|p|]|p] r s]; cbn; lia. Qed.

Lemma iter_pos_shr_1_nonneg (p : positive) (mrs : shr_record) :
  0 <= shr_m mrs -> 0 <= shr_m (SpecFloat.iter_pos shr_1 p mrs).
Proof.
  revert mrs. induction p as [p IH|p IH|]; intros mrs H; cbn;
    auto using shr_1_nonneg.
Qed.

Lemma shr_fexp_nonneg (m e : Z) (l : location) :
  0 <= m -> 0 <= shr_m (fst (shr_fexp prec emax m e l)).
Proof.
  intros H. unfold shr_fexp, shr.
  assert (H0 : 0 <= shr_m (shr_record_of_loc m l)).
  { destruct l as [|[]]; exact H. }
  destruct (_ - e); cbn [fst]; auto using iter_pos_shr_1_nonneg.
Qed.

Lemma round_nearest_even_nonneg (m : Z) (l : location) :
  0 <= m -> 0 <= round_nearest_even m l.
Proof.
  intros H. unfold round_nearest_even.
  destruct l as [|[]]; try destruct (Z.even m); lia.
Qed.

Lemma binary_round_aux_notNaN (s : bool) (m e : Z) (l : location) :
  0 <= m -> notNaN (binary_round_aux prec emax s m e l).
Proof.
  intros H. unfold binary_round_aux.
  pose proof (shr_fexp_nonneg m e l H) as H1.
  destruct (shr_fexp prec emax m e l) as [mrs' e']. cbn [fst] in H1.
  pose proof (shr_fexp_nonneg _ e' loc_Exact
                (round_nearest_even_nonneg _ (loc_of_shr_record mrs') H1)) as H2.
  destruct (shr_fexp prec emax _ e' loc_Exact) as [mrs'' e'']. cbn [fst] in H2.
  destruct (shr_m mrs''); [discriminate| |lia].
  destruct (_ <=? _); discriminate.
Qed.

Lemma binary_round_notNaN (s : bool) (m : positive) (e : Z) :
  notNaN (binary_round prec emax s m e).
Proof.
  unfold binary_round. destruct (shl_align _ _ _) as [mz ez].
  apply binary_round_aux_notNaN. lia.
Qed.

Lemma binary_normalize_notNaN (m e : Z) (szero : bool) :
  notNaN (binary_normalize prec emax m e szero).
Proof.
  destruct m; cbn; [discriminate|apply binary_round_notNaN..].
Qed.

(** A sum, a difference or a product with a finite non-zero operand is NaN
    only if the other operand is. *)
Lemma SFsub_finite_r (x : spec_float) (s : bool) (m : positive) (e : Z) :
  notNaN x -> notNaN (SFsub prec emax x (S754_finite s m e)).
Proof.
  destruct x as [[]|[]| |sx mx ex]; cbn; intros H; try discriminate;
    try contradiction.
  apply binary_normalize_notNaN.
Qed.

Lemma SFsub_finite_l (y : spec_float) (s : bool) (m : positive) (e : Z) :
  notNaN y -> notNaN (SFsub prec emax (S754_finite s m e) y).
Proof.
  destruct y as [[]|[]| |sy my ey]; cbn; intros H; try discriminate;
    try contradiction.
  apply binary_normalize_notNaN.
Qed.

Lemma SFmul_finite_r (x : spec_float) (s : bool) (m : positive) (e : Z) :
  notNaN x -> notNaN (SFmul prec emax x (S754_finite s m e)).
Proof.
  destruct x as [[]|[]| |sx mx ex]; cbn; intros H; try discriminate;
    try contradiction.
  apply binary_round_aux_notNaN. lia.
Qed.

Lemma SFmul_finite_l (y : spec_float) (s : bool) (m : positive) (e : Z) :
  notNaN y -> notNaN (SFmul prec emax (S754_finite s m e) y).
Proof.
  destruct y as [[]|[]| |sy my ey]; cbn; intros H; try discriminate;
    try contradiction.
  apply binary_round_aux_notNaN. lia.
Qed.

Lemma notNaN_is_nan (x : float) : notNaN (Prim2SF x) -> is_nan x = false.
Proof.
  rewrite is_nan_spec. destruct (Prim2SF x); congruence.
Qed.

Lemma is_nan_notNaN (x : float) : is_nan x = false -> notNaN (Prim2SF x).
Proof.
  rewrite is_nan_spec. destruct (Prim2SF x); congruence.
Qed.

(** The number an integer converts to is never NaN. *)
Lemma ofZ_notNaN (z : Z) : notNaN (Prim2SF (Js.ofZ z)).
Proof.
  unfold Js.ofZ.
  pose proof (binary_normalize_notNaN z 0 false) as H.
  destruct (binary_normalize prec emax z 0 false) as [[]|[]| |s m e];
    try discriminate; try contradiction.
  cbn [SF2Prim].
  assert (Hf : notNaN (Prim2SF (Z.ldexp (of_uint63 (Uint63Axioms.of_Z (Z.pos m))) e))).
  { rewrite Z_ldexp_spec, of_uint63_spec.
    pose proof (binary_normalize_notNaN
                  (Uint63Axioms.to_Z (Uint63Axioms.of_Z (Z.pos m))) 0 false) as H'.
    destruct (binary_normalize _ _ _ _ _) as [[]|[]| |s' m' e'];
      try discriminate; try contradiction.
    apply binary_round_notNaN. }
  destruct s; [|exact Hf].
  rewrite opp_spec.
  destruct (Prim2SF _); cbn; congruence.
Qed.

End NoNaN.

(** ** Integers read off binary64 values *)

Section TruncFacts.

Local Open Scope Z_scope.

Lemma digits2_pos_bounds (m : positive) :
  2 ^ (Z.pos (digits2_pos m) - 1) <= Z.pos m < 2 ^ Z.pos (digits2_pos m).
Proof.
  induction m as [m IH|m IH|]; cbn [digits2_pos]; [| |cbn; lia].
  - rewrite Pos2Z.inj_succ.
    replace (Z.succ (Z.pos (digits2_pos m)) - 1) with (Z.pos (digits2_pos m)) by lia.
    rewrite Z.pow_succ_r by lia.
    replace (Z.pos (digits2_pos m)) with (Z.succ (Z.pos (digits2_pos m) - 1)) at 1 by lia.
    rewrite Z.pow_succ_r by lia. lia.
  - rewrite Pos2Z.inj_succ.
    replace (Z.succ (Z.pos (digits2_pos m)) - 1) with (Z.pos (digits2_pos m)) by lia.
    rewrite Z.pow_succ_r by lia.
    replace (Z.pos (digits2_pos m)) with (Z.succ (Z.pos (digits2_pos m) - 1)) at 1 by lia.
    rewrite Z.pow_succ_r by lia. lia.
Qed.

(** The mantissa of a number above the subnormal range has 53 bits. *)
Lemma normal_mantissa (x : float) (s : bool) (m : positive) (e : Z) :
  Prim2SF x = S754_finite s m e -> -1074 < e ->
  2 ^ 52 <= Z.pos m < 2 ^ 53.
Proof.
  intros Hx He. pose proof (Prim2SF_valid x) as Hv. rewrite Hx in Hv.
  cbn in Hv. unfold bounded, canonical_mantissa, fexp in Hv.
  apply andb_true_iff in Hv as (Hc & _). apply Z.eqb_eq in Hc.
  assert (Hd : Z.pos (digits2_pos m) = 53).
  { unfold SpecFloat.fexp, SpecFloat.emin, emax, prec in Hc. lia. }
  pose proof (digits2_pos_bounds m) as Hb. rewrite Hd in Hb. exact Hb.
Qed.

(** The order of two positive finite numbers, on their mantissas and
    exponents. *)
Lemma SFleb_finite (m1 m2 : positive) (e1 e2 : Z) :
  SFleb (S754_finite false m1 e1) (S754_finite false m2 e2) = true ->
  e1 < e2 \/ (e1 = e2 /\ Z.pos m1 <= Z.pos m2).
Proof.
  unfold SFleb. cbn [SFcompare].
  rewrite Pos.compare_cont_spec. unfold Pos.switch_Eq.
  destruct (Z.compare_spec e1 e2); try discriminate; [|lia].
  destruct (Pos.compare_spec m1 m2); try discriminate; lia.
Qed.

Lemma SFleb_finite_l (m1 : positive) (e1 : Z) (y : spec_float) :
  SFleb (S754_finite false m1 e1) y = true ->
  y = S754_infinity false \/ exists m2 e2, y = S754_finite false m2 e2.
Proof.
  destruct y as [[]|[]| |[] m2 e2]; cbn; try discriminate; eauto.
Qed.

(** A number the comparisons place between 20 and 300: its mantissa and
    exponent. *)
Lemma between_20_300 (x : float) :
  PrimFloat.leb 20 x = true -> PrimFloat.leb x 300 = true ->
  exists (m : positive) (e : Z),
    Prim2SF x = S754_finite false m e
    /\ -48 <= e <= -44
    /\ (e = -48 -> 5629499534213120 <= Z.pos m)
    /\ (e = -44 -> Z.pos m <= 5277655813324800).
Proof.
  rewrite !FloatAxioms.leb_spec.
  change (Prim2SF 20) with (S754_finite false 5629499534213120 (-48)).
  change (Prim2SF 300) with (S754_finite false 5277655813324800 (-44)).
  intros H1 H2.
  destruct (SFleb_finite_l _ _ _ H1) as [Hy|(m & e & Hy)]; rewrite Hy in *.
  - discriminate.
  - apply SFleb_finite in H1, H2. exists m, e. split; [reflexivity|]. lia.
Qed.

(** Such a number truncates to an integer between 20 and 300. *)
Lemma truncZ_20_300 (x : float) :
  PrimFloat.leb 20 x = true -> PrimFloat.leb x 300 = true ->
  20 <= Js.truncZ x <= 300.
Proof.
  intros H1 H2.
  destruct (between_20_300 x H1 H2) as (m & e & Hx & He & Hlo & Hhi).
  pose proof (normal_mantissa x false m e Hx ltac:(lia)) as Hm.
  change (2 ^ 52) with 4503599627370496 in Hm.
  change (2 ^ 53) with 9007199254740992 in Hm.
  unfold Js.truncZ. rewrite Hx.
  assert (Hcases : e = -48 \/ e = -47 \/ e = -46 \/ e = -45 \/ e = -44) by lia.
  destruct Hcases as [->|[->|[->|[->| ->]]]].
  - change (2 ^ (- -48)) with 281474976710656. specialize (Hlo eq_refl).
    change (0 <=? -48) with false. cbn iota.
    split; [apply Z.div_le_lower_bound; lia
           |apply Z.lt_le_incl, Z.div_lt_upper_bound; lia].
  - change (2 ^ (- -47)) with 140737488355328.
    change (0 <=? -47) with false. cbn iota.
    split; [apply Z.div_le_lower_bound; lia
           |apply Z.lt_le_incl, Z.div_lt_upper_bound; lia].
  - change (2 ^ (- -46)) with 70368744177664.
    change (0 <=? -46) with false. cbn iota.
    split; [apply Z.div_le_lower_bound; lia
           |apply Z.lt_le_incl, Z.div_lt_upper_bound; lia].
  - change (2 ^ (- -45)) with 35184372088832.
    change (0 <=? -45) with false. cbn iota.
    split; [apply Z.div_le_lower_bound; lia
           |apply Z.lt_le_incl, Z.div_lt_upper_bound; lia].
  - change (2 ^ (- -44)) with 17592186044416. specialize (Hhi eq_refl).
    change (0 <=? -44) with false. cbn iota.
    split; [apply Z.div_le_lower_bound; lia
           |apply Z.div_le_upper_bound; lia].
Qed.

End TruncFacts.
(** ** The speed trainer *)

Section TrainerFacts.
Import Metronome.















End TrainerFacts.



(** On the application's default grid (four steps): the callbacks of four
    bars and the first step of the fifth, and the tempo and the bar counter
    after each of the first six wraps. *)
Example trainer_four_step_grid :
  EngineLog.walk 4 0 17
  = [0; 1; 2; 3; 0; 1; 2; 3; 0; 1; 2; 3; 0; 1; 2; 3; 0]
  /\ map (fun b : nat =>
            let s :=
              Metronome.runSteps (EngineLog.walk 4 0 (b * 4 + 1))
                (Metronome.togglePlay
                   (Metronome.setTrainer (mkTrainer true 4 5 0)
                      (Metronome.setBpm (fun _ => 100)
                         Metronome.initialState))) in
            (Metronome.bpm s, Metronome.tracker s))
         [0; 1; 2; 3; 4; 5; 8]%nat
     = [(100, 1); (100, 2); (100, 3); (100, 4); (105, 1); (105, 2); (110, 1)].
Proof. split; reflexivity. Qed.

(** ** The metronome engine on an empty grid *)

Section EngineFacts.
Import MetronomeEngine.

Lemma scheduleNote_empty (now time : Js.number) (beatNumber : Z) (e : Engine) :
  grid e = [] -> isPlaying e = true ->
  scheduleNote now beatNumber time e
  = emit (defaultStep now (beatNumber, time)) e.
Proof.
  intros Hg Hp. unfold scheduleNote, defaultStep, emit. cbn.
  rewrite Hg, Hp. unfold Js.getZ.
  destruct (beatNumber <? 0); cbn; rewrite ?lookup_nil; cbn;
    destruct e; cbn in *; now rewrite <- app_assoc.
Qed.

(** The turns of the scheduler's loop on an empty grid: each emits the UI
    callback and the default tone. *)
Lemma schedulerLoop_empty (fuel : nat) (now : Js.number) (e : Engine) :
  grid e = [] -> isPlaying e = true ->
  exists steps : list (Z * Js.number),
    out (schedulerLoop fuel now e)
    = out e ++ concat (map (defaultStep now) steps)
    /\ (length steps <= fuel)%nat
    /\ (fuel <> O ->
        PrimFloat.ltb (nextNoteTime e)
                      (PrimFloat.add now scheduleAheadTime) = true ->
        exists rest, steps = (currentStep e, nextNoteTime e) :: rest).
Proof.
  revert e. induction fuel as [|fuel IH]; intros e Hg Hp.
  - exists []. cbn. rewrite app_nil_r. repeat split; [lia|congruence].
  - cbn [schedulerLoop].
    destruct (PrimFloat.ltb (nextNoteTime e) (PrimFloat.add now scheduleAheadTime)) eqn:Hlt.
    + rewrite scheduleNote_empty by assumption.
      destruct (IH (nextNote (emit (defaultStep now (currentStep e, nextNoteTime e)) e)))
        as (steps & Hout & Hlen & _).
      { cbn. exact Hg. }
      { cbn. exact Hp. }
      exists ((currentStep e, nextNoteTime e) :: steps).
      rewrite Hout. cbn [map concat length]. cbn [nextNote emit out].
      rewrite <- !app_assoc. repeat split; [lia|eauto].
    + exists []. cbn. rewrite app_nil_r. repeat split; [lia|congruence].
Qed.

Lemma filter_isClick_defaultSteps (now : Js.number) (steps : list (Z * Js.number)) :
  List.filter isClick (concat (map (defaultStep now) steps))
  = map (fun bt => Click 800 sine 0.4 (Js.Math_max now (snd bt))) steps.
Proof.
  induction steps as [|bt steps IH]; [reflexivity|].
  cbn [map concat]. rewrite List.filter_app, IH. reflexivity.
Qed.

(** Starting an engine whose grid is empty instructs the default tone for
    step 0 at once, for every clock reading [now] that the additions
    [now + 0.05] and [now + 0.1] order as the reals do. *)
Lemma start_empty_grid (now : Js.number) (e : Engine) :
  grid e = [] -> isPlaying e = false ->
  PrimFloat.ltb (PrimFloat.add now 0.05) now = false ->
  PrimFloat.ltb (PrimFloat.add now 0.05) (PrimFloat.add now scheduleAheadTime)
  = true ->
  exists rest,
    clicks (start now e)
    = clicks e
      ++ Click 800 sine 0.4 (Js.Math_max now (PrimFloat.add now 0.05)) :: rest.
Proof.
  intros Hg Hp Hge Hlt. unfold start, scheduler. rewrite Hp. cbn [isPlaying negb].
  cbn [nextNoteTime]. rewrite Hge.
  set (e0 := mkEngine true _ _ _ _ _ _ _).
  destruct (schedulerLoop_empty 100 now e0 Hg eq_refl) as (steps & Hout & _ & Hfirst).
  destruct (Hfirst ltac:(discriminate) Hlt) as (rest & ->).
  unfold clicks. cbn [out]. rewrite Hout. cbn [out e0 map concat].
  rewrite !List.filter_app, filter_isClick_defaultSteps. cbn.
  rewrite app_nil_r. eauto.
Qed.

End EngineFacts.

(** C3, as stated, fails: the engine as constructed has an empty grid;
    started, its first tick processes one step and instructs a tone, the
    800 Hz default; with a shorter step interval the same tick instructs
    fifty. *)
Lemma empty_grid_is_not_silent :
  MetronomeEngine.grid MetronomeEngine.init = []
  /\ MetronomeEngine.clicks
       (MetronomeEngine.start 0 MetronomeEngine.init)
     = [MetronomeEngine.Click 800 MetronomeEngine.sine 0.4 0.05]
  /\ MetronomeEngine.clicks
       (MetronomeEngine.start 0 MetronomeEngine.init) <> []
  /\ length (MetronomeEngine.clicks
       (MetronomeEngine.start 0
          (MetronomeEngine.setStepInterval 0.001 MetronomeEngine.init)))
     = 50%nat.
Proof.
  repeat split; try (vm_compute; reflexivity). vm_compute. discriminate.
Qed.

(** The degenerate polyrhythm inputs never reach the engine as an empty
    grid: the grid effect clamps them to 1. *)
Example degenerate_poly_grid :
  Metronome.polyGridOf 0 0 Metronome.initialState = [POLY_BOTH]
  /\ Metronome.polyGridOf 0 3 Metronome.initialState
     = [POLY_BOTH; POLY_B; POLY_B].
Proof. split; reflexivity. Qed.

(** C3 (amended): on an empty grid the scheduler is a no-op only while the
    engine is not playing. While it plays, every step a tick processes
    reads an undefined intensity, which is not MUTE: it schedules the UI
    callback and instructs the default tone, one 800 Hz sine at gain 0.4,
    at the step's time; the tick's tones are exactly one such tone per
    step processed, so they depend on the step interval through the number
    of steps that fit the look-ahead window. *)
Theorem empty_grid_default_tone (now : Js.number) (e : MetronomeEngine.Engine) :
  MetronomeEngine.grid e = [] ->
  (MetronomeEngine.isPlaying e = false -> MetronomeEngine.scheduler now e = e)
  /\ (MetronomeEngine.isPlaying e = true ->
      (forall beatNumber time,
          MetronomeEngine.out (MetronomeEngine.scheduleNote now beatNumber time e)
          = MetronomeEngine.out e
            ++ MetronomeEngine.defaultStep now (beatNumber, time))
      /\ exists steps : list (Z * Js.number),
          MetronomeEngine.out (MetronomeEngine.scheduler now e)
          = MetronomeEngine.out e
            ++ concat (map (MetronomeEngine.defaultStep now) steps)
            ++ [MetronomeEngine.Rearm MetronomeEngine.lookahead]
          /\ MetronomeEngine.clicks (MetronomeEngine.scheduler now e)
             = MetronomeEngine.clicks e
               ++ map (fun bt => MetronomeEngine.Click 800 MetronomeEngine.sine
                                   0.4 (Js.Math_max now (snd bt))) steps).
Proof.
  intros Hg. split; intros Hp.
  - unfold MetronomeEngine.scheduler. now rewrite Hp.
  - split.
    + intros b t. now rewrite scheduleNote_empty.
    + unfold MetronomeEngine.scheduler. rewrite Hp. cbn [negb].
      set (e' := if PrimFloat.ltb _ _ then _ else e).
      assert (He' : MetronomeEngine.grid e' = [] /\
                    MetronomeEngine.isPlaying e' = true /\
                    MetronomeEngine.out e' = MetronomeEngine.out e).
      { subst e'. destruct (PrimFloat.ltb _ _); cbn; auto. }
      destruct He' as (Hg' & Hp' & Ho').
      destruct (schedulerLoop_empty 100 now e' Hg' Hp') as (steps & Hout & _).
      exists steps. unfold MetronomeEngine.clicks. cbn [MetronomeEngine.out].
      rewrite Hout, Ho'. split.
      * now rewrite <- app_assoc.
      * rewrite !List.filter_app, filter_isClick_defaultSteps. cbn.
        now rewrite app_nil_r.
Qed.

Lemma empty_grid_default_tone_witness :
  MetronomeEngine.out
    (MetronomeEngine.scheduleNote 0 0 0.05
       (MetronomeEngine.mkEngine true 0.05 false 0 120 [] 0.5 []))
  = [] ++ MetronomeEngine.defaultStep 0 (0, 0.05%float).
Proof.
  exact (proj1 (proj2 (empty_grid_default_tone 0
           (MetronomeEngine.mkEngine true 0.05 false 0 120 [] 0.5 []) eq_refl)
           eq_refl) 0 0.05%float).
Defined.

(** ** The polyphonic synth *)

Section SynthFacts.
Import PolySynth.

Lemma mapGet_In (k : Z) (v : nat) (m : list (Z * nat)) :
  mapGet k m = Some v -> In (k, v) m.
Proof.
  induction m as [|[k' v'] m IH]; cbn; [discriminate|].
  destruct (Z.eqb_spec k' k) as [->|_].
  - intros [= ->]. now left.
  - intros H. right. now apply IH.
Qed.

Lemma mapGet_None (k : Z) (m : list (Z * nat)) :
  mapGet k m = None <-> ~ In k (mapKeys m).
Proof.
  induction m as [|[k' v'] m IH]; cbn; [tauto|].
  destruct (Z.eqb_spec k' k) as [->|Hne].
  - split; [discriminate|]. intros H. exfalso. apply H. now left.
  - rewrite IH. tauto.
Qed.

Lemma In_mapDelete (k k' : Z) (v : nat) (m : list (Z * nat)) :
  In (k', v) (mapDelete k m) <-> In (k', v) m /\ k' <> k.
Proof.
  unfold mapDelete. rewrite List.filter_In. cbn.
  rewrite negb_true_iff, Z.eqb_neq. tauto.
Qed.

Lemma mapKeys_mapDelete (k : Z) (m : list (Z * nat)) :
  ~ In k (mapKeys (mapDelete k m)).
Proof.
  unfold mapKeys. rewrite in_map_iff. intros ([k' v] & Hk & Hin).
  cbn in Hk. subst k'. apply In_mapDelete in Hin. tauto.
Qed.

Lemma mapGet_mapDelete (k : Z) (m : list (Z * nat)) :
  mapGet k (mapDelete k m) = None.
Proof. apply mapGet_None, mapKeys_mapDelete. Qed.

Lemma NoDup_map_filter {X Y : Type} (f : X -> Y) (p : X -> bool) (l : list X) :
  NoDup (map f l) -> NoDup (map f (List.filter p l)).
Proof.
  induction l as [|x l IH]; cbn; [auto|].
  rewrite NoDup_cons. intros [Hx Hl].
  destruct (p x); cbn; [|auto].
  apply NoDup_cons. split; [|auto].
  rewrite list_elem_of_In, in_map_iff in *. intros (y & Hy & Hin).
  apply Hx. exists y. split; [auto|].
  apply List.filter_In in Hin. tauto.
Qed.

(** A key that is not in the map goes last. *)
Lemma mapSet_fresh (k : Z) (v : nat) (m : list (Z * nat)) :
  ~ In k (mapKeys m) -> mapSet k v m = m ++ [(k, v)].
Proof.
  induction m as [|[k' v'] m IH]; cbn; [reflexivity|].
  intros H. destruct (Z.eqb_spec k' k) as [->|_]; [tauto|].
  f_equal. apply IH. tauto.
Qed.

(** *** Idempotence of [stop] *)

(** The three tests of [stop]: is there an entry for the pitch, does it
    name an object, is the object already stopped. In the three branches
    where one fails, [stop] returns its argument, and [tac] closes the
    goal; the fourth is left, with the equations of the tests. *)
Ltac stop_cases p s tac Hget Hact Hst :=
  unfold stop;
  destruct (mapGet p (activeNotes s)) as [ref|] eqn:Hget; [|tac];
  destruct (heap s !! ref) as [active|] eqn:Hact; [|tac];
  destruct (isStopped active) eqn:Hst; [tac|].

Lemma stop_absent (now : Js.number) (p : Z) (immediate : bool) (s : Synth) :
  mapGet p (activeNotes s) = None -> stop now p immediate s = s.
Proof. intros H. unfold stop. now rewrite H. Qed.

Lemma stop_result_absent (now : Js.number) (p : Z) (immediate : bool) (s : Synth) :
  mapGet p (activeNotes (stop now p immediate s)) = None \/
  stop now p immediate s = s.
Proof.
  stop_cases p s ltac:(now right) Hget Hact Hst.
  left. cbn. apply mapGet_mapDelete.
Qed.

Lemma stop_stop (now now' : Js.number) (p : Z) (immediate immediate' : bool)
    (s : Synth) :
  stop now' p immediate' (stop now p immediate s) = stop now p immediate s.
Proof.
  destruct (stop_result_absent now p immediate s) as [H|H].
  - now apply stop_absent.
  - rewrite H. unfold stop.
    unfold stop in H.
    destruct (mapGet p (activeNotes s)) as [ref|]; [|reflexivity].
    destruct (heap s !! ref) as [active|]; [|reflexivity].
    destruct (isStopped active); [reflexivity|].
    exfalso. apply (f_equal log) in H. cbn in H.
    apply (f_equal (@length _)) in H. rewrite length_app in H. cbn in H. lia.
Qed.

(** *** The voice-map invariant *)

Lemma NoDup_snd_inj (m : list (Z * nat)) (k k' : Z) (v : nat) :
  NoDup (map snd m) -> In (k, v) m -> In (k', v) m -> k = k'.
Proof.
  induction m as [|[k0 v0] m IH]; cbn; [tauto|].
  rewrite NoDup_cons, list_elem_of_In. intros [Hv Hm] [H1|H1] [H2|H2].
  - congruence.
  - injection H1 as -> ->. exfalso. apply Hv.
    apply in_map_iff. now exists (k', v).
  - injection H2 as -> ->. exfalso. apply Hv.
    apply in_map_iff. now exists (k, v).
  - now apply IH.
Qed.

(** Under the invariant [stop] does remove the pitch. *)
Lemma stop_removes (now : Js.number) (p : Z) (immediate : bool) (s : Synth) :
  Inv s -> ~ In p (mapKeys (activeNotes (stop now p immediate s))).
Proof.
  intros (_ & _ & Hlive). unfold stop.
  destruct (mapGet p (activeNotes s)) as [ref|] eqn:Hget.
  - destruct (Hlive p ref (mapGet_In _ _ _ Hget)) as (v & Hv & Hns).
    unfold voiceOf in Hv. rewrite Hv, Hns. cbn. apply mapKeys_mapDelete.
  - now apply mapGet_None.
Qed.

Lemma Inv_stop (now : Js.number) (p : Z) (immediate : bool) (s : Synth) :
  Inv s -> Inv (stop now p immediate s).
Proof.
  intros HI. pose proof HI as (Hk & Hr & Hlive).
  stop_cases p s ltac:(exact HI) Hget Hact Hst.
  unfold Inv, voiceOf. cbn. repeat split.
  - now apply NoDup_map_filter.
  - now apply NoDup_map_filter.
  - intros midi r Hin. apply In_mapDelete in Hin as [Hin Hne].
    destruct (Hlive midi r Hin) as (v & Hv & Hns). exists v. split; [|exact Hns].
    unfold voiceOf in Hv. rewrite list_lookup_insert_ne; [exact Hv|].
    intros ->. apply Hne.
    exact (NoDup_snd_inj _ _ _ _ Hr Hin (mapGet_In _ _ _ Hget)).
Qed.

Lemma Inv_play (M : Js.MathImpl) (now : Js.number) (p : Z) (s : Synth) :
  Inv s -> Inv (play M now p s).
Proof.
  intros HI. unfold play.
  set (s1 := if mapHas p (activeNotes s) then stop now p true s else s).
  assert (HI1 : Inv s1).
  { subst s1. destruct (mapHas p (activeNotes s)); [now apply Inv_stop|exact HI]. }
  assert (Hfresh : ~ In p (mapKeys (activeNotes s1))).
  { subst s1. unfold mapHas.
    destruct (mapGet p (activeNotes s)) eqn:Hget.
    - now apply stop_removes.
    - now apply mapGet_None. }
  destruct HI1 as (Hk & Hr & Hlive).
  assert (Hlt : forall midi r, In (midi, r) (activeNotes s1) ->
                               (r < length (heap s1))%nat).
  { intros midi r Hin. destruct (Hlive midi r Hin) as (v & Hv & _).
    now apply lookup_lt_Some in Hv. }
  unfold Inv, voiceOf. cbn [activeNotes heap].
  rewrite mapSet_fresh by exact Hfresh. unfold mapKeys in *.
  rewrite !map_app. cbn [map fst snd]. repeat split.
  - apply NoDup_app. repeat split; [exact Hk| |apply NoDup_singleton].
    intros k Hin Hin'. apply list_elem_of_singleton in Hin'. subst k.
    apply Hfresh. now apply list_elem_of_In.
  - apply NoDup_app. repeat split; [exact Hr| |apply NoDup_singleton].
    intros r Hin Hin'. apply list_elem_of_singleton in Hin'. subst r.
    apply list_elem_of_In, in_map_iff in Hin as ([k r] & Heq & Hin).
    cbn in Heq. subst r. apply Hlt in Hin. lia.
  - intros midi r Hin. apply in_app_iff in Hin as [Hin|[Heq|[]]].
    + destruct (Hlive midi r Hin) as (v & Hv & Hns). exists v.
      split; [|exact Hns]. unfold voiceOf in Hv.
      rewrite lookup_app_l by (now apply Hlt in Hin). exact Hv.
    + injection Heq as <- <-.
      exists (mkVoice (2 * length (heap s1)) (2 * length (heap s1) + 1) false).
      split; [|reflexivity].
      rewrite lookup_app_r by lia. now rewrite Nat.sub_diag.
Qed.

Lemma Inv_stopAll (now : Js.number) (s : Synth) : Inv (stopAll now s).
Proof.
  unfold Inv, stopAll. cbn. repeat split; try apply NoDup_nil_2.
  intros ? ? [].
Qed.

Lemma Inv_step (M : Js.MathImpl) (s : Synth) (op : Op) :
  Inv s -> Inv (step M s op).
Proof.
  intros HI. destruct op; cbn.
  - now apply Inv_play.
  - now apply Inv_stop.
  - apply Inv_stopAll.
  - unfold safetyTimeout. destruct (bool_decide _); [now apply Inv_stop|exact HI].
  - exact HI.
Qed.

Lemma Inv_init : Inv init.
Proof.
  unfold Inv, init. cbn. repeat split; try apply NoDup_nil_2.
  intros ? ? [].
Qed.

Lemma Inv_run (M : Js.MathImpl) (ops : list Op) (s : Synth) :
  Inv s -> Inv (run M ops s).
Proof.
  revert s. induction ops as [|op ops IH]; intros s HI; [exact HI|].
  cbn. apply IH. now apply Inv_step.
Qed.

(** *** No live voice outside the map *)

Lemma NoDup_fst_inj (m : list (Z * nat)) (k : Z) (v v' : nat) :
  NoDup (map fst m) -> In (k, v) m -> In (k, v') m -> v = v'.
Proof.
  induction m as [|[k0 v0] m IH]; cbn; [tauto|].
  rewrite NoDup_cons, list_elem_of_In. intros [Hv Hm] [H1|H1] [H2|H2].
  - congruence.
  - injection H1 as -> ->. exfalso. apply Hv.
    apply in_map_iff. now exists (k, v').
  - injection H2 as -> ->. exfalso. apply Hv.
    apply in_map_iff. now exists (k, v).
  - now apply IH.
Qed.

Lemma Live_stop (now : Js.number) (p : Z) (immediate : bool) (s : Synth) :
  Inv s -> Live s -> Live (stop now p immediate s).
Proof.
  intros (Hk & Hr & Hlive) HL.
  stop_cases p s ltac:(exact HL) Hget Hact Hst.
  unfold Live, voiceOf. cbn. intros r v Hv Hns.
  destruct (Nat.eq_dec r ref) as [->|Hne].
  - rewrite list_lookup_insert_eq in Hv by (now apply lookup_lt_Some in Hact).
    injection Hv as <-. discriminate.
  - rewrite list_lookup_insert_ne in Hv by congruence.
    destruct (HL r v Hv Hns) as (midi & Hin). exists midi.
    apply In_mapDelete. split; [exact Hin|].
    intros ->. apply Hne.
    exact (NoDup_fst_inj _ _ _ _ Hk Hin (mapGet_In _ _ _ Hget)).
Qed.

Lemma Live_play (M : Js.MathImpl) (now : Js.number) (p : Z) (s : Synth) :
  Inv s -> Live s -> Live (play M now p s).
Proof.
  intros HI HL. unfold play.
  set (s1 := if mapHas p (activeNotes s) then stop now p true s else s).
  assert (HL1 : Live s1).
  { subst s1. destruct (mapHas p (activeNotes s)); [now apply Live_stop|exact HL]. }
  assert (Hfresh : ~ In p (mapKeys (activeNotes s1))).
  { subst s1. unfold mapHas.
    destruct (mapGet p (activeNotes s)) eqn:Hget.
    - now apply stop_removes.
    - now apply mapGet_None. }
  unfold Live, voiceOf. cbn [activeNotes heap].
  rewrite mapSet_fresh by exact Hfresh. intros r v Hv Hns.
  destruct (Nat.lt_ge_cases r (length (heap s1))) as [Hlt|Hge].
  - rewrite lookup_app_l in Hv by exact Hlt.
    destruct (HL1 r v Hv Hns) as (midi & Hin). exists midi.
    apply in_app_iff. now left.
  - pose proof (lookup_lt_Some _ _ _ Hv) as Hlen.
    rewrite length_app in Hlen. cbn in Hlen.
    assert (r = length (heap s1)) as -> by lia.
    exists p. apply in_app_iff. right. now left.
Qed.

(** The keys left after stopping a list of pitches. *)
Lemma stop_keys (now : Js.number) (p : Z) (immediate : bool) (s : Synth) (k : Z) :
  Inv s ->
  In k (mapKeys (activeNotes (stop now p immediate s))) ->
  In k (mapKeys (activeNotes s)) /\ k <> p.
Proof.
  intros HI Hin. split.
  - revert Hin. stop_cases p s ltac:(auto) Hget Hact Hst. cbn.
    unfold mapKeys. rewrite !in_map_iff. intros ([k' v] & Hk & Hin).
    apply In_mapDelete in Hin. exists (k', v). tauto.
  - intros ->. now apply (stop_removes now p immediate s HI).
Qed.

Lemma stop_heap_length (now : Js.number) (p : Z) (immediate : bool) (s : Synth) :
  length (heap (stop now p immediate s)) = length (heap s).
Proof.
  stop_cases p s ltac:(auto) Hget Hact Hst. cbn. apply length_insert.
Qed.

Lemma stopAll_fold (now : Js.number) (ks : list Z) (s : Synth) :
  Inv s -> Live s ->
  (forall k, In k (mapKeys (activeNotes s)) -> In k ks) ->
  let s' := fold_left (fun acc midi => stop now midi true acc) ks s in
  Inv s' /\ Live s' /\ activeNotes s' = [].
Proof.
  revert s. induction ks as [|k ks IH]; intros s HI HL Hsub; cbn.
  - split; [exact HI|split; [exact HL|]].
    destruct (activeNotes s) as [|[k v] m]; [reflexivity|].
    exfalso. apply (Hsub k). now left.
  - apply IH; [now apply Inv_stop|now apply Live_stop|].
    intros k' Hin. apply stop_keys in Hin as [Hin Hne]; [|exact HI].
    destruct (Hsub k' Hin) as [->|]; [contradiction|assumption].
Qed.

(** After [stopAll] every voice of the store is stopped. *)
Lemma stopAll_all_stopped (now : Js.number) (s : Synth) :
  Inv s -> Live s ->
  activeNotes (stopAll now s) = [] /\
  length (heap (stopAll now s)) = length (heap s) /\
  forall ref v, voiceOf (stopAll now s) ref = Some v -> isStopped v = true.
Proof.
  intros HI HL.
  destruct (stopAll_fold now (mapKeys (activeNotes s)) s HI HL (fun _ H => H))
    as (_ & HL' & Hempty).
  unfold stopAll, voiceOf. cbn. repeat split.
  - clear. generalize (mapKeys (activeNotes s)). intros ks. revert s.
    induction ks as [|k ks IH]; intros s; cbn [fold_left]; [reflexivity|].
    now rewrite IH, stop_heap_length.
  - intros ref v Hv. destruct (isStopped v) eqn:Hst; [reflexivity|].
    destruct (HL' ref v Hv Hst) as (midi & Hin).
    rewrite Hempty in Hin. destruct Hin.
Qed.

Lemma Live_stopAll (now : Js.number) (s : Synth) :
  Inv s -> Live s -> Live (stopAll now s).
Proof.
  intros HI HL ref v Hv Hns.
  destruct (stopAll_all_stopped now s HI HL) as (_ & _ & H).
  rewrite (H ref v Hv) in Hns. discriminate.
Qed.

Lemma Live_step (M : Js.MathImpl) (s : Synth) (op : Op) :
  Inv s -> Live s -> Live (step M s op).
Proof.
  intros HI HL. destruct op; cbn.
  - now apply Live_play.
  - now apply Live_stop.
  - now apply Live_stopAll.
  - unfold safetyTimeout. destruct (bool_decide _); [now apply Live_stop|exact HL].
  - exact HL.
Qed.

Lemma Live_run (M : Js.MathImpl) (ops : list Op) (s : Synth) :
  Inv s -> Live s -> Live (run M ops s).
Proof.
  revert s. induction ops as [|op ops IH]; intros s HI HL; [exact HL|].
  cbn. apply IH; [now apply Inv_step|now apply Live_step].
Qed.

Lemma Live_init : Live init.
Proof. intros ref v Hv. unfold voiceOf, init in Hv. cbn in Hv. now rewrite lookup_nil in Hv. Qed.

End SynthFacts.

(** C6: idempotence of voice stop. For every state of the synth and every
    pitch p, a second [stop(p)] right after a first leaves the state the
    first one produced (the map, the store, the decay flag and the log of
    audio instructions: nothing more is sent to the audio graph), whatever
    the clock readings and the [immediate] flags of the two calls; and
    [stop(p)] on a state with no voice for p is the identity. *)
Theorem stop_idempotent (s : PolySynth.Synth) (p : Z) (now now' : Js.number)
    (immediate immediate' : bool) :
  PolySynth.stop now' p immediate' (PolySynth.stop now p immediate s)
  = PolySynth.stop now p immediate s
  /\ (PolySynth.mapGet p (PolySynth.activeNotes s) = None ->
      PolySynth.stop now p immediate s = s).
Proof. split; [apply stop_stop|apply stop_absent]. Qed.

Lemma stop_idempotent_witness :
  PolySynth.stop 2 60 true
    (PolySynth.stop 1 60 false
       (PolySynth.run Js.refMath
          [PolySynth.Play 0 60; PolySynth.Play 0.5 64] PolySynth.init))
  = PolySynth.stop 1 60 false
      (PolySynth.run Js.refMath
         [PolySynth.Play 0 60; PolySynth.Play 0.5 64] PolySynth.init)
  /\ PolySynth.stop 1 61 false
       (PolySynth.run Js.refMath
          [PolySynth.Play 0 60; PolySynth.Play 0.5 64] PolySynth.init)
     = PolySynth.run Js.refMath
         [PolySynth.Play 0 60; PolySynth.Play 0.5 64] PolySynth.init.
Proof.
  split.
  - exact (proj1 (stop_idempotent
                    (PolySynth.run Js.refMath
                       [PolySynth.Play 0 60; PolySynth.Play 0.5 64]
                       PolySynth.init) 60 1 2 false true)).
  - apply (proj2 (stop_idempotent
                    (PolySynth.run Js.refMath
                       [PolySynth.Play 0 60; PolySynth.Play 0.5 64]
                       PolySynth.init) 61 1 1 false false)).
    vm_compute. reflexivity.
Defined.

Example stop_twice :
  let s := PolySynth.run Js.refMath
             [PolySynth.Play 0 60; PolySynth.Play 0.5 64] PolySynth.init in
  PolySynth.activeNotes s = [(60, 0%nat); (64, 1%nat)]
  /\ PolySynth.activeNotes (PolySynth.stop 1 60 false s) = [(64, 1%nat)]
  /\ length (PolySynth.log (PolySynth.stop 1 60 false s))
     = (length (PolySynth.log s) + 3)%nat.
Proof. repeat split; vm_compute; reflexivity. Qed.

(** C9: the voice-map invariant. After any sequence of [play], [stop],
    [stopAll] calls (and of safety-timeout callbacks and changes of the
    decay mode) on a fresh synth: the map holds at most one entry per MIDI
    pitch; every entry names a voice whose [isStopped] flag is false; a
    voice whose flag is true is under no pitch of the map, and a voice
    whose flag is false is under one; and after [stopAll] the map is empty
    and every voice is stopped. *)
Theorem voice_map_invariant (M : Js.MathImpl) (ops : list PolySynth.Op) :
  NoDup (PolySynth.mapKeys (PolySynth.activeNotes (PolySynth.run M ops PolySynth.init)))
  /\ (forall midi ref,
        In (midi, ref) (PolySynth.activeNotes (PolySynth.run M ops PolySynth.init)) ->
        exists v, PolySynth.voiceOf (PolySynth.run M ops PolySynth.init) ref = Some v
                  /\ PolySynth.isStopped v = false)
  /\ (forall ref v,
        PolySynth.voiceOf (PolySynth.run M ops PolySynth.init) ref = Some v ->
        if PolySynth.isStopped v
        then forall midi,
               ~ In (midi, ref)
                    (PolySynth.activeNotes (PolySynth.run M ops PolySynth.init))
        else exists midi,
               In (midi, ref)
                  (PolySynth.activeNotes (PolySynth.run M ops PolySynth.init)))
  /\ (forall now,
        PolySynth.activeNotes
          (PolySynth.stopAll now (PolySynth.run M ops PolySynth.init)) = []
        /\ forall ref v,
             PolySynth.voiceOf
               (PolySynth.stopAll now (PolySynth.run M ops PolySynth.init)) ref
             = Some v ->
             PolySynth.isStopped v = true).
Proof.
  pose proof (Inv_run M ops _ Inv_init) as HI.
  pose proof (Live_run M ops _ Inv_init Live_init) as HL.
  pose proof HI as (Hk & Hr & Hlive).
  split; [exact Hk|]. split; [exact Hlive|]. split.
  - intros ref v Hv. destruct (PolySynth.isStopped v) eqn:Hst.
    + intros midi Hin. destruct (Hlive midi ref Hin) as (v' & Hv' & Hns).
      congruence.
    + now apply (HL ref v).
  - intros now. destruct (stopAll_all_stopped now _ HI HL) as (H1 & _ & H2).
    split; assumption.
Qed.

Lemma voice_map_invariant_witness :
  NoDup (PolySynth.mapKeys (PolySynth.activeNotes
           (PolySynth.run Js.refMath
              [PolySynth.Play 0 60; PolySynth.Play 0.5 64; PolySynth.Play 1 60;
               PolySynth.Timeout 5 60 0; PolySynth.Stop 6 64 false]
              PolySynth.init))).
Proof.
  exact (proj1 (voice_map_invariant Js.refMath
           [PolySynth.Play 0 60; PolySynth.Play 0.5 64; PolySynth.Play 1 60;
            PolySynth.Timeout 5 60 0; PolySynth.Stop 6 64 false])).
Defined.

Example voices_run :
  let s := PolySynth.run Js.refMath
             [PolySynth.Play 0 60; PolySynth.Play 0.5 64; PolySynth.Play 1 60;
              PolySynth.Timeout 5 60 0; PolySynth.Stop 6 64 false]
             PolySynth.init in
  PolySynth.activeNotes s = [(60, 2%nat)]
  /\ map PolySynth.isStopped (PolySynth.heap s) = [true; true; false].
Proof. split; vm_compute; reflexivity. Qed.

(** ** The pitch detector *)

Section DetectorFacts.

Local Open Scope float_scope.

(** While no lag is both above the threshold and rising, the loop neither
    returns nor touches the best lag. *)
Lemma offsetLoop_no_good (buf : list Js.number) (sampleRate : Js.number)
    (MAX_SAMPLES : Z) (offsets : list Z) (st : LoopState) :
  Forall (fun lag => (0.9 <? correlationAt buf MAX_SAMPLES lag) = false) offsets ->
  foundGoodCorrelation st = false ->
  exists st',
    offsetLoop buf sampleRate MAX_SAMPLES offsets st = inr st'
    /\ bestOffset st' = bestOffset st
    /\ bestCorrelation st' = bestCorrelation st
    /\ foundGoodCorrelation st' = false.
Proof.
  intros Hall. revert st.
  induction Hall as [|lag offsets Hlag _ IH]; intros st Hfound.
  - exists st. cbn. auto.
  - cbn [offsetLoop]. unfold offsetStep. rewrite Hlag, Hfound. cbn [andb].
    destruct (IH (mkLoop (bestOffset st) (bestCorrelation st) false
                         (correlationAt buf MAX_SAMPLES lag)
                         (<[Z.to_nat lag := Js.fround (correlationAt buf MAX_SAMPLES lag)]>
                            (correlations st)))) as (st' & H1 & H2 & H3 & H4);
      [reflexivity|].
    exists st'. auto.
Qed.

End DetectorFacts.

(** The gate of line 58. *)
Lemma rms_gate (buf : list Js.number) (sampleRate : Js.number) :
  PrimFloat.ltb (rmsOf buf) 0.01 = true ->
  autoCorrelate buf sampleRate = (-1)%float.
Proof. intros H. unfold autoCorrelate. now rewrite H. Qed.

Section ZeroFrames.

Local Open Scope float_scope.

Lemma sample_zeros (n : nat) (i : Z) :
  (0 <= i < Z.of_nat n)%Z -> sample (replicate n 0) i = 0.
Proof.
  intros Hi. unfold sample, Js.getZ.
  destruct (Z.ltb_spec i 0); [lia|].
  rewrite lookup_replicate_2 by lia. reflexivity.
Qed.

(** The sum of the squares of a frame of zeros is 0, so its RMS is the
    square root of 0 over the length. *)
Lemma rmsOf_zeros (n : nat) :
  rmsOf (replicate n 0) = Js.Math_sqrt (0 / Js.ofZ (Z.of_nat n)).
Proof.
  unfold rmsOf. rewrite length_replicate. cbv zeta. do 2 f_equal.
  unfold forLoop.
  assert (H : Forall (fun i => (0 <= i < Z.of_nat n)%Z) (seqZ 0 (Z.of_nat n)))
    by (apply Forall_seqZ; lia).
  induction H as [|i l Hi _ IH]; [reflexivity|].
  cbn [fold_left]. rewrite sample_zeros by exact Hi. exact IH.
Qed.

Lemma zeroFramesSilent_spec (fuel : nat) (k j : Z) :
  zeroFramesSilent fuel k = true ->
  (k <= j < k + Z.of_nat fuel)%Z ->
  (Js.Math_sqrt (0 / Js.ofZ j) <? 0.01) = true.
Proof.
  revert k. induction fuel as [|fuel IH]; intros k H Hj; [lia|].
  cbn [zeroFramesSilent] in H. apply andb_true_iff in H as [Hk Hrest].
  destruct (Z.eq_dec j k) as [->|Hne]; [exact Hk|].
  apply (IH (k + 1)%Z); [exact Hrest|lia].
Qed.

(** The all-zero frame of any length up to 32768 samples, the largest
    frame an analyser node delivers, has no pitch at any sampling rate
    (the empty frame too, though not through the gate: its RMS is NaN). *)
Lemma all_zero_frames (n : nat) (sampleRate : Js.number) :
  (Z.of_nat n <= 32768)%Z -> autoCorrelate (replicate n 0) sampleRate = -1.
Proof.
  intros Hn. destruct n as [|n]; [reflexivity|].
  apply rms_gate. rewrite rmsOf_zeros.
  apply (zeroFramesSilent_spec (Z.to_nat 32768) 1); [|lia].
  vm_compute. reflexivity.
Qed.

End ZeroFrames.

(** C7: the silence gate. For every buffer whose RMS, as the detector
    computes it, is below the noise floor 0.01, and for every sampling
    rate, [autoCorrelate] returns the no-pitch sentinel -1 at once (the
    lags are not examined). The all-zero frame is such a buffer
    ([all_zero_frames]). *)
Theorem silence_gate (buf : list Js.number) (sampleRate : Js.number) :
  PrimFloat.ltb (rmsOf buf) 0.01 = true ->
  autoCorrelate buf sampleRate = (-1)%float.
Proof. intros H. unfold autoCorrelate. now rewrite H. Qed.

Lemma silence_gate_witness :
  autoCorrelate silence 44100 = (-1)%float.
Proof.
  apply (silence_gate silence 44100). vm_compute. reflexivity.
Defined.

(** The boundary cases of the gate: silence, and a constant frame just
    below the floor. *)
Example silence_gate_examples :
  PrimFloat.ltb (rmsOf silence) 0.01 = true
  /\ rmsOf (Float32Array (replicate 2048 0.0099%float))
     = 0.009899999946355556%float
  /\ autoCorrelate (Float32Array (replicate 2048 0.0099%float)) 48000
     = (-1)%float.
Proof. repeat split; vm_compute; reflexivity. Qed.

(** C2, as stated, fails. On the frame [risingWave] the RMS is 0.70, the
    candidate lags 2..6 have correlations 0, 0.40625, 0.75, 0.34375 and 0,
    none above 0.9; the highest is lag 4 with 0.75, above the minimal floor
    0.01, so the claim promises sampleRate / 4 = 11025; the code returns
    -1. *)
Lemma no_fallback_to_best_lag :
  PrimFloat.ltb (rmsOf risingWave) 0.01 = false
  /\ candidateLags 8 = [2; 3; 4; 5; 6]
  /\ Float32Array risingWave = risingWave
  /\ map (correlationAt risingWave 8) (candidateLags 8)
     = [0; 0.40625; 0.75; 0.34375; 0]%float
  /\ bestLag risingWave 8 (candidateLags 8) = Some (4, 0.75%float)
  /\ PrimFloat.ltb 0.01 0.75 = true
  /\ autoCorrelate risingWave 44100 = (-1)%float
  /\ autoCorrelate risingWave 44100 <> (44100 / 4)%float.
Proof.
  repeat split; try (vm_compute; reflexivity).
  vm_compute. intros H.
  apply (f_equal (fun x => PrimFloat.ltb x 0)) in H. vm_compute in H.
  discriminate.
Qed.

(** C2 (amended): for every input buffer whose RMS is at least the noise
    floor, if no candidate lag (from 2 to half the buffer length, less
    two) has a correlation above the 0.9 threshold, [autoCorrelate] returns
    the no-pitch sentinel -1: the best lag is tracked only among lags
    above the threshold, so there is no fallback to the highest-correlation
    lag. *)
Theorem no_good_correlation_no_pitch (buf : list Js.number)
    (sampleRate : Js.number) :
  PrimFloat.ltb (rmsOf buf) 0.01 = false ->
  (forall lag, In lag (candidateLags (Z.of_nat (length buf) / 2)) ->
     PrimFloat.ltb 0.9
       (correlationAt buf (Z.of_nat (length buf) / 2) lag) = false) ->
  autoCorrelate buf sampleRate = (-1)%float.
Proof.
  intros Hrms Hall. unfold autoCorrelate. rewrite Hrms.
  destruct (offsetLoop_no_good buf sampleRate (Z.of_nat (length buf) / 2)
              (candidateLags (Z.of_nat (length buf) / 2))
              (mkLoop (-1) 0 false 1
                 (replicate (Z.to_nat (Z.of_nat (length buf) / 2)) 0%float)))
    as (st' & Hloop & _ & Hbest & _).
  - apply List.Forall_forall. exact Hall.
  - reflexivity.
  - cbv zeta. rewrite Hloop, Hbest. reflexivity.
Qed.

Lemma no_good_correlation_no_pitch_witness :
  autoCorrelate risingWave 44100 = (-1)%float.
Proof.
  apply (no_good_correlation_no_pitch risingWave 44100).
  - vm_compute. reflexivity.
  - intros lag Hin. vm_compute in Hin.
    repeat (destruct Hin as [<-|Hin]; [vm_compute; reflexivity|]).
    destruct Hin.
Defined.

(** A periodic frame on which a pitch is found: a sawtooth of period 20
    samples at 44100 Hz, detected within 1% of 2205 Hz. *)
Example detects_sawtooth :
  autoCorrelate
    (Float32Array (map (fun i => Js.ofZ (i mod 20 - 10) / 20)%float
                       (seqZ 0 256))) 44100
  = 2202.9768716952835%float.
Proof. vm_compute. reflexivity. Qed.

(** ** The note mapper *)

(** C8: for every non-finite (NaN, +-infinity) or non-positive frequency,
    [getNoteFromFrequency] returns the default record: note A, octave 4,
    0 cents, frequency 440, silent flag set; for every finite positive
    frequency it returns a record of its own computation (silent flag
    down, the input frequency echoed). No path of the function throws:
    the embedding is a total function. Both hold for every implementation
    of [Math.log]. *)
Theorem invalid_frequency_default (M : Js.MathImpl) (f : Js.number) :
  (Js.isFinite f = false \/ PrimFloat.leb f 0 = true ->
   getNoteFromFrequency M f = mkTunerData (Some NoteName.A) 4 0 440 true)
  /\ (Js.isFinite f = true -> PrimFloat.leb f 0 = false ->
      isSilent (getNoteFromFrequency M f) = false
      /\ frequency (getNoteFromFrequency M f) = f).
Proof.
  unfold getNoteFromFrequency. split.
  - intros [H|H]; rewrite H; cbn; [reflexivity|now rewrite orb_true_r].
  - intros H1 H2. rewrite H1, H2. cbn. auto.
Qed.

Lemma invalid_frequency_default_witness :
  getNoteFromFrequency Js.refMath PrimFloat.nan
  = mkTunerData (Some NoteName.A) 4 0 440 true
  /\ getNoteFromFrequency Js.refMath (-440)
     = mkTunerData (Some NoteName.A) 4 0 440 true
  /\ isSilent (getNoteFromFrequency Js.refMath 440) = false.
Proof.
  split; [|split].
  - exact (proj1 (invalid_frequency_default Js.refMath PrimFloat.nan)
                 (or_introl eq_refl)).
  - exact (proj1 (invalid_frequency_default Js.refMath (-440)%float)
                 (or_intror eq_refl)).
  - exact (proj1 (proj2 (invalid_frequency_default Js.refMath 440%float)
                        eq_refl eq_refl)).
Defined.

Example invalid_frequencies :
  map (getNoteFromFrequency Js.refMath)
      [PrimFloat.nan; PrimFloat.infinity; PrimFloat.neg_infinity;
       0; -0; -440]%float
  = replicate 6 (mkTunerData (Some NoteName.A) 4 0 440 true).
Proof. vm_compute. reflexivity. Qed.

Example valid_frequencies :
  map (fun f => let r := getNoteFromFrequency Js.refMath f in
                (note r, octave r, cents r))
      [440; 261.6255653005986; 450; 27.5; 4186.009044809578]%float
  = [(Some NoteName.A, 4, 0); (Some NoteName.C, 4, 0);
     (Some NoteName.A, 4, 38); (Some NoteName.A, 0, 0);
     (Some NoteName.C, 8, 0)]%float.
Proof. vm_compute. reflexivity. Qed.

(** ** The round trip of a MIDI pitch *)

Section RoundTripFacts.

Local Open Scope float_scope.

(** Past its guard, [getNoteFromFrequency] is [noteOfNum] on the fractional
    MIDI number. *)
Lemma getNote_noteOfNum (M : Js.MathImpl) (frequency : Js.number) :
  negb (Js.isFinite frequency) || (frequency <=? 0) = false ->
  getNoteFromFrequency M frequency
  = noteOfNum frequency (fractionalMidi M frequency).
Proof. intros Hg. unfold getNoteFromFrequency. now rewrite Hg. Qed.

(** The check covers every platform within [k] units of the reference. *)
Lemma roundTripCheck_sound (k : nat) (M : Js.MathImpl) (m : Z) :
  (0 <= m <= 127)%Z ->
  Accurate k M ->
  roundTripCheck k m = true ->
  isPitch m (getNoteFromFrequency M (midiToFrequency M (Js.ofZ m))) = true.
Proof.
  intros Hm (Hpow & Hlog & Hlog2) Hchk. unfold roundTripCheck in Hchk.
  rewrite forallb_forall in Hchk.
  pose proof (Hlog m _ Hm (Hpow m Hm)) as Hl.
  specialize (Hchk _ (Hpow m Hm)). cbn beta zeta in Hchk.
  unfold midiToFrequency. fold (pitchExponent m).
  set (frequency := 440 * Js.Math_pow M 2 (pitchExponent m)) in *.
  apply andb_true_iff in Hchk as [Hg Hlogs].
  apply negb_true_iff in Hg.
  rewrite (getNote_noteOfNum M frequency Hg). unfold fractionalMidi.
  rewrite forallb_forall in Hlogs.
  specialize (Hlogs _ Hl). cbn beta in Hlogs.
  rewrite forallb_forall in Hlogs.
  apply Hlogs, Hlog2.
Qed.

(** The check, run on the 128 pitches for platforms within 4 units in the
    last place of the reference. *)
Lemma all_pitches_checked : forallb (roundTripCheck 4) (seqZ 0 128) = true.
Proof. vm_compute. reflexivity. Qed.

Lemma pitch_checked (m : Z) : (0 <= m <= 127)%Z -> roundTripCheck 4 m = true.
Proof.
  intros Hm. pose proof all_pitches_checked as H.
  rewrite forallb_forall in H. apply H.
  apply list_elem_of_In, elem_of_seqZ. lia.
Qed.

(** The reference is within any distance of itself. *)
Lemma refMath_accurate (k : nat) : Accurate k Js.refMath.
Proof. repeat split; intros; left; reflexivity. Qed.

End RoundTripFacts.

(** The reference with every power one unit in the last place lower: a
    platform within 4 units of the reference. *)
Lemma lowPow_accurate :
  Accurate 4 (Js.mkMath Js.ref_log (fun b y => next_down (Js.ref_pow b y))).
Proof.
  repeat split; intros; cbn [Js.Math_pow Js.Math_log].
  - right. apply in_or_app. right. left. reflexivity.
  - left. reflexivity.
  - left. reflexivity.
Qed.

(** C4: the round trip, in binary64. For every MIDI pitch m in 0..127 and
    every platform whose [Math.pow] and [Math.log] are within 4 units in
    the last place of the reference implementation's (on the arguments
    the round trip hands them), [getNoteFromFrequency] applied to
    440 * Math.pow(2, (m - 69) / 12) returns the note of the table at
    m mod 12, the octave floor(m / 12) - 1, and cents 0 or -1: within the
    +-1 the claim allows for rounding; the record is not the silent one and
    carries the frequency it was given. *)
Theorem midi_round_trip (M : Js.MathImpl) (m : Z) :
  Accurate 4 M ->
  0 <= m <= 127 ->
  let r := getNoteFromFrequency M (midiToFrequency M (Js.ofZ m)) in
  note r = NOTE_STRINGS !! Z.to_nat (m mod 12)
  /\ is_Some (note r)
  /\ PrimFloat.eqb (octave r) (Js.ofZ (m / 12 - 1)) = true
  /\ (PrimFloat.eqb (cents r) 0 = true
      \/ PrimFloat.eqb (cents r) (-1) = true)
  /\ isSilent r = false
  /\ frequency r = midiToFrequency M (Js.ofZ m).
Proof.
  intros Hacc Hm r.
  pose proof (roundTripCheck_sound 4 M m Hm Hacc (pitch_checked m Hm)) as Hok.
  fold r in Hok. unfold isPitch in Hok.
  apply andb_true_iff in Hok as [Hok Hsil].
  apply andb_true_iff in Hok as [Hok _].
  apply andb_true_iff in Hok as [Hok Hcents].
  apply andb_true_iff in Hok as [Hnote Hoct].
  apply bool_decide_eq_true in Hnote. apply negb_true_iff in Hsil.
  apply orb_true_iff in Hcents.
  split; [exact Hnote|]. split.
  { rewrite Hnote. apply lookup_lt_is_Some_2. cbn.
    pose proof (Z.mod_pos_bound m 12 ltac:(lia)). lia. }
  split; [exact Hoct|]. split; [exact Hcents|]. split; [exact Hsil|].
  subst r. unfold getNoteFromFrequency in *.
  destruct (negb (Js.isFinite (midiToFrequency M (Js.ofZ m)))
            || (midiToFrequency M (Js.ofZ m) <=? 0)%float);
    [discriminate Hsil|reflexivity].
Qed.

Lemma midi_round_trip_witness :
  let r :=
    getNoteFromFrequency Js.refMath (midiToFrequency Js.refMath (Js.ofZ 60)) in
  note r = NOTE_STRINGS !! Z.to_nat (60 mod 12)
  /\ is_Some (note r)
  /\ PrimFloat.eqb (octave r) (Js.ofZ (60 / 12 - 1)) = true
  /\ (PrimFloat.eqb (cents r) 0 = true
      \/ PrimFloat.eqb (cents r) (-1) = true)
  /\ isSilent r = false
  /\ frequency r = midiToFrequency Js.refMath (Js.ofZ 60).
Proof.
  apply (midi_round_trip Js.refMath 60).
  - exact (refMath_accurate 4).
  - lia.
Defined.

(** Both values of the cents occur. On the reference every pitch comes
    back with 0 cents; on the platform whose powers are one unit in the
    last place lower, pitch 0 (a C of octave -1) comes back 1 cent low,
    and so do 21 other pitches. *)
Example round_trip_cents :
  forallb
    (fun m =>
       PrimFloat.eqb
         (cents (getNoteFromFrequency Js.refMath
                   (midiToFrequency Js.refMath (Js.ofZ m)))) 0)
    (seqZ 0 128) = true
  /\ (let M := Js.mkMath Js.ref_log (fun b y => next_down (Js.ref_pow b y)) in
      let r := getNoteFromFrequency M (midiToFrequency M (Js.ofZ 0)) in
      (note r, octave r, cents r) = (Some NoteName.C, (-1)%float, (-1)%float))
  /\ (let M := Js.mkMath Js.ref_log (fun b y => next_down (Js.ref_pow b y)) in
      List.filter
        (fun m =>
           PrimFloat.eqb
             (cents (getNoteFromFrequency M (midiToFrequency M (Js.ofZ m))))
             (-1))
        (seqZ 0 128)
      = [0; 10; 11; 12; 15; 17; 24; 27; 36; 38; 39; 41; 42; 44; 45; 46; 63;
         108; 111; 118; 120; 123]).
Proof. repeat split; vm_compute; reflexivity. Qed.

(** ** The range of the note mapper *)

Section RangeFacts.

Local Open Scope float_scope.





End RangeFacts.



(** * Further properties of the code *)

(** ** The metronome engine: what a tick schedules *)

Section EngineTicks.
Import MetronomeEngine EngineLog.

Local Open Scope float_scope.

Lemma scheduleNote_out (now time : Js.number) (beatNumber : Z) (e : Engine) :
  scheduleNote now beatNumber time e
  = emit (noteEvents now (grid e) (isPlaying e) (beatNumber, time)) e.
Proof.
  unfold scheduleNote, noteEvents, emit. cbn.
  destruct (bool_decide _ || negb _).
  - reflexivity.
  - destruct (tones _) as [freqs gainVal]. cbn. now rewrite <- app_assoc.
Qed.

(** The turns of the scheduler's loop: the steps it takes, with the times
    it schedules them at. *)
Lemma schedulerLoop_trace (fuel : nat) (now : Js.number) (e : Engine) :
  exists steps : list (Z * Js.number),
    (length steps <= fuel)%nat
    /\ out (schedulerLoop fuel now e)
       = out e ++ concat (map (noteEvents now (grid e) (isPlaying e)) steps)
    /\ map fst steps
       = walk (Z.of_nat (length (grid e))) (currentStep e) (length steps)
    /\ currentStep (schedulerLoop fuel now e)
       = walkEnd (Z.of_nat (length (grid e))) (currentStep e) (length steps)
    /\ Forall (fun bt => (snd bt <? now + scheduleAheadTime) = true) steps
    /\ grid (schedulerLoop fuel now e) = grid e
    /\ isPlaying (schedulerLoop fuel now e) = isPlaying e
    /\ stepInterval (schedulerLoop fuel now e) = stepInterval e.
Proof.
  revert e. induction fuel as [|fuel IH]; intros e.
  - exists []. cbn. rewrite app_nil_r. repeat split; auto.
  - cbn [schedulerLoop].
    destruct (nextNoteTime e <? now + scheduleAheadTime) eqn:Hlt.
    + rewrite scheduleNote_out.
      set (evs := noteEvents now (grid e) (isPlaying e) (currentStep e, nextNoteTime e)).
      destruct (IH (nextNote (emit evs e)))
        as (steps & Hlen & Hout & Hwalk & Hend & Hall & Hg & Hp & Hs).
      cbn [nextNote emit grid isPlaying currentStep out stepInterval] in *.
      exists ((currentStep e, nextNoteTime e) :: steps).
      rewrite Hout, Hend, Hg, Hp, Hs. cbn [map concat length fst walk walkEnd].
      rewrite <- app_assoc. unfold nextStep. rewrite <- Hwalk.
      repeat split; auto; lia.
    + exists []. cbn. rewrite app_nil_r. repeat split; auto; lia.
Qed.

Lemma beats_app (l1 l2 : list Event) : beats (l1 ++ l2) = beats l1 ++ beats l2.
Proof. apply omap_app. Qed.

Lemma beats_noteEvents (now : Js.number) (g : list BeatIntensity) (p : bool)
    (steps : list (Z * Js.number)) :
  beats (concat (map (noteEvents now g p) steps)) = map fst steps.
Proof.
  induction steps as [|bt steps IH]; [reflexivity|].
  cbn [map concat]. rewrite beats_app, IH. unfold noteEvents.
  unfold beats at 1. cbn [omap]. f_equal.
  destruct (bool_decide _ || negb _); [reflexivity|].
  induction (fst (tones _)) as [|f fs IHf]; [reflexivity|exact IHf].
Qed.

Lemma clicks_noteEvents_length (now : Js.number) (g : list BeatIntensity)
    (p : bool) (steps : list (Z * Js.number)) :
  (length (List.filter isClick (concat (map (noteEvents now g p) steps)))
   <= 2 * length steps)%nat.
Proof.
  induction steps as [|bt steps IH]; [cbn; lia|].
  cbn [map concat length]. rewrite List.filter_app, length_app.
  assert (length (List.filter isClick (noteEvents now g p bt)) <= 2)%nat; [|lia].
  unfold noteEvents. cbn [List.filter isClick].
  destruct (bool_decide _ || negb _); [cbn; lia|].
  etransitivity; [apply List.filter_length_le|]. rewrite length_map.
  destruct (Js.getZ g (fst bt)) as [[]|]; cbn; lia.
Qed.

Lemma walk_length (n c : Z) (k : nat) : length (walk n c k) = k.
Proof. revert c. induction k as [|k IH]; intros c; cbn; auto. Qed.

(** From a step of the grid, the walk is the count modulo the length. *)
Lemma walk_in_range (n c : Z) (k : nat) :
  (0 <= c < n)%Z ->
  walk n c k = map (fun j => ((c + Z.of_nat j) mod n)%Z) (seq 0 k)
  /\ walkEnd n c k = ((c + Z.of_nat k) mod n)%Z.
Proof.
  revert c. induction k as [|k IH]; intros c Hc.
  - cbn. rewrite Z.add_0_r, Z.mod_small by lia. auto.
  - cbn [walk walkEnd].
    assert (Hn : (0 <= nextStep n c < n)%Z).
    { unfold nextStep. destruct (Z.geb_spec (c + 1) n); lia. }
    assert (Hnext : forall j, ((nextStep n c + j) mod n = (c + (1 + j)) mod n)%Z).
    { intros j. unfold nextStep. destruct (Z.geb_spec (c + 1) n).
      - replace (c + (1 + j))%Z with (j + 1 * n)%Z by lia.
        now rewrite Z.mod_add by lia.
      - f_equal. lia. }
    destruct (IH _ Hn) as (-> & ->). split.
    + cbn [seq map]. rewrite Z.add_0_r, Z.mod_small by lia. f_equal.
      rewrite <- seq_shift, map_map. apply map_ext. intros j.
      rewrite Hnext. f_equal. lia.
    + rewrite Hnext. f_equal. lia.
Qed.

End EngineTicks.

Section EngineTickFacts.
Import MetronomeEngine EngineLog.

Local Open Scope float_scope.

(** The fields of a record built by [mkEngine]. *)
Lemma mkEngine_fields (p : bool) (t : Js.number) (id : bool) (c : Z)
    (b : Js.number) (g : list BeatIntensity) (i : Js.number) (o : list Event) :
  isPlaying (mkEngine p t id c b g i o) = p
  /\ timerID (mkEngine p t id c b g i o) = id
  /\ currentStep (mkEngine p t id c b g i o) = c
  /\ grid (mkEngine p t id c b g i o) = g
  /\ out (mkEngine p t id c b g i o) = o.
Proof. repeat split. Qed.

(** A tick of a playing engine: the loop runs on the engine with its clock
    caught up, then the timer is armed. *)
Lemma scheduler_playing (now : Js.number) (e : Engine) :
  isPlaying e = true ->
  exists e' : Engine,
    grid e' = grid e /\ isPlaying e' = true /\ out e' = out e
    /\ currentStep e' = currentStep e
    /\ nextNoteTime e'
       = (if nextNoteTime e <? now then now else nextNoteTime e)
    /\ scheduler now e
       = mkEngine (isPlaying (schedulerLoop 100 now e'))
                  (nextNoteTime (schedulerLoop 100 now e')) true
                  (currentStep (schedulerLoop 100 now e'))
                  (bpm (schedulerLoop 100 now e'))
                  (grid (schedulerLoop 100 now e'))
                  (stepInterval (schedulerLoop 100 now e'))
                  (out (schedulerLoop 100 now e') ++ [Rearm lookahead]).
Proof.
  intros Hp. unfold scheduler. rewrite Hp. cbn [negb].
  destruct (nextNoteTime e <? now).
  - exists (mkEngine true now (timerID e) (currentStep e) (bpm e) (grid e)
                     (stepInterval e) (out e)).
    repeat split; reflexivity.
  - exists e. repeat split; auto.
Qed.

Lemma schedulerLoop_S (fuel : nat) (now : Js.number) (e : Engine) :
  (nextNoteTime e <? now + scheduleAheadTime) = true ->
  schedulerLoop (S fuel) now e
  = schedulerLoop fuel now
      (nextNote (scheduleNote now (currentStep e) (nextNoteTime e) e)).
Proof. intros H. cbn [schedulerLoop]. now rewrite H. Qed.

(** A tick of a playing engine, in full: the loop's steps, then the timer. *)
Lemma scheduler_trace (now : Js.number) (e : Engine) :
  isPlaying e = true ->
  exists steps : list (Z * Js.number),
    (length steps <= 100)%nat
    /\ out (scheduler now e)
       = out e ++ concat (map (noteEvents now (grid e) true) steps)
         ++ [Rearm lookahead]
    /\ map fst steps
       = walk (Z.of_nat (length (grid e))) (currentStep e) (length steps)
    /\ currentStep (scheduler now e)
       = walkEnd (Z.of_nat (length (grid e))) (currentStep e) (length steps)
    /\ Forall (fun bt => (snd bt <? now + scheduleAheadTime) = true) steps
    /\ grid (scheduler now e) = grid e
    /\ timerID (scheduler now e) = true
    /\ isPlaying (scheduler now e) = true.
Proof.
  intros Hp.
  destruct (scheduler_playing now e Hp) as (e' & Hg' & Hp' & Ho' & Hc' & _ & ->).
  destruct (schedulerLoop_trace 100 now e')
    as (steps & Hlen & Hout & Hwalk & Hend & Hall & Hg & Hpl & _).
  rewrite Hg', Hp', Hc', Ho' in *.
  exists steps.
  match goal with
  | |- context [mkEngine ?p ?t ?id ?c ?b ?g ?i ?o] =>
      destruct (mkEngine_fields p t id c b g i o) as (-> & -> & -> & -> & ->)
  end.
  rewrite Hout, Hend, Hg, Hpl, <- app_assoc.
  split; [exact Hlen|]. split; [reflexivity|]. split; [exact Hwalk|].
  split; [reflexivity|]. split; [exact Hall|]. auto.
Qed.

Lemma clickTimes_app (l1 l2 : list Event) :
  clickTimes (l1 ++ l2) = clickTimes l1 ++ clickTimes l2.
Proof. apply omap_app. Qed.

Lemma clickTimes_noteEvents (now : Js.number) (g : list BeatIntensity)
    (p : bool) (bt : Z * Js.number) :
  Forall (fun t => t = Js.Math_max now (snd bt))
         (clickTimes (noteEvents now g p bt)).
Proof.
  unfold noteEvents, clickTimes. cbn [omap].
  destruct (bool_decide _ || negb _); [constructor|].
  induction (fst (tones _)) as [|f fs IH]; cbn; constructor; auto.
Qed.

End EngineTickFacts.

(** X1. One tick of a playing engine is bounded: it schedules at most 100
    steps, at most two tones for each, then arms the timer for the next
    tick, once, and holds its handle. *)
Theorem scheduler_tick_bounded (now : Js.number) (e : MetronomeEngine.Engine) :
  MetronomeEngine.isPlaying e = true ->
  exists evs : list MetronomeEngine.Event,
    MetronomeEngine.out (MetronomeEngine.scheduler now e)
    = MetronomeEngine.out e ++ evs
      ++ [MetronomeEngine.Rearm MetronomeEngine.lookahead]
    /\ (length (EngineLog.beats evs) <= 100)%nat
    /\ (length (List.filter MetronomeEngine.isClick evs)
        <= 2 * length (EngineLog.beats evs))%nat
    /\ ~ In (MetronomeEngine.Rearm MetronomeEngine.lookahead) evs
    /\ MetronomeEngine.timerID (MetronomeEngine.scheduler now e) = true.
Proof.
  intros Hp.
  destruct (scheduler_trace now e Hp)
    as (steps & Hlen & Hout & _ & _ & _ & _ & Ht & _).
  exists (concat (map (EngineLog.noteEvents now (MetronomeEngine.grid e) true) steps)).
  rewrite beats_noteEvents, length_map.
  repeat split; auto using clicks_noteEvents_length.
  intros Hin. apply in_concat in Hin. destruct Hin as (l & Hl & Hin).
  apply in_map_iff in Hl. destruct Hl as (bt & <- & _).
  unfold EngineLog.noteEvents in Hin. destruct Hin as [Hin|Hin]; [discriminate|].
  destruct (bool_decide _ || negb _); [contradiction|].
  apply in_map_iff in Hin. destruct Hin as (f & Hf & _). discriminate.
Qed.

Lemma scheduler_tick_bounded_witness :
  exists evs : list MetronomeEngine.Event,
    MetronomeEngine.out
      (MetronomeEngine.scheduler 0
         (MetronomeEngine.mkEngine true 0.05 false 0 120 [STRONG; WEAK] 0.5 []))
    = MetronomeEngine.out
        (MetronomeEngine.mkEngine true 0.05 false 0 120 [STRONG; WEAK] 0.5 [])
      ++ evs ++ [MetronomeEngine.Rearm MetronomeEngine.lookahead]
    /\ (length (EngineLog.beats evs) <= 100)%nat
    /\ (length (List.filter MetronomeEngine.isClick evs)
        <= 2 * length (EngineLog.beats evs))%nat
    /\ ~ In (MetronomeEngine.Rearm MetronomeEngine.lookahead) evs
    /\ MetronomeEngine.timerID
         (MetronomeEngine.scheduler 0
            (MetronomeEngine.mkEngine true 0.05 false 0 120 [STRONG; WEAK] 0.5 []))
       = true.
Proof.
  exact (scheduler_tick_bounded 0
           (MetronomeEngine.mkEngine true 0.05 false 0 120 [STRONG; WEAK] 0.5 [])
           eq_refl).
Defined.

(** X2. From a step of its grid, a tick visits the steps in order, round
    the grid: the [j]-th step it schedules is the current step plus [j]
    modulo the grid's length, every beat number it hands to the UI callback
    is a step of the grid, and the step it stops at is again one. *)
Theorem scheduler_walks_grid (now : Js.number) (e : MetronomeEngine.Engine) :
  MetronomeEngine.isPlaying e = true ->
  0 <= MetronomeEngine.currentStep e
    < Z.of_nat (length (MetronomeEngine.grid e)) ->
  exists (evs : list MetronomeEngine.Event) (k : nat),
    MetronomeEngine.out (MetronomeEngine.scheduler now e)
    = MetronomeEngine.out e ++ evs
      ++ [MetronomeEngine.Rearm MetronomeEngine.lookahead]
    /\ EngineLog.beats evs
       = map (fun j => (MetronomeEngine.currentStep e + Z.of_nat j)
                       mod Z.of_nat (length (MetronomeEngine.grid e)))
             (seq 0 k)
    /\ Forall (fun b => 0 <= b < Z.of_nat (length (MetronomeEngine.grid e)))
              (EngineLog.beats evs)
    /\ MetronomeEngine.currentStep (MetronomeEngine.scheduler now e)
       = (MetronomeEngine.currentStep e + Z.of_nat k)
         mod Z.of_nat (length (MetronomeEngine.grid e))
    /\ MetronomeEngine.grid (MetronomeEngine.scheduler now e)
       = MetronomeEngine.grid e.
Proof.
  intros Hp Hc.
  destruct (scheduler_trace now e Hp)
    as (steps & _ & Hout & Hwalk & Hend & _ & Hg & _).
  destruct (walk_in_range _ _ (length steps) Hc) as (Hw & Hw').
  exists (concat (map (EngineLog.noteEvents now (MetronomeEngine.grid e) true) steps)),
         (length steps).
  rewrite beats_noteEvents, Hwalk, Hend, Hw, Hw'.
  repeat split; auto.
  apply List.Forall_forall. intros b Hb. apply in_map_iff in Hb.
  destruct Hb as (j & <- & _). apply Z.mod_pos_bound. lia.
Qed.

Lemma scheduler_walks_grid_witness :
  exists (evs : list MetronomeEngine.Event) (k : nat),
    MetronomeEngine.out
      (MetronomeEngine.scheduler 0
         (MetronomeEngine.mkEngine true 0.05 false 1 120 [STRONG; WEAK] 0.02 []))
    = MetronomeEngine.out
        (MetronomeEngine.mkEngine true 0.05 false 1 120 [STRONG; WEAK] 0.02 [])
      ++ evs ++ [MetronomeEngine.Rearm MetronomeEngine.lookahead]
    /\ EngineLog.beats evs
       = map (fun j =>
                (MetronomeEngine.currentStep
                   (MetronomeEngine.mkEngine true 0.05 false 1 120
                                             [STRONG; WEAK] 0.02 [])
                 + Z.of_nat j)
                mod Z.of_nat
                      (length
                         (MetronomeEngine.grid
                            (MetronomeEngine.mkEngine true 0.05 false 1 120
                                                      [STRONG; WEAK] 0.02 []))))
             (seq 0 k)
    /\ Forall
         (fun b =>
            0 <= b
            < Z.of_nat
                (length
                   (MetronomeEngine.grid
                      (MetronomeEngine.mkEngine true 0.05 false 1 120
                                                [STRONG; WEAK] 0.02 []))))
         (EngineLog.beats evs)
    /\ MetronomeEngine.currentStep
         (MetronomeEngine.scheduler 0
            (MetronomeEngine.mkEngine true 0.05 false 1 120 [STRONG; WEAK] 0.02 []))
       = (MetronomeEngine.currentStep
            (MetronomeEngine.mkEngine true 0.05 false 1 120 [STRONG; WEAK] 0.02 [])
          + Z.of_nat k)
         mod Z.of_nat
               (length
                  (MetronomeEngine.grid
                     (MetronomeEngine.mkEngine true 0.05 false 1 120
                                               [STRONG; WEAK] 0.02 [])))
    /\ MetronomeEngine.grid
         (MetronomeEngine.scheduler 0
            (MetronomeEngine.mkEngine true 0.05 false 1 120 [STRONG; WEAK] 0.02 []))
       = MetronomeEngine.grid
           (MetronomeEngine.mkEngine true 0.05 false 1 120 [STRONG; WEAK] 0.02 []).
Proof.
  apply (scheduler_walks_grid 0
           (MetronomeEngine.mkEngine true 0.05 false 1 120 [STRONG; WEAK] 0.02 []));
    [reflexivity|cbn; lia].
Defined.

(** The walk, run: from step 1 of a two-step grid, three steps fit the
    window. *)
Example tick_on_two_steps :
  EngineLog.beats
    (MetronomeEngine.out
       (MetronomeEngine.scheduler 0
          (MetronomeEngine.mkEngine true 0.05 false 1 120 [STRONG; WEAK] 0.02 [])))
  = [1; 0; 1].
Proof. vm_compute. reflexivity. Qed.

(** X3. No tone is scheduled in the past: every tone a tick instructs
    starts at the clock reading of the tick or later. *)
Theorem clicks_not_in_past (now : Js.number) (e : MetronomeEngine.Engine) :
  exists evs : list MetronomeEngine.Event,
    MetronomeEngine.out (MetronomeEngine.scheduler now e)
    = MetronomeEngine.out e ++ evs
    /\ Forall (fun t => PrimFloat.leb now t = true) (EngineLog.clickTimes evs).
Proof.
  destruct (MetronomeEngine.isPlaying e) eqn:Hp.
  - destruct (scheduler_trace now e Hp)
      as (steps & _ & Hout & _ & _ & Hall & _).
    eexists. split; [exact Hout|]. clear Hout.
    rewrite clickTimes_app. apply Forall_app. split; [|constructor].
    induction Hall as [|bt steps Hbt Hall IH]; [constructor|].
    cbn [map concat]. rewrite clickTimes_app. apply Forall_app. split; [|exact IH].
    eapply Forall_impl; [apply clickTimes_noteEvents|].
    intros t ->. cbn beta in Hbt.
    destruct (ltb_not_nan _ _ Hbt) as (Ht & Hn).
    apply add_nan_l in Hn.
    now apply Math_max_ge.
  - exists []. unfold MetronomeEngine.scheduler. rewrite Hp. cbn.
    rewrite app_nil_r. split; [reflexivity|constructor].
Qed.

Section StaleStep.
Import MetronomeEngine EngineLog.

Local Open Scope float_scope.

Lemma noteEvents_outside (now : Js.number) (g : list BeatIntensity)
    (bt : Z * Js.number) :
  (Z.of_nat (length g) <= fst bt)%Z ->
  noteEvents now g true bt = defaultStep now bt.
Proof.
  intros Hb. unfold noteEvents, defaultStep, Js.getZ.
  destruct (Z.ltb_spec (fst bt) 0); [lia|].
  rewrite lookup_ge_None_2 by lia. reflexivity.
Qed.

End StaleStep.

(** X4. A grid shortened under a playing engine: when the current step
    lies past the end of the grid, the next tick still schedules that step,
    hands its number to the UI callback and, the read of the grid being
    [undefined], instructs the default tone; every step after it is a step
    of the grid, step 0 first. *)
Theorem stale_step_default_tone (now : Js.number) (e : MetronomeEngine.Engine) :
  MetronomeEngine.isPlaying e = true ->
  0 < Z.of_nat (length (MetronomeEngine.grid e))
    <= MetronomeEngine.currentStep e ->
  PrimFloat.ltb (MetronomeEngine.nextNoteTime e) now = false ->
  PrimFloat.ltb (MetronomeEngine.nextNoteTime e)
                (PrimFloat.add now MetronomeEngine.scheduleAheadTime) = true ->
  exists (evs : list MetronomeEngine.Event) (k : nat),
    MetronomeEngine.out (MetronomeEngine.scheduler now e)
    = MetronomeEngine.out e
      ++ MetronomeEngine.defaultStep now
           (MetronomeEngine.currentStep e, MetronomeEngine.nextNoteTime e)
      ++ evs ++ [MetronomeEngine.Rearm MetronomeEngine.lookahead]
    /\ EngineLog.beats evs
       = map (fun j => Z.of_nat j mod Z.of_nat (length (MetronomeEngine.grid e)))
             (seq 0 k).
Proof.
  intros Hp Hc Hge Hlt.
  destruct (scheduler_playing now e Hp)
    as (e' & Hg' & Hp' & Ho' & Hc' & Ht' & ->).
  rewrite Hge in Ht'.
  rewrite (schedulerLoop_S 99 now e') by (now rewrite Ht').
  rewrite scheduleNote_out, Hg', Hp', Hc', Ht'.
  rewrite noteEvents_outside by (cbn; lia).
  set (e1 := MetronomeEngine.nextNote _).
  assert (He1 : MetronomeEngine.grid e1 = MetronomeEngine.grid e
                /\ MetronomeEngine.isPlaying e1 = true
                /\ MetronomeEngine.currentStep e1 = 0
                /\ MetronomeEngine.out e1
                   = MetronomeEngine.out e
                     ++ MetronomeEngine.defaultStep now
                          (MetronomeEngine.currentStep e,
                           MetronomeEngine.nextNoteTime e)).
  { subst e1. cbn. rewrite Hg', Hp', Ho', Hc'. repeat split.
    destruct (Z.geb_spec (MetronomeEngine.currentStep e + 1)
                         (Z.of_nat (length (MetronomeEngine.grid e)))); lia. }
  destruct He1 as (Hg1 & Hp1 & Hc1 & Ho1).
  destruct (schedulerLoop_trace 99 now e1)
    as (steps & _ & Hout & Hwalk & _).
  rewrite Hg1, Hp1, Hc1, Ho1 in *.
  destruct (walk_in_range (Z.of_nat (length (MetronomeEngine.grid e))) 0
                          (length steps) ltac:(lia)) as (Hw & _).
  exists (concat (map (EngineLog.noteEvents now (MetronomeEngine.grid e) true) steps)),
         (length steps).
  match goal with
  | |- context [MetronomeEngine.mkEngine ?p ?t ?id ?c ?b ?g ?i ?o] =>
      destruct (mkEngine_fields p t id c b g i o) as (_ & _ & _ & _ & ->)
  end.
  rewrite Hout, <- !app_assoc. split; [reflexivity|].
  now rewrite beats_noteEvents, Hwalk, Hw.
Qed.

Lemma stale_step_default_tone_witness :
  exists (evs : list MetronomeEngine.Event) (k : nat),
    MetronomeEngine.out
      (MetronomeEngine.scheduler 0
         (MetronomeEngine.mkEngine true 0.05 true 10 120
                                   [STRONG; WEAK; WEAK; WEAK] 0.5 []))
    = MetronomeEngine.out
        (MetronomeEngine.mkEngine true 0.05 true 10 120
                                  [STRONG; WEAK; WEAK; WEAK] 0.5 [])
      ++ MetronomeEngine.defaultStep 0
           (MetronomeEngine.currentStep
              (MetronomeEngine.mkEngine true 0.05 true 10 120
                                        [STRONG; WEAK; WEAK; WEAK] 0.5 []),
            MetronomeEngine.nextNoteTime
              (MetronomeEngine.mkEngine true 0.05 true 10 120
                                        [STRONG; WEAK; WEAK; WEAK] 0.5 []))
      ++ evs ++ [MetronomeEngine.Rearm MetronomeEngine.lookahead]
    /\ EngineLog.beats evs
       = map (fun j =>
                Z.of_nat j
                mod Z.of_nat
                      (length
                         (MetronomeEngine.grid
                            (MetronomeEngine.mkEngine true 0.05 true 10 120
                               [STRONG; WEAK; WEAK; WEAK] 0.5 []))))
             (seq 0 k).
Proof.
  apply (stale_step_default_tone 0
           (MetronomeEngine.mkEngine true 0.05 true 10 120
                                     [STRONG; WEAK; WEAK; WEAK] 0.5 []));
    [reflexivity|cbn; lia|reflexivity|reflexivity].
Defined.

(** The same run, evaluated: step 10 of a four-step grid sounds the 800 Hz
    default. *)
Example stale_step_run :
  MetronomeEngine.out
    (MetronomeEngine.scheduler 0
       (MetronomeEngine.mkEngine true 0.05 true 10 120
                                 [STRONG; WEAK; WEAK; WEAK] 0.5 []))
  = [ MetronomeEngine.UiStep 10 50;
      MetronomeEngine.Click 800 MetronomeEngine.sine 0.4 0.05;
      MetronomeEngine.Rearm 25 ].
Proof. vm_compute. reflexivity. Qed.

(** ** The synth: voices over time *)

Section VoiceFacts.
Import PolySynth SynthLog.

Local Open Scope nat_scope.

(** [stop] either returns its argument or stops the voice it finds. *)
Lemma stop_spec (now : Js.number) (p : Z) (immediate : bool) (s : Synth) :
  stop now p immediate s = s
  \/ exists ref active,
       mapGet p (activeNotes s) = Some ref
       /\ heap s !! ref = Some active
       /\ isStopped active = false
       /\ stop now p immediate s
          = mkSynth (mapDelete p (activeNotes s))
                    (<[ref := mkVoice (osc active) (gain active) true]> (heap s))
                    (decayMode s)
                    (log s
                     ++ [ CancelScheduledValues (gain active) now;
                          SetTargetAtTime (gain active) 0.0001 now
                            (if immediate then 0.01 else 0.05);
                          OscStop (osc active)
                            (now + (if immediate then 0.05 else 0.3)) ]).
Proof.
  unfold stop.
  destruct (mapGet p (activeNotes s)) as [ref|] eqn:Hget; [|now left].
  destruct (heap s !! ref) as [active|] eqn:Hact; [|now left].
  destruct (isStopped active) eqn:Hst; [now left|].
  right. exists ref, active. auto.
Qed.

(** *** A stopped voice *)

Lemma voice_stop_preserved (now : Js.number) (p : Z) (immediate : bool)
    (s : Synth) (ref : nat) (v : Voice) :
  voiceOf s ref = Some v -> isStopped v = true ->
  voiceOf (stop now p immediate s) ref = Some v.
Proof.
  intros Hv Hs. unfold voiceOf in *.
  destruct (stop_spec now p immediate s)
    as [->|(r & active & Hget & Hact & Hst & ->)]; [exact Hv|]. cbn.
  rewrite list_lookup_insert_ne; [exact Hv|]. congruence.
Qed.

Lemma voice_play_preserved (M : Js.MathImpl) (now : Js.number) (p : Z)
    (s : Synth) (ref : nat) (v : Voice) :
  voiceOf s ref = Some v -> voiceOf (play M now p s) ref = Some v \/
                            isStopped v = false.
Proof.
  intros Hv. destruct (isStopped v) eqn:Hs; [left|now right].
  unfold play.
  set (s1 := if mapHas p (activeNotes s) then stop now p true s else s).
  assert (Hv1 : voiceOf s1 ref = Some v).
  { subst s1. destruct (mapHas _ _); [now apply voice_stop_preserved|exact Hv]. }
  unfold voiceOf in *. cbn [heap].
  rewrite lookup_app_l; [exact Hv1|]. now apply lookup_lt_Some in Hv1.
Qed.

Lemma voice_fold_stop_preserved (now : Js.number) (ks : list Z) (s : Synth)
    (ref : nat) (v : Voice) :
  voiceOf s ref = Some v -> isStopped v = true ->
  voiceOf (fold_left (fun acc midi => stop now midi true acc) ks s) ref = Some v.
Proof.
  revert s. induction ks as [|k ks IH]; intros s Hv Hs; [exact Hv|].
  cbn. apply IH; [now apply voice_stop_preserved|exact Hs].
Qed.

Lemma voice_step_preserved (M : Js.MathImpl) (s : Synth) (op : Op)
    (ref : nat) (v : Voice) :
  voiceOf s ref = Some v -> isStopped v = true ->
  voiceOf (step M s op) ref = Some v.
Proof.
  intros Hv Hs. destruct op; cbn.
  - destruct (voice_play_preserved M now midi s ref v Hv); congruence.
  - now apply voice_stop_preserved.
  - unfold stopAll, voiceOf. cbn [heap].
    now apply voice_fold_stop_preserved.
  - unfold safetyTimeout. destruct (bool_decide _);
      [now apply voice_stop_preserved|exact Hv].
  - exact Hv.
Qed.

Lemma voice_run_preserved (M : Js.MathImpl) (ops : list Op) (s : Synth)
    (ref : nat) (v : Voice) :
  voiceOf s ref = Some v -> isStopped v = true ->
  voiceOf (run M ops s) ref = Some v.
Proof.
  revert s. induction ops as [|op ops IH]; intros s Hv Hs; [exact Hv|].
  cbn. apply IH; [now apply voice_step_preserved|exact Hs].
Qed.

Lemma run_app (M : Js.MathImpl) (ops ops' : list Op) (s : Synth) :
  run M (ops ++ ops') s = run M ops' (run M ops s).
Proof. apply fold_left_app. Qed.

(** The timeout armed for a stopped voice finds another object, or none,
    under its pitch. *)
Lemma stale_timeout (now : Js.number) (midi : Z) (ref : nat) (v : Voice)
    (s : Synth) :
  Inv s -> voiceOf s ref = Some v -> isStopped v = true ->
  safetyTimeout now midi ref s = s.
Proof.
  intros (_ & _ & Hlive) Hv Hs. unfold safetyTimeout.
  destruct (bool_decide_reflect (mapGet midi (activeNotes s) = Some ref)) as [Hget|];
    [|reflexivity].
  destruct (Hlive midi ref (mapGet_In _ _ _ Hget)) as (v' & Hv' & Hns).
  congruence.
Qed.

(** *** The [Map] after [set] *)

Lemma mapGet_app_fresh (k : Z) (v : nat) (m : list (Z * nat)) :
  ~ In k (mapKeys m) -> mapGet k (m ++ [(k, v)]) = Some v.
Proof.
  induction m as [|[k' v'] m IH]; cbn.
  - now rewrite Z.eqb_refl.
  - intros H. destruct (Z.eqb_spec k' k) as [->|_]; [tauto|].
    apply IH. tauto.
Qed.

Lemma mapDelete_absent (k : Z) (m : list (Z * nat)) :
  ~ In k (mapKeys m) -> mapDelete k m = m.
Proof.
  induction m as [|[k' v'] m IH]; cbn; [reflexivity|].
  intros H. destruct (Z.eqb_spec k' k) as [->|_]; [tauto|].
  cbn. f_equal. apply IH. tauto.
Qed.

Lemma mapDelete_app (k : Z) (m m' : list (Z * nat)) :
  mapDelete k (m ++ m') = mapDelete k m ++ mapDelete k m'.
Proof. apply List.filter_app. Qed.

(** The state [play] builds on: the old voice of the pitch, if any, is
    stopped and out of the map. *)
Lemma play_prepared (now : Js.number) (p : Z) (s : Synth) :
  Inv s ->
  let s1 := if mapHas p (activeNotes s) then stop now p true s else s in
  Inv s1
  /\ activeNotes s1 = mapDelete p (activeNotes s)
  /\ length (heap s1) = length (heap s)
  /\ ~ In p (mapKeys (activeNotes s1)).
Proof.
  intros HI. pose proof HI as (_ & _ & Hlive). cbn zeta. unfold mapHas.
  destruct (mapGet p (activeNotes s)) as [ref|] eqn:Hget.
  - split; [now apply Inv_stop|].
    split; [|split; [apply stop_heap_length|now apply stop_removes]].
    unfold stop. rewrite Hget.
    destruct (Hlive p ref (mapGet_In _ _ _ Hget)) as (v & Hv & Hns).
    unfold voiceOf in Hv. now rewrite Hv, Hns.
  - apply mapGet_None in Hget.
    now rewrite mapDelete_absent.
Qed.

Lemma play_activeNotes (M : Js.MathImpl) (now : Js.number) (p : Z) (s : Synth) :
  Inv s ->
  activeNotes (play M now p s)
  = mapDelete p (activeNotes s) ++ [(p, length (heap s))]
  /\ heap (play M now p s)
     = heap (if mapHas p (activeNotes s) then stop now p true s else s)
       ++ [mkVoice (2 * length (heap s)) (2 * length (heap s) + 1) false].
Proof.
  intros HI. destruct (play_prepared now p s HI) as (_ & Ha & Hh & Hfresh).
  unfold play. cbn [activeNotes heap].
  rewrite mapSet_fresh by exact Hfresh. now rewrite Ha, Hh.
Qed.

End VoiceFacts.

(** X5. A stopped voice stays stopped: whatever calls follow, the object
    keeps its flag, no later [play] revives it, and the safety timeout
    armed for it finds another object (or none) under its pitch and leaves
    the synth as it is. *)
Theorem stopped_voice_stays_stopped (M : Js.MathImpl)
    (ops ops' : list PolySynth.Op) (ref : nat) (v : PolySynth.Voice) :
  PolySynth.voiceOf (PolySynth.run M ops PolySynth.init) ref = Some v ->
  PolySynth.isStopped v = true ->
  PolySynth.voiceOf (PolySynth.run M (ops ++ ops') PolySynth.init) ref = Some v
  /\ (forall midi,
        ~ In (midi, ref)
             (PolySynth.activeNotes (PolySynth.run M (ops ++ ops') PolySynth.init)))
  /\ forall now midi,
       PolySynth.safetyTimeout now midi ref
         (PolySynth.run M (ops ++ ops') PolySynth.init)
       = PolySynth.run M (ops ++ ops') PolySynth.init.
Proof.
  intros Hv Hs.
  pose proof (Inv_run M (ops ++ ops') _ Inv_init) as HI.
  assert (Hv' : PolySynth.voiceOf (PolySynth.run M (ops ++ ops') PolySynth.init) ref
                = Some v).
  { rewrite run_app. now apply voice_run_preserved. }
  split; [exact Hv'|]. split.
  - intros midi Hin. destruct HI as (_ & _ & Hlive).
    destruct (Hlive midi ref Hin) as (v' & Hv'' & Hns). congruence.
  - intros now midi. now apply (stale_timeout now midi ref v).
Qed.

Lemma stopped_voice_stays_stopped_witness :
  PolySynth.voiceOf
    (PolySynth.run Js.refMath
       ([PolySynth.Play 0 60; PolySynth.Stop 1 60 false]
        ++ [PolySynth.Play 2 60; PolySynth.Timeout 5 60 0])
       PolySynth.init) 0%nat
  = Some (PolySynth.mkVoice 0 1 true).
Proof.
  exact (proj1 (stopped_voice_stays_stopped Js.refMath
                  [PolySynth.Play 0 60; PolySynth.Stop 1 60 false]
                  [PolySynth.Play 2 60; PolySynth.Timeout 5 60 0]
                  0%nat (PolySynth.mkVoice 0 1 true) eq_refl eq_refl)).
Defined.

(** X6. Retriggering a sounding pitch: [play(p)] while a voice sounds
    under [p] stops that voice (its flag goes up and it leaves the map),
    puts a fresh voice under [p], last in the map's order, leaves every
    other pitch as it was, and the old voice's safety timeout, when it
    fires, does not touch the new one. *)
Theorem retrigger_replaces_voice (M : Js.MathImpl) (ops : list PolySynth.Op)
    (now now' : Js.number) (p : Z) (old : nat) :
  PolySynth.mapGet p (PolySynth.activeNotes (PolySynth.run M ops PolySynth.init))
  = Some old ->
  let s := PolySynth.run M ops PolySynth.init in
  let s' := PolySynth.play M now p s in
  PolySynth.activeNotes s'
  = PolySynth.mapDelete p (PolySynth.activeNotes s)
    ++ [(p, length (PolySynth.heap s))]
  /\ old <> length (PolySynth.heap s)
  /\ (exists v, PolySynth.voiceOf s' old = Some v
                /\ PolySynth.isStopped v = true)
  /\ PolySynth.voiceOf s' (length (PolySynth.heap s))
     = Some (PolySynth.mkVoice (2 * length (PolySynth.heap s))
                               (2 * length (PolySynth.heap s) + 1) false)
  /\ PolySynth.safetyTimeout now' p old s' = s'.
Proof.
  intros Hget s s'.
  pose proof (Inv_run M ops _ Inv_init) as HI.
  change (PolySynth.Inv s) in HI.
  change (PolySynth.mapGet p (PolySynth.activeNotes s) = Some old) in Hget.
  clearbody s. subst s'.
  pose proof HI as (_ & _ & Hlive).
  destruct (Hlive p old (mapGet_In _ _ _ Hget)) as (v & Hv & Hns).
  pose proof (lookup_lt_Some _ _ _ Hv) as Hlt.
  destruct (play_activeNotes M now p s HI) as (Ha & Hh).
  destruct (play_prepared now p s HI) as (_ & _ & Hlen & _). cbn zeta in Hlen.
  assert (Hold : PolySynth.voiceOf (PolySynth.play M now p s) old
                 = Some (PolySynth.mkVoice (PolySynth.osc v) (PolySynth.gain v) true)).
  { unfold PolySynth.voiceOf. rewrite Hh.
    rewrite lookup_app_l by (rewrite Hlen; exact Hlt).
    unfold PolySynth.mapHas. rewrite Hget.
    unfold PolySynth.stop. rewrite Hget.
    unfold PolySynth.voiceOf in Hv. rewrite Hv, Hns. cbn.
    now rewrite list_lookup_insert_eq. }
  split; [exact Ha|]. split; [lia|]. split; [eauto|]. split.
  - unfold PolySynth.voiceOf. rewrite Hh.
    rewrite lookup_app_r by lia. now rewrite Hlen, Nat.sub_diag.
  - eapply stale_timeout; [|exact Hold|reflexivity].
    now apply Inv_play.
Qed.

Lemma retrigger_replaces_voice_witness :
  let s := PolySynth.run Js.refMath [PolySynth.Play 0 60; PolySynth.Play 0.5 64]
                          PolySynth.init in
  let s' := PolySynth.play Js.refMath 1 60 s in
  PolySynth.activeNotes s'
  = PolySynth.mapDelete 60 (PolySynth.activeNotes s)
    ++ [(60, length (PolySynth.heap s))]
  /\ 0%nat <> length (PolySynth.heap s)
  /\ (exists v, PolySynth.voiceOf s' 0%nat = Some v
                /\ PolySynth.isStopped v = true)
  /\ PolySynth.voiceOf s' (length (PolySynth.heap s))
     = Some (PolySynth.mkVoice (2 * length (PolySynth.heap s))
                               (2 * length (PolySynth.heap s) + 1) false)
  /\ PolySynth.safetyTimeout 5 60 0%nat s' = s'.
Proof.
  exact (retrigger_replaces_voice Js.refMath
           [PolySynth.Play 0 60; PolySynth.Play 0.5 64] 1 5 60 0%nat eq_refl).
Defined.

(** X7. A key pressed and released: [stop(p)] after [play(p)] leaves the
    map as it was without [p]; on a synth where [p] was silent, exactly as
    it was. *)
Theorem play_then_stop (M : Js.MathImpl) (ops : list PolySynth.Op)
    (now now' : Js.number) (p : Z) (immediate : bool) :
  let s := PolySynth.run M ops PolySynth.init in
  PolySynth.activeNotes
    (PolySynth.stop now' p immediate (PolySynth.play M now p s))
  = PolySynth.mapDelete p (PolySynth.activeNotes s)
  /\ (PolySynth.mapGet p (PolySynth.activeNotes s) = None ->
      PolySynth.activeNotes
        (PolySynth.stop now' p immediate (PolySynth.play M now p s))
      = PolySynth.activeNotes s).
Proof.
  intros s.
  pose proof (Inv_run M ops _ Inv_init) as HI.
  change (PolySynth.Inv s) in HI. clearbody s.
  destruct (play_activeNotes M now p s HI) as (Ha & Hh).
  destruct (play_prepared now p s HI) as (_ & Ha1 & Hlen & Hfresh).
  cbn zeta in *. rewrite Ha1 in Hfresh.
  assert (Hstop : PolySynth.activeNotes
                    (PolySynth.stop now' p immediate (PolySynth.play M now p s))
                  = PolySynth.mapDelete p (PolySynth.activeNotes s)).
  { unfold PolySynth.stop at 1. rewrite Ha, mapGet_app_fresh by exact Hfresh.
    rewrite Hh, lookup_app_r by lia. rewrite Hlen, Nat.sub_diag. cbn.
    rewrite mapDelete_app, mapDelete_absent by exact Hfresh.
    cbn. rewrite Z.eqb_refl. cbn. apply app_nil_r. }
  split; [exact Hstop|].
  intros Hnone. rewrite Hstop. apply mapDelete_absent.
  now apply mapGet_None.
Qed.

(** ** The synth: what reaches the audio graph *)

Section OscFacts.
Import PolySynth SynthLog.

Local Open Scope nat_scope.

Lemma starts_app (o : nat) (l1 l2 : list Cmd) :
  starts o (l1 ++ l2) = starts o l1 + starts o l2.
Proof. unfold starts. now rewrite List.filter_app, length_app. Qed.

Lemma stops_app (o : nat) (l1 l2 : list Cmd) :
  stops o (l1 ++ l2) = stops o l1 + stops o l2.
Proof. unfold stops. now rewrite List.filter_app, length_app. Qed.

Lemma OscInv_init : OscInv init.
Proof.
  split.
  - intros ref v H. cbn in H. now rewrite lookup_nil in H.
  - intros o _. split; reflexivity.
Qed.

Lemma stopCmds_counts (g x o : nat) (t1 t2 t3 c v : Js.number) :
  starts o [CancelScheduledValues g t1; SetTargetAtTime g v t2 c; OscStop x t3]
  = 0
  /\ stops o [CancelScheduledValues g t1; SetTargetAtTime g v t2 c; OscStop x t3]
     = if Nat.eqb x o then 1 else 0.
Proof. unfold starts, stops. cbn. destruct (Nat.eqb x o); auto. Qed.

Lemma OscInv_stop (now : Js.number) (p : Z) (immediate : bool) (s : Synth) :
  OscInv s -> OscInv (stop now p immediate s).
Proof.
  intros HO. pose proof HO as (Hv & Ho).
  destruct (stop_spec now p immediate s)
    as [->|(ref & active & Hget & Hact & Hst & ->)]; [exact HO|].
  destruct (Hv ref active Hact) as (Hosc & Hstart & Hstop).
  rewrite Hst in Hstop.
  split; cbn [heap log].
  - intros r v Hr. rewrite starts_app, stops_app.
    match goal with
    | |- context [starts ?o [CancelScheduledValues ?g ?t1; SetTargetAtTime _ ?w ?t2 ?c;
                             OscStop ?x ?t3]] =>
        destruct (stopCmds_counts g x o t1 t2 t3 c w) as (-> & ->)
    end.
    rewrite Hosc.
    destruct (Nat.eq_dec r ref) as [->|Hne].
    + rewrite list_lookup_insert_eq in Hr by (now apply lookup_lt_Some in Hact).
      injection Hr as <-. cbn [osc isStopped].
      rewrite Hstart, Hstop, Nat.eqb_refl. auto.
    + rewrite list_lookup_insert_ne in Hr by congruence.
      destruct (Hv r v Hr) as (-> & -> & ->).
      destruct (Nat.eqb_spec (2 * ref) (2 * r)); [lia|].
      rewrite !Nat.add_0_r. auto.
  - intros o Hnot. rewrite length_insert in Hnot.
    destruct (Ho o Hnot) as (H1 & H2).
    rewrite starts_app, stops_app, H1, H2.
    match goal with
    | |- context [starts ?o [CancelScheduledValues ?g ?t1; SetTargetAtTime _ ?w ?t2 ?c;
                             OscStop ?x ?t3]] =>
        destruct (stopCmds_counts g x o t1 t2 t3 c w) as (-> & ->)
    end.
    rewrite Hosc.
    destruct (Nat.eqb_spec (2 * ref) o) as [<-|]; [|auto].
    exfalso. apply (Hnot ref); [now apply lookup_lt_Some in Hact|reflexivity].
Qed.

Lemma play_log (M : Js.MathImpl) (now : Js.number) (p : Z) (s : Synth) :
  let s1 := if mapHas p (activeNotes s) then stop now p true s else s in
  log (play M now p s)
  = log s1 ++ playCmds M now p (length (heap s1)) (decayMode s1).
Proof. reflexivity. Qed.

Lemma playCmds_counts (M : Js.MathImpl) (now : Js.number) (p : Z) (ref : nat)
    (d : bool) (o : nat) :
  starts o (playCmds M now p ref d) = (if Nat.eqb (2 * ref) o then 1 else 0)
  /\ stops o (playCmds M now p ref d) = 0.
Proof.
  unfold playCmds, starts, stops.
  destruct d; cbn; destruct (Nat.eqb _ o); cbn; auto.
Qed.

Lemma OscInv_play (M : Js.MathImpl) (now : Js.number) (p : Z) (s : Synth) :
  OscInv s -> OscInv (play M now p s).
Proof.
  intros HO.
  assert (Hheap : heap (play M now p s)
                  = heap (if mapHas p (activeNotes s) then stop now p true s else s)
                    ++ [mkVoice
                          (2 * length (heap (if mapHas p (activeNotes s)
                                             then stop now p true s else s)))
                          (2 * length (heap (if mapHas p (activeNotes s)
                                             then stop now p true s else s)) + 1)
                          false]) by reflexivity.
  pose proof (play_log M now p s) as Hlog. cbn zeta in Hlog.
  revert Hheap Hlog.
  set (s1 := if mapHas p (activeNotes s) then stop now p true s else s).
  intros Hheap Hlog.
  assert (HO1 : OscInv s1).
  { subst s1. destruct (mapHas _ _); [now apply OscInv_stop|exact HO]. }
  destruct HO1 as (Hv & Ho).
  destruct (Ho (2 * length (heap s1))) as (Hs0 & Hp0); [intros; lia|].
  split; rewrite Hheap, Hlog.
  - intros r v Hr. rewrite starts_app, stops_app.
    destruct (playCmds_counts M now p (length (heap s1)) (decayMode s1) (2 * r))
      as (-> & ->).
    destruct (Nat.lt_ge_cases r (length (heap s1))) as [Hlt|Hge].
    + rewrite lookup_app_l in Hr by exact Hlt.
      destruct (Hv r v Hr) as (-> & -> & ->).
      destruct (Nat.eqb_spec (2 * length (heap s1)) (2 * r)); [lia|].
      rewrite !Nat.add_0_r. auto.
    + pose proof (lookup_lt_Some _ _ _ Hr) as Hlen.
      rewrite length_app in Hlen. cbn in Hlen.
      assert (r = length (heap s1)) as -> by lia.
      rewrite lookup_app_r, Nat.sub_diag in Hr by lia. injection Hr as <-.
      cbn [osc isStopped]. rewrite Hs0, Hp0, Nat.eqb_refl. auto.
  - intros o Hnot. rewrite starts_app, stops_app.
    destruct (playCmds_counts M now p (length (heap s1)) (decayMode s1) o)
      as (-> & ->).
    rewrite length_app in Hnot. cbn in Hnot.
    destruct (Ho o) as (-> & ->); [intros r Hr; apply Hnot; lia|].
    destruct (Nat.eqb_spec (2 * length (heap s1)) o) as [<-|]; [|auto].
    exfalso. apply (Hnot (length (heap s1))); [lia|reflexivity].
Qed.

Lemma OscInv_fold_stop (now : Js.number) (ks : list Z) (s : Synth) :
  OscInv s -> OscInv (fold_left (fun acc midi => stop now midi true acc) ks s).
Proof.
  revert s. induction ks as [|k ks IH]; intros s HO; [exact HO|].
  cbn. apply IH. now apply OscInv_stop.
Qed.

Lemma OscInv_step (M : Js.MathImpl) (s : Synth) (op : Op) :
  OscInv s -> OscInv (step M s op).
Proof.
  intros HO. destruct op; cbn.
  - now apply OscInv_play.
  - now apply OscInv_stop.
  - apply (OscInv_fold_stop now (mapKeys (activeNotes s))) in HO.
    exact HO.
  - unfold safetyTimeout. destruct (bool_decide _); [now apply OscInv_stop|exact HO].
  - exact HO.
Qed.

Lemma OscInv_run (M : Js.MathImpl) (ops : list Op) (s : Synth) :
  OscInv s -> OscInv (run M ops s).
Proof.
  revert s. induction ops as [|op ops IH]; intros s HO; [exact HO|].
  cbn. apply IH. now apply OscInv_step.
Qed.

End OscFacts.

Section GainFacts.
Import PolySynth SynthLog.

Local Open Scope float_scope.

Lemma attackGains_app (l1 l2 : list Cmd) :
  attackGains (l1 ++ l2) = attackGains l1 ++ attackGains l2.
Proof. apply omap_app. Qed.

Lemma attackGains_stop (now : Js.number) (p : Z) (immediate : bool) (s : Synth) :
  attackGains (log (stop now p immediate s)) = attackGains (log s).
Proof.
  destruct (stop_spec now p immediate s)
    as [->|(ref & active & _ & _ & _ & ->)]; [reflexivity|]. cbn [log].
  rewrite attackGains_app. cbn. apply app_nil_r.
Qed.

Lemma attackGains_play (M : Js.MathImpl) (now : Js.number) (p : Z) (s : Synth) :
  attackGains (log (play M now p s)) = attackGains (log s) ++ [attackGain p].
Proof.
  rewrite play_log. cbn zeta. rewrite attackGains_app. f_equal.
  - destruct (mapHas _ _); [apply attackGains_stop|reflexivity].
  - unfold playCmds. now destruct (decayMode _).
Qed.

Lemma attackGains_fold_stop (now : Js.number) (ks : list Z) (s : Synth) :
  attackGains (log (fold_left (fun acc midi => stop now midi true acc) ks s))
  = attackGains (log s).
Proof.
  revert s. induction ks as [|k ks IH]; intros s; [reflexivity|].
  cbn. now rewrite IH, attackGains_stop.
Qed.

Lemma attackGains_run (M : Js.MathImpl) (ops : list Op) (s : Synth) :
  attackGains (log (run M ops s))
  = attackGains (log s) ++ map attackGain (playedPitches ops).
Proof.
  revert s. induction ops as [|op ops IH]; intros s.
  - cbn. now rewrite app_nil_r.
  - cbn [run fold_left]. fold (run M ops (step M s op)). rewrite IH.
    destruct op; cbn [step playedPitches omap map].
    + rewrite attackGains_play, <- app_assoc. reflexivity.
    + now rewrite attackGains_stop.
    + unfold stopAll. cbn [log]. now rewrite attackGains_fold_stop.
    + unfold safetyTimeout. destruct (bool_decide _);
        [now rewrite attackGains_stop|reflexivity].
    + reflexivity.
Qed.

(** The clamp [Math.max(lo, Math.min(hi, x))] of a number that is not NaN
    lies between the bounds. *)
Lemma clamp_range (lo hi x : float) :
  (lo <=? hi) = true -> is_nan x = false ->
  (lo <=? Js.Math_max lo (Js.Math_min hi x)) = true
  /\ (Js.Math_max lo (Js.Math_min hi x) <=? hi) = true.
Proof.
  intros Hlh Hx.
  assert (Hlo : is_nan lo = false /\ is_nan hi = false).
  { rewrite !is_nan_spec. rewrite FloatAxioms.leb_spec in Hlh. unfold SFleb in Hlh.
    destruct (Prim2SF lo), (Prim2SF hi); cbn in Hlh; try discriminate; auto. }
  destruct Hlo as (Hlo & Hhi).
  assert (Hm : is_nan (Js.Math_min hi x) = false).
  { now rewrite Math_min_nan, Hhi, Hx. }
  split; [now apply Math_max_ge|].
  destruct (Math_max_cases lo (Js.Math_min hi x) Hlo Hm) as [->| ->];
    [exact Hlh|now apply Math_min_le].
Qed.

Lemma attackGain_not_nan (midi : Z) :
  is_nan (0.3 * (1 - (Js.ofZ midi - 60) * 0.012)) = false.
Proof.
  apply notNaN_is_nan. rewrite mul_spec.
  change (Prim2SF 0.3) with (S754_finite false 5404319552844595 (-54)).
  apply SFmul_finite_l. rewrite sub_spec.
  change (Prim2SF 1) with (S754_finite false 4503599627370496 (-52)).
  apply SFsub_finite_l. rewrite mul_spec.
  change (Prim2SF 0.012) with (S754_finite false 6917529027641082 (-59)).
  apply SFmul_finite_r. rewrite sub_spec.
  change (Prim2SF 60) with (S754_finite false 8444249301319680 (-47)).
  apply SFsub_finite_r. apply ofZ_notNaN.
Qed.

End GainFacts.

(** X8. Every oscillator is started exactly once and stopped at most once:
    in the log of any run, the oscillator of a voice has one start, and one
    stop if the voice's flag is up, none if it still sounds; no oscillator
    is stopped that was not started. So the [try] around the stopping calls
    never has an [InvalidStateError] to catch. *)
Theorem oscillator_discipline (M : Js.MathImpl) (ops : list PolySynth.Op) :
  let s := PolySynth.run M ops PolySynth.init in
  (forall o,
     (SynthLog.starts o (PolySynth.log s) <= 1)%nat
     /\ (SynthLog.stops o (PolySynth.log s)
         <= SynthLog.starts o (PolySynth.log s))%nat)
  /\ forall ref v,
       PolySynth.voiceOf s ref = Some v ->
       SynthLog.starts (PolySynth.osc v) (PolySynth.log s) = 1%nat
       /\ SynthLog.stops (PolySynth.osc v) (PolySynth.log s)
          = if PolySynth.isStopped v then 1%nat else 0%nat.
Proof.
  intros s.
  pose proof (OscInv_run M ops _ OscInv_init) as (Hv & Ho). fold s in Hv, Ho.
  split.
  - intros o.
    destruct (Nat.Even_or_Odd o) as [[k ->]|[k ->]].
    + destruct (PolySynth.heap s !! k) as [v|] eqn:Hk.
      * destruct (Hv k v Hk) as (_ & -> & ->).
        destruct (PolySynth.isStopped v); lia.
      * destruct (Ho (2 * k)%nat) as (-> & ->); [|lia].
        intros r Hr Heq. apply lookup_ge_None in Hk. lia.
    + destruct (Ho (2 * k + 1)%nat) as (-> & ->); [|lia].
      intros r _. lia.
  - intros ref v Hr. destruct (Hv ref v Hr) as (-> & H1 & H2). auto.
Qed.

(** X9. One attack per [play], never louder than 0.6 nor softer than 0.1:
    the attack ramps in the log of a run are those of its [play] calls, in
    order, each to the gain of its pitch, and that gain lies within the
    clamp for every integer pitch (it is never NaN). *)
Theorem attack_gain_clamped (M : Js.MathImpl) (ops : list PolySynth.Op) :
  SynthLog.attackGains (PolySynth.log (PolySynth.run M ops PolySynth.init))
  = map SynthLog.attackGain (SynthLog.playedPitches ops)
  /\ forall midi : Z,
       PrimFloat.leb 0.1 (SynthLog.attackGain midi) = true
       /\ PrimFloat.leb (SynthLog.attackGain midi) 0.6 = true.
Proof.
  split.
  - now rewrite attackGains_run.
  - intros midi. unfold SynthLog.attackGain.
    apply clamp_range; [reflexivity|apply attackGain_not_nan].
Qed.

(** The gain along the keyboard: clamped below C-1's and above A#8's. *)
Example attack_gain_values :
  map SynthLog.attackGain [0; 21; 60; 108; 116; 127]
  = [0.516; 0.44039999999999996; 0.3; 0.12719999999999998; 0.1; 0.1]%float.
Proof. vm_compute. reflexivity. Qed.

(** ** The pitch detector: where a pitch comes from *)

Section PeakFacts.

Local Open Scope float_scope.

Lemma above_09_positive (c : float) : (0.9 <? c) = true -> (0 <? c) = true.
Proof.
  rewrite !FloatAxioms.ltb_spec. unfold SFltb.
  change (Prim2SF 0.9) with (S754_finite false 8106479329266893 (-53)).
  change (Prim2SF 0) with (S754_zero false).
  destruct (Prim2SF c) as [[]|[]| |[] m e]; cbn; congruence.
Qed.

Lemma sample_insert (l : list Js.number) (o k : Z) (v : Js.number) :
  (0 <= o < Z.of_nat (length l))%Z -> (0 <= k)%Z ->
  sample (<[Z.to_nat o := v]> l) k = if (k =? o)%Z then v else sample l k.
Proof.
  intros Ho Hk. unfold sample, Js.getZ.
  destruct (Z.ltb_spec k 0); [lia|].
  destruct (Z.eqb_spec k o) as [->|Hne].
  - rewrite list_lookup_insert_eq by lia. reflexivity.
  - rewrite list_lookup_insert_ne by lia. reflexivity.
Qed.

Lemma LoopInv_init (buf : list Js.number) (MAX_SAMPLES : Z) :
  LoopInv buf MAX_SAMPLES 2
    (mkLoop (-1) 0 false 1 (replicate (Z.to_nat MAX_SAMPLES) 0)).
Proof.
  split; [|split]; cbn.
  - intros k Hk. unfold sample, Js.getZ, storedCorrelation.
    destruct (Z.ltb_spec k 0); [lia|].
    rewrite lookup_replicate_2 by lia.
    destruct (Z.ltb_spec k 2); reflexivity.
  - apply length_replicate.
  - auto.
Qed.

(** One turn of the loop at lag [o]: it returns the interpolated frequency
    of a lag that was good, or goes on to [o + 1]. *)
Lemma offsetStep_inv (buf : list Js.number) (sampleRate : Js.number)
    (MAX_SAMPLES o : Z) (st : LoopState) :
  (2 <= o < MAX_SAMPLES - 1)%Z ->
  LoopInv buf MAX_SAMPLES o st ->
  match offsetStep buf sampleRate MAX_SAMPLES o st with
  | inl r =>
      exists b, (2 <= b < o)%Z
                /\ (0.9 <? correlationAt buf MAX_SAMPLES b) = true
                /\ r = interpolated buf sampleRate MAX_SAMPLES b
  | inr st' => LoopInv buf MAX_SAMPLES (o + 1) st'
  end.
Proof.
  intros Ho (Hc & Hlen & Hbest). unfold offsetStep.
  set (c := correlationAt buf MAX_SAMPLES o).
  set (cs := <[Z.to_nat o := Js.fround c]> (correlations st)).
  assert (Hcs : forall k, (0 <= k < MAX_SAMPLES)%Z ->
            sample cs k
            = if (k <? o + 1)%Z then storedCorrelation buf MAX_SAMPLES k else 0).
  { intros k Hk. subst cs. rewrite sample_insert by lia.
    destruct (Z.eqb_spec k o) as [->|Hne].
    - destruct (Z.ltb_spec o (o + 1)); [|lia].
      unfold storedCorrelation. destruct (Z.ltb_spec o 2); [lia|reflexivity].
    - rewrite Hc by lia.
      destruct (Z.ltb_spec k o), (Z.ltb_spec k (o + 1)); try lia; reflexivity. }
  assert (Hlen' : length cs = Z.to_nat MAX_SAMPLES).
  { subst cs. now rewrite length_insert. }
  destruct ((0.9 <? c) && (lastCorrelation st <? c)) eqn:Hgood.
  - apply andb_true_iff in Hgood as (H09 & _).
    destruct (bestCorrelation st <? c) eqn:Hbetter.
    + split; [exact Hcs|split; [exact Hlen'|]]. cbn.
      repeat split; try lia; exact H09.
    + split; [exact Hcs|split; [exact Hlen'|]]. cbn.
      destruct (foundGoodCorrelation st).
      * destruct Hbest as (Hb & H1 & H2). repeat split; auto; lia.
      * destruct Hbest as (_ & Hb0). rewrite Hb0 in Hbetter.
        apply above_09_positive in H09. congruence.
  - destruct (foundGoodCorrelation st).
    + destruct Hbest as (Hb & H1 & H2). cbn zeta.
      rewrite !Hcs by lia.
      destruct (Z.ltb_spec (bestOffset st) (o + 1)); [|lia].
      destruct (Z.ltb_spec (bestOffset st + 1) (o + 1)); [|lia].
      destruct (Z.ltb_spec (bestOffset st - 1) (o + 1)); [|lia].
      destruct (Z.eqb_spec (bestOffset st) 0); [lia|].
      destruct (Js.Math_abs _ <? 0.0001) eqn:Hd;
        exists (bestOffset st); (split; [lia|]); (split; [exact H1|]);
        unfold interpolated; cbn zeta; now rewrite Hd.
    + split; [exact Hcs|split; [exact Hlen'|exact Hbest]].
Qed.

Lemma offsetLoop_inv (buf : list Js.number) (sampleRate : Js.number)
    (MAX_SAMPLES : Z) (n : nat) (o : Z) (st : LoopState) :
  (2 <= o)%Z -> (o + Z.of_nat n <= MAX_SAMPLES - 1)%Z ->
  LoopInv buf MAX_SAMPLES o st ->
  match offsetLoop buf sampleRate MAX_SAMPLES (seqZ o (Z.of_nat n)) st with
  | inl r =>
      exists b, (2 <= b < MAX_SAMPLES - 1)%Z
                /\ (0.9 <? correlationAt buf MAX_SAMPLES b) = true
                /\ r = interpolated buf sampleRate MAX_SAMPLES b
  | inr st' => LoopInv buf MAX_SAMPLES (o + Z.of_nat n) st'
  end.
Proof.
  revert o st. induction n as [|n IH]; intros o st Ho Hn HI.
  - cbn. now rewrite Z.add_0_r.
  - rewrite seqZ_cons by lia. cbn [offsetLoop].
    pose proof (offsetStep_inv buf sampleRate MAX_SAMPLES o st ltac:(lia) HI) as Hs.
    destruct (offsetStep buf sampleRate MAX_SAMPLES o st) as [r|st'].
    + destruct Hs as (b & Hb & H1 & H2). exists b. repeat split; auto; lia.
    + replace (Z.pred (Z.of_nat (S n))) with (Z.of_nat n) by lia.
      replace (o + Z.of_nat (S n))%Z with (Z.succ o + Z.of_nat n)%Z by lia.
      apply IH; [lia|lia|].
      now replace (Z.succ o) with (o + 1)%Z by lia.
Qed.

End PeakFacts.

(** X10. A frame too short to hold a candidate lag gives no pitch: on a
    buffer of fewer than eight samples, the empty one included, the offset
    loop has no lag to try and the detector returns -1, at every sample
    rate. *)
Theorem short_frame_no_pitch (buf : list Js.number) (sampleRate : Js.number) :
  (length buf < 8)%nat -> autoCorrelate buf sampleRate = (-1)%float.
Proof.
  intros Hlen. unfold autoCorrelate.
  destruct (PrimFloat.ltb (rmsOf buf) 0.01); [reflexivity|].
  assert (Hmax : Z.of_nat (length buf) / 2 < 4).
  { apply Z.div_lt_upper_bound; lia. }
  unfold candidateLags, seqZ.
  replace (Z.to_nat (Z.of_nat (length buf) / 2 - 1 - 2)) with O by lia.
  reflexivity.
Qed.

Lemma short_frame_no_pitch_witness :
  autoCorrelate (Float32Array [0.5; -0.5; 0.5; -0.5; 0.5; -0.5; 0.5]%float) 44100
  = (-1)%float.
Proof.
  apply (short_frame_no_pitch
           (Float32Array [0.5; -0.5; 0.5; -0.5; 0.5; -0.5; 0.5]%float) 44100).
  cbn. lia.
Defined.

(** X11. Where a pitch comes from: whatever the frame, the detector
    answers -1 or the frequency of one lag [b] among the candidates, whose
    correlation exceeded 0.9: either the sample rate over [b], or the
    sample rate over [b] moved by the vertex of the parabola through the
    stored correlations at [b - 1], [b], [b + 1]. The guard [bestOffset || 1]
    of line 79 never replaces the lag. *)
Theorem pitch_comes_from_good_lag (buf : list Js.number) (sampleRate : Js.number) :
  autoCorrelate buf sampleRate = (-1)%float
  \/ exists b : Z,
       2 <= b < Z.of_nat (length buf) / 2 - 1
       /\ PrimFloat.ltb 0.9 (correlationAt buf (Z.of_nat (length buf) / 2) b)
          = true
       /\ PrimFloat.ltb (rmsOf buf) 0.01 = false
       /\ (autoCorrelate buf sampleRate
           = interpolated buf sampleRate (Z.of_nat (length buf) / 2) b
           \/ autoCorrelate buf sampleRate = PrimFloat.div sampleRate (Js.ofZ b)).
Proof.
  unfold autoCorrelate.
  destruct (PrimFloat.ltb (rmsOf buf) 0.01) eqn:Hrms; [now left|].
  set (MAX := Z.of_nat (length buf) / 2).
  unfold candidateLags.
  destruct (Z.le_gt_cases (MAX - 1 - 2) 0) as [Hsmall|Hbig].
  { left. unfold seqZ. replace (Z.to_nat (MAX - 1 - 2)) with O by lia.
    reflexivity. }
  pose proof (offsetLoop_inv buf sampleRate MAX (Z.to_nat (MAX - 1 - 2)) 2
                (mkLoop (-1) 0 false 1 (replicate (Z.to_nat MAX) 0%float))
                ltac:(lia) ltac:(lia) (LoopInv_init buf MAX)) as Hloop.
  rewrite Z2Nat.id in Hloop by lia.
  destruct (offsetLoop _ _ _ _ _) as [r|st].
  - destruct Hloop as (b & Hb & H1 & H2). right. exists b. auto.
  - destruct Hloop as (_ & _ & Hbest).
    destruct (PrimFloat.ltb 0.01 (bestCorrelation st) && (0 <? bestOffset st))
      eqn:Hfinal; [|now left].
    apply andb_true_iff in Hfinal as (_ & Hpos). apply Z.ltb_lt in Hpos.
    destruct (foundGoodCorrelation st).
    + destruct Hbest as (Hb & H1 & _). right. exists (bestOffset st).
      repeat split; auto; lia.
    + destruct Hbest as (Hb & _). lia.
Qed.

(** Three periods of the sixteen-sample wave: the first good lag is 16, the
    parabola moves it, and the answer is what [interpolated] gives. *)
Example sawtooth_peak :
  autoCorrelate (Float32Array (risingWave ++ risingWave ++ risingWave)) 44100
  = interpolated (Float32Array (risingWave ++ risingWave ++ risingWave)) 44100 24 16.
Proof. vm_compute. reflexivity. Qed.

(** ** The metronome's pattern *)

Section PatternFacts.
Import Metronome MetronomeControls.

Lemma standardStep_insert (d i : Z) (g : list BeatIntensity) :
  0 < d -> 0 <= i -> g !! Z.to_nat i = Some MUTE ->
  standardStep d i g = <[Z.to_nat i := standardClass d i]> g.
Proof.
  intros Hd Hi Hg. unfold standardStep, standardClass.
  rewrite Z.rem_mod_nonneg by lia.
  destruct (i =? 0); [reflexivity|].
  destruct (i mod d =? 0); [reflexivity|].
  symmetry. now apply list_insert_id.
Qed.

(** The grid the standard branch builds, by either of its two copies. *)
Lemma standard_loop (n d : Z) :
  0 <= n -> 0 < d ->
  forLoop (n * d) (standardStep d) (replicate (Z.to_nat (n * d)) MUTE)
  = standardClass d <$> seqZ 0 (n * d).
Proof.
  intros Hn Hd. unfold forLoop.
  rewrite <- (Z2Nat.id (n * d)) at 1 by nia.
  rewrite (forLoop_fill (standardClass d)) by
    (try lia; intros; now apply standardStep_insert).
  rewrite Nat.sub_diag, Z2Nat.id by nia. cbn. now rewrite app_nil_r.
Qed.

Lemma gridEffect_standard (s : State) :
  mode s = STANDARD -> 0 <= numerator s -> 0 < subdivision s ->
  grid (gridEffect s)
  = standardClass (subdivision s) <$> seqZ 0 (numerator s * subdivision s).
Proof.
  intros Hm Hn Hd. unfold gridEffect. rewrite Hm. cbn [grid setGrid].
  now apply standard_loop.
Qed.

(** The beats of the pattern: one step in [d], counted over [n] beats. *)
Lemma count_beats (d : Z) (n : nat) :
  0 < d ->
  length (List.filter (fun i => negb (bool_decide (standardClass d i = MUTE)))
                      (seqZ 0 (Z.of_nat n * d)))
  = n.
Proof.
  intros Hd. rewrite <- (count_multiples d n Hd) at 2.
  rewrite (Z.mul_comm d). f_equal. apply List.filter_ext. intros i.
  unfold standardClass.
  destruct (Z.eqb_spec i 0) as [->|_].
  - rewrite Z.mod_0_l by lia. reflexivity.
  - destruct (i mod d =? 0); reflexivity.
Qed.

End PatternFacts.

(** X12. The standard pattern: for [n] beats of [d] steps each, the grid
    effect builds a grid of [n * d] steps, the first strong, the first of
    every other beat weak, all the others mute, hence with exactly [n]
    sounding steps; and the reset button builds the same grid. *)
Theorem standard_grid (s : Metronome.State) :
  Metronome.mode s = Metronome.STANDARD ->
  1 <= Metronome.numerator s -> 1 <= Metronome.subdivision s ->
  let n := Metronome.numerator s in
  let d := Metronome.subdivision s in
  let g := Metronome.grid (Metronome.gridEffect s) in
  Z.of_nat (length g) = n * d
  /\ (forall i, 0 <= i < n * d ->
        g !! Z.to_nat i
        = Some (if i =? 0 then STRONG
                else if i mod d =? 0 then WEAK else MUTE))
  /\ Z.of_nat (length (List.filter (fun b => negb (bool_decide (b = MUTE))) g))
     = n
  /\ MetronomeControls.resetPattern s = Metronome.gridEffect s.
Proof.
  intros Hm Hn Hd n d g.
  assert (Hg : g = MetronomeControls.standardClass d <$> seqZ 0 (n * d)).
  { subst g n d. apply gridEffect_standard; [exact Hm|lia|lia]. }
  rewrite Hg. repeat split.
  - rewrite length_fmap, length_seqZ. nia.
  - intros i Hi. rewrite list_lookup_fmap.
    rewrite (lookup_seqZ_lt 0 (n * d) (Z.to_nat i)) by lia.
    cbn. rewrite Z2Nat.id by lia. reflexivity.
  - rewrite filter_fmap_length.
    subst n. rewrite <- (Z2Nat.id (Metronome.numerator s)) at 1 by lia.
    rewrite count_beats by lia. lia.
  - unfold MetronomeControls.resetPattern, Metronome.gridEffect.
    now rewrite Hm.
Qed.

Lemma standard_grid_witness :
  let s := Metronome.mkState 120 false Metronome.STANDARD 3 2 3 4
             (mkTrainer false 4 5 0) (-1) [] (-1) in
  let n := Metronome.numerator s in
  let d := Metronome.subdivision s in
  let g := Metronome.grid (Metronome.gridEffect s) in
  Z.of_nat (length g) = n * d
  /\ (forall i, 0 <= i < n * d ->
        g !! Z.to_nat i
        = Some (if i =? 0 then STRONG
                else if i mod d =? 0 then WEAK else MUTE))
  /\ Z.of_nat (length (List.filter (fun b => negb (bool_decide (b = MUTE))) g))
     = n
  /\ MetronomeControls.resetPattern s = Metronome.gridEffect s.
Proof.
  apply (standard_grid
           (Metronome.mkState 120 false Metronome.STANDARD 3 2 3 4
              (mkTrainer false 4 5 0) (-1) [] (-1)));
    [reflexivity|cbn; lia|cbn; lia].
Defined.

Example standard_grid_3_2 :
  Metronome.grid
    (Metronome.gridEffect
       (Metronome.mkState 120 false Metronome.STANDARD 3 2 3 4
          (mkTrainer false 4 5 0) (-1) [] (-1)))
  = [STRONG; MUTE; WEAK; MUTE; WEAK; MUTE].
Proof. reflexivity. Qed.

Section ControlFacts.
Import Metronome MetronomeControls.

Lemma setGrid_id (s : State) : setGrid (grid s) s = s.
Proof. now destruct s. Qed.

Lemma cycled_values (b : BeatIntensity) : In (cycled b) [MUTE; WEAK; STRONG].
Proof. destruct b; cbn; auto. Qed.

Lemma cycled_thrice (b : BeatIntensity) :
  In b [MUTE; WEAK; STRONG] -> cycled (cycled (cycled b)) = b.
Proof. intros [<-|[<-|[<-|[]]]]; reflexivity. Qed.

Lemma getZ_lookup {X : Type} (l : list X) (i : Z) :
  0 <= i -> Js.getZ l i = l !! Z.to_nat i.
Proof. intros Hi. unfold Js.getZ. destruct (Z.ltb_spec i 0); [lia|reflexivity]. Qed.

Lemma getZ_Some {X : Type} (l : list X) (i : Z) (x : X) :
  Js.getZ l i = Some x -> 0 <= i < Z.of_nat (length l) /\ l !! Z.to_nat i = Some x.
Proof.
  unfold Js.getZ. destruct (Z.ltb_spec i 0) as [|Hi]; [discriminate|].
  intros Hx. split; [|exact Hx]. apply lookup_lt_Some in Hx. lia.
Qed.

Lemma cycleIntensity_standard (i : Z) (b : BeatIntensity) (s : State) :
  mode s = STANDARD -> 0 <= i -> grid s !! Z.to_nat i = Some b ->
  cycleIntensity i s
  = Some (setGrid (<[Z.to_nat i := cycled b]> (grid s)) s).
Proof.
  intros Hm Hi Hb. unfold cycleIntensity. rewrite Hm, getZ_lookup, Hb by lia.
  reflexivity.
Qed.

End ControlFacts.

(** X13. A click on a cell of the standard grid steps its accent round
    mute, weak, strong and touches no other cell (a polyrhythm accent left
    in the grid steps to weak, strong or mute); three clicks on a cell
    restore the component's state; in polyrhythm mode a click does
    nothing. *)
Theorem cycle_intensity (s : Metronome.State) (i : Z) (b : BeatIntensity) :
  0 <= i -> Metronome.grid s !! Z.to_nat i = Some b ->
  (Metronome.mode s = Metronome.POLYRHYTHM ->
   MetronomeControls.cycleIntensity i s = Some s)
  /\ (Metronome.mode s = Metronome.STANDARD ->
      MetronomeControls.cycleIntensity i s
      = Some (Metronome.setGrid
                (<[Z.to_nat i := MetronomeControls.cycled b]> (Metronome.grid s)) s)
      /\ MetronomeControls.cycled b
         = match b with
           | MUTE | POLY_A => WEAK
           | WEAK | POLY_B => STRONG
           | STRONG | POLY_BOTH => MUTE
           end
      /\ (In b [MUTE; WEAK; STRONG] ->
          (MetronomeControls.cycleIntensity i s
             ≫= MetronomeControls.cycleIntensity i)
            ≫= MetronomeControls.cycleIntensity i
          = Some s)).
Proof.
  intros Hi Hb. split; intros Hm.
  - unfold MetronomeControls.cycleIntensity. now rewrite Hm.
  - split; [now apply cycleIntensity_standard|].
    split; [now destruct b|]. intros Hin.
    pose proof (lookup_lt_Some _ _ _ Hb) as Hlt.
    rewrite (cycleIntensity_standard i b s Hm Hi Hb). cbn [mbind option_bind].
    rewrite (cycleIntensity_standard i (MetronomeControls.cycled b));
      [|exact Hm|exact Hi|cbn; now rewrite list_lookup_insert_eq].
    cbn [mbind option_bind].
    rewrite (cycleIntensity_standard i
               (MetronomeControls.cycled (MetronomeControls.cycled b)));
      [|exact Hm|exact Hi|cbn; rewrite list_lookup_insert_eq;
                          [reflexivity|now rewrite length_insert]].
    f_equal. destruct s as [? ? ? ? ? ? ? ? ? g ?]. cbn in *.
    rewrite !list_insert_insert_eq, cycled_thrice by exact Hin.
    now rewrite list_insert_id.
Qed.

Lemma cycle_intensity_witness :
  (MetronomeControls.cycleIntensity 2 MetronomeControls.mounted
     ≫= MetronomeControls.cycleIntensity 2)
    ≫= MetronomeControls.cycleIntensity 2
  = Some MetronomeControls.mounted.
Proof.
  apply (cycle_intensity MetronomeControls.mounted 2 WEAK);
    [lia|reflexivity|reflexivity|cbn; auto].
Defined.

Example cycle_once :
  Metronome.grid MetronomeControls.mounted = [STRONG; WEAK; WEAK; WEAK]
  /\ (Metronome.grid <$>
        MetronomeControls.cycleIntensity 2 MetronomeControls.mounted)
     = Some [STRONG; WEAK; STRONG; WEAK]
  /\ MetronomeControls.cycleIntensity 4 MetronomeControls.mounted = None.
Proof. repeat split. Qed.

Section PatternInvariant.
Import Metronome MetronomeControls.

(** The parameters within the pickers' ranges. *)
Local Abbreviation Params s :=
  (1 <= numerator s <= 16 /\ In (subdivision s) subValues
   /\ 2 <= polyA s <= 12 /\ 2 <= polyB s <= 12).

Lemma trainerEffect_pattern (s : State) :
  mode (trainerEffect s) = mode s
  /\ numerator (trainerEffect s) = numerator s
  /\ subdivision (trainerEffect s) = subdivision s
  /\ polyA (trainerEffect s) = polyA s
  /\ polyB (trainerEffect s) = polyB s
  /\ grid (trainerEffect s) = grid s.
Proof.
  unfold trainerEffect. cbn.
  destruct (_ || _); [now repeat split|].
  destruct (_ || _); [now repeat split|].
  destruct (_ >? _); now repeat split.
Qed.

Lemma gridEffect_params (s : State) :
  mode (gridEffect s) = mode s
  /\ numerator (gridEffect s) = numerator s
  /\ subdivision (gridEffect s) = subdivision s
  /\ polyA (gridEffect s) = polyA s
  /\ polyB (gridEffect s) = polyB s.
Proof.
  unfold gridEffect.
  destruct (mode s) eqn:Hm; [|destruct (_ =? 0)]; cbn; rewrite ?Hm;
    now repeat split.
Qed.

Lemma gridEffect_poly (s : State) :
  mode s = POLYRHYTHM -> 0 < polyA s -> 0 < polyB s ->
  grid (gridEffect s)
  = classify (Z.lcm (polyA s) (polyB s) / polyA s)
             (Z.lcm (polyA s) (polyB s) / polyB s)
    <$> seqZ 0 (Z.lcm (polyA s) (polyB s)).
Proof.
  intros Hm Ha Hb. rewrite <- (polyGridOf_eq _ _ s Ha Hb).
  unfold polyGridOf. f_equal. f_equal. destruct s. cbn in *. now subst.
Qed.

Lemma subValues_pos (d : Z) : In d subValues -> 1 <= d.
Proof. intros [<-|[<-|[<-|[]]]]; lia. Qed.

Lemma gridEffect_inv (s : State) : Params s -> PatternInv (gridEffect s).
Proof.
  intros (Hn & Hd & Ha & Hb).
  destruct (gridEffect_params s) as (Em & En & Ed & Ea & Eb).
  pose proof (subValues_pos _ Hd) as Hd1.
  unfold PatternInv, gridLength. rewrite Em, En, Ed, Ea, Eb.
  repeat (split; [assumption|]).
  destruct (mode s) eqn:Hm.
  - rewrite gridEffect_standard by (assumption || lia). split.
    + rewrite length_fmap, length_seqZ. nia.
    + apply List.Forall_forall. intros b Hin. apply in_map_iff in Hin.
      destruct Hin as (i & <- & _). unfold standardClass.
      destruct (i =? 0); [cbn; auto|]. destruct (_ =? 0); cbn; auto.
  - rewrite gridEffect_poly by (assumption || lia). split; [|reflexivity].
    rewrite length_fmap, length_seqZ.
    pose proof (lcm_pos (polyA s) (polyB s)). lia.
Qed.

(** A render after a change that keeps the parameters in range and does
    not write the grid itself. *)
Lemma render_inv (old new : State) :
  PatternInv old -> Params new -> grid new = grid old ->
  PatternInv (render old new).
Proof.
  intros HI HP Hg. unfold render.
  set (s := if trainerDepsChanged old new then trainerEffect new else new).
  assert (Hs : mode s = mode new /\ numerator s = numerator new
               /\ subdivision s = subdivision new /\ polyA s = polyA new
               /\ polyB s = polyB new /\ grid s = grid new).
  { subst s. destruct (trainerDepsChanged old new);
      [apply trainerEffect_pattern|now repeat split]. }
  destruct Hs as (Em & En & Ed & Ea & Eb & Eg).
  destruct (gridDepsChanged old new) eqn:Hdeps.
  - apply gridEffect_inv. now rewrite En, Ed, Ea, Eb.
  - unfold gridDepsChanged in Hdeps. apply negb_false_iff in Hdeps.
    apply andb_true_iff in Hdeps as (Hdeps & Hpb).
    apply andb_true_iff in Hdeps as (Hdeps & Hpa).
    apply andb_true_iff in Hdeps as (Hdeps & Hsd).
    apply andb_true_iff in Hdeps as (Hmd & Hnm).
    apply bool_decide_eq_true in Hmd.
    apply Z.eqb_eq in Hpb, Hpa, Hsd, Hnm.
    destruct HI as (_ & _ & _ & _ & Hlen & Hcells).
    destruct HP as (Hn & Hd & Ha & Hb).
    unfold PatternInv, gridLength in *.
    rewrite Em, En, Ed, Ea, Eb, Eg, Hg.
    repeat (split; [assumption|]).
    rewrite <- Hmd, <- Hpb, <- Hpa, <- Hsd, <- Hnm. auto.
Qed.

Lemma handleSubChange_fields (idx : Z) (s : State) :
  In (subdivision (handleSubChange idx s)) subValues \/
  handleSubChange idx s = s.
Proof.
  unfold handleSubChange.
  assert (Hc : Z.max 0 (Z.min 2 idx) = 0 \/ Z.max 0 (Z.min 2 idx) = 1
               \/ Z.max 0 (Z.min 2 idx) = 2) by lia.
  destruct Hc as [->|[->| ->]]; left; cbn; auto.
Qed.

Lemma handleSubChange_other (idx : Z) (s : State) :
  mode (handleSubChange idx s) = mode s
  /\ numerator (handleSubChange idx s) = numerator s
  /\ polyA (handleSubChange idx s) = polyA s
  /\ polyB (handleSubChange idx s) = polyB s
  /\ grid (handleSubChange idx s) = grid s.
Proof.
  unfold handleSubChange. destruct (Js.getZ _ _); now repeat split.
Qed.

Lemma patternStep_inv (s s' : State) (ev : PatternEvent) :
  PatternInv s -> patternStep s ev = Some s' -> PatternInv s'.
Proof.
  intros HI. pose proof HI as (Hn & Hd & Ha & Hb & Hlen & Hcells).
  destruct ev; cbn [patternStep]; try (intros [= <-]).
  1-2, 3-4, 7-10:
    apply render_inv; [exact HI| |reflexivity]; cbn; unfold inc, dec;
      repeat split; auto; lia.
  - (* SubdivisionUp *)
    destruct (handleSubChange_other (inc 2 (subIndex (subdivision s))) s)
      as (Em & En & Ea & Eb & Eg).
    apply render_inv; [exact HI| |exact Eg]. rewrite En, Ea, Eb.
    destruct (handleSubChange_fields (inc 2 (subIndex (subdivision s))) s)
      as [H| ->]; auto.
  - (* SubdivisionDown *)
    destruct (handleSubChange_other (dec 0 (subIndex (subdivision s))) s)
      as (Em & En & Ea & Eb & Eg).
    apply render_inv; [exact HI| |exact Eg]. rewrite En, Ea, Eb.
    destruct (handleSubChange_fields (dec 0 (subIndex (subdivision s))) s)
      as [H| ->]; auto.
  - (* CellClick *)
    unfold cycleIntensity. destruct (mode s) eqn:Hm; [|now intros [= <-]].
    destruct (Js.getZ (grid s) index) as [b|] eqn:Hb'; [|discriminate].
    intros [= <-]. unfold PatternInv, gridLength in *. cbn. rewrite Hm in *.
    repeat (split; [assumption|]). rewrite length_insert. split; [exact Hlen|].
    apply Forall_insert; [exact Hcells|]. apply cycled_values.
  - (* Reset *)
    unfold resetPattern. destruct (mode s) eqn:Hm; [|exact HI].
    pose proof (subValues_pos _ Hd) as Hd1.
    unfold PatternInv, gridLength. cbn. rewrite Hm.
    repeat (split; [assumption|]).
    rewrite standard_loop by lia. split.
    + rewrite length_fmap, length_seqZ. nia.
    + apply List.Forall_forall. intros b Hin. apply in_map_iff in Hin.
      destruct Hin as (i & <- & _). unfold standardClass.
      destruct (i =? 0); [cbn; auto|]. destruct (_ =? 0); cbn; auto.
Qed.

Lemma mounted_inv : PatternInv mounted.
Proof. apply gridEffect_inv. cbn. repeat split; auto; lia. Qed.

Lemma patternRun_inv (evs : list PatternEvent) (s s' : State) :
  PatternInv s -> patternRun evs s = Some s' -> PatternInv s'.
Proof.
  revert s. induction evs as [|ev evs IH]; intros s HI; cbn.
  - now intros [= <-].
  - destruct (patternStep s ev) as [s1|] eqn:Hstep; [|discriminate].
    apply IH. now apply (patternStep_inv s s1 ev).
Qed.

Lemma PatternInv_nonempty (s : State) : PatternInv s -> 1 <= gridLength s.
Proof.
  intros (Hn & Hd & Ha & Hb & _). unfold gridLength.
  pose proof (subValues_pos _ Hd). destruct (mode s); [nia|].
  pose proof (lcm_pos (polyA s) (polyB s)). lia.
Qed.

End PatternInvariant.

(** X14. The pattern controls keep the grid in step with its parameters.
    After any clicks on the mode buttons, the arrows of the pickers, the
    cells and the reset button of a mounted component: the beats are within
    1..16, the subdivision is 1, 2 or 4, the two rhythms within 2..12; the
    grid has [beats * subdivision] steps of mute, weak or strong in
    standard mode, and is the [lcm]-long polyrhythm grid in polyrhythm
    mode; it is never empty. The only click the model has no answer for is
    one on a cell that is not in the grid. *)
Theorem pattern_invariant (evs : list MetronomeControls.PatternEvent)
    (s : Metronome.State) :
  MetronomeControls.patternRun evs MetronomeControls.mounted = Some s ->
  MetronomeControls.PatternInv s
  /\ Metronome.grid s <> []
  /\ forall ev,
       MetronomeControls.patternStep s ev = None ->
       exists index,
         ev = MetronomeControls.CellClick index
         /\ Metronome.mode s = Metronome.STANDARD
         /\ ~ (0 <= index < Z.of_nat (length (Metronome.grid s))).
Proof.
  intros Hrun.
  pose proof (patternRun_inv evs _ s mounted_inv Hrun) as HI.
  split; [exact HI|]. split.
  - pose proof (PatternInv_nonempty s HI) as Hne.
    destruct HI as (_ & _ & _ & _ & Hlen & _). rewrite <- Hlen in Hne.
    intros Hnil. rewrite Hnil in Hne. cbn in Hne. lia.
  - intros ev Hnone. destruct ev; try discriminate.
    exists index. split; [reflexivity|].
    cbn [MetronomeControls.patternStep] in Hnone.
    unfold MetronomeControls.cycleIntensity in Hnone. revert Hnone.
    destruct (Metronome.mode s); [|discriminate]. intros Hnone.
    split; [reflexivity|].
    intros Hin. unfold Js.getZ in Hnone. revert Hnone.
    destruct (Z.ltb_spec index 0); [lia|].
    destruct (Metronome.grid s !! Z.to_nat index) eqn:Hl; [discriminate|].
    intros _. apply lookup_ge_None in Hl. lia.
Qed.

Lemma pattern_invariant_witness :
  MetronomeControls.PatternInv
    (Metronome.mkState 120 false Metronome.POLYRHYTHM 5 1 4 4
       (mkTrainer false 4 5 0) (-1)
       [POLY_BOTH; POLY_BOTH; POLY_BOTH; POLY_BOTH] (-1)).
Proof.
  exact (proj1 (pattern_invariant
                  [MetronomeControls.NumeratorUp;
                   MetronomeControls.CellClick 1;
                   MetronomeControls.ModePolyrhythm;
                   MetronomeControls.PolyAUp]
                  (Metronome.mkState 120 false Metronome.POLYRHYTHM 5 1 4 4
                     (mkTrainer false 4 5 0) (-1)
                     [POLY_BOTH; POLY_BOTH; POLY_BOTH; POLY_BOTH] (-1))
                  eq_refl)).
Defined.

(** The accents a user sets survive the controls that change no parameter
    of the grid, and are lost to those that do. *)
Example edits_and_renders :
  (Metronome.grid <$>
     MetronomeControls.patternRun
       [MetronomeControls.CellClick 1; MetronomeControls.NumeratorDown;
        MetronomeControls.ModeStandard]
       MetronomeControls.mounted)
  = Some [STRONG; WEAK; WEAK]
  /\ (Metronome.grid <$>
        MetronomeControls.patternRun
          [MetronomeControls.CellClick 1; MetronomeControls.SubdivisionDown;
           MetronomeControls.ModeStandard]
          MetronomeControls.mounted)
     = Some [STRONG; STRONG; WEAK; WEAK].
Proof. split; reflexivity. Qed.

(** ** The metronome's tempo *)

Section TempoFacts.
Import Metronome MetronomeControls.

Lemma trainerEffect_tempo (s : State) :
  20 <= bpm s <= 300 ->
  1 <= increment (trainerSettings s) ->
  0 <= currentBarTracker (trainerSettings s) ->
  20 <= bpm (trainerEffect s) <= 300
  /\ increment (trainerSettings (trainerEffect s)) = increment (trainerSettings s)
  /\ barCount (trainerSettings (trainerEffect s)) = barCount (trainerSettings s)
  /\ 0 <= currentBarTracker (trainerSettings (trainerEffect s)).
Proof.
  intros Hb Hi Ht. unfold trainerEffect. cbn.
  destruct (_ || _); [cbn; auto|].
  destruct (_ || _); [cbn; auto|].
  destruct (_ >? _); cbn; repeat split; lia.
Qed.

(** The state part of the invariant. *)
Local Abbreviation Ranges s :=
  (20 <= bpm s <= 300
   /\ 1 <= increment (trainerSettings s) <= 20
   /\ 1 <= barCount (trainerSettings s) <= 64
   /\ 0 <= currentBarTracker (trainerSettings s)).

Lemma trainerEffect_ranges (s : State) : Ranges s -> Ranges (trainerEffect s).
Proof.
  intros (Hb & Hi & Hc & Ht).
  destruct (trainerEffect_tempo s Hb ltac:(lia) Ht) as (H1 & -> & -> & H4).
  auto.
Qed.

Lemma gridEffect_ranges (s : State) : Ranges s -> Ranges (gridEffect s).
Proof.
  intros H. unfold gridEffect.
  destruct (mode s); [exact H|]. destruct (_ =? 0); exact H.
Qed.

Lemma render_ranges (old new : State) : Ranges new -> Ranges (render old new).
Proof.
  intros H. unfold render.
  destruct (trainerDepsChanged old new), (gridDepsChanged old new);
    auto using trainerEffect_ranges, gridEffect_ranges.
Qed.

Lemma onStep_ranges (step : Z) (s : State) : Ranges s -> Ranges (onStep step s).
Proof.
  intros H. unfold onStep. destruct (_ =? _); [exact H|].
  now apply trainerEffect_ranges.
Qed.

Lemma togglePlay_ranges (s : State) : Ranges s -> Ranges (togglePlay s).
Proof.
  intros (Hb & Hi & Hc & Ht). unfold togglePlay.
  apply trainerEffect_ranges. destruct (negb (isPlaying s)); cbn; repeat split; lia.
Qed.

(** [handleTap]: the times kept, and the tempo. *)
Lemma handleTap_spec (now : Z) (times : list Z) (s : State) :
  (length times <= 5)%nat ->
  (1 <= length (fst (handleTap now (times, s))) <= 5)%nat
  /\ last (fst (handleTap now (times, s))) = Some now
  /\ (snd (handleTap now (times, s)) = s
      \/ exists b, 20 <= b <= 300
                   /\ snd (handleTap now (times, s)) = setBpm (fun _ => b) s).
Proof.
  intros Hlen. unfold handleTap.
  destruct (_ && _).
  { cbn. repeat split; auto. }
  set (times1 := times ++ [now]).
  set (times2 := if Z.of_nat (length times1) >? 5 then tail times1 else times1).
  assert (Htimes : (1 <= length times2 <= 5)%nat /\ last times2 = Some now).
  { subst times2 times1. rewrite length_app. cbn [length].
    destruct (Z.gtb_spec (Z.of_nat (length times + 1)) 5) as [Hgt|Hle].
    - destruct times as [|t times]; [cbn in Hgt; lia|]. cbn [app tail].
      rewrite length_app, last_snoc. cbn in *. split; [lia|reflexivity].
    - rewrite length_app, last_snoc. cbn. split; [lia|reflexivity]. }
  clearbody times2. destruct Htimes as (Hl & Hlast).
  destruct (Z.of_nat (length times2) >? 1); [|cbn; auto].
  destruct (PrimFloat.leb 20 (tapBpm times2) && PrimFloat.leb (tapBpm times2) 300)
    eqn:Hrange; [|cbn; auto].
  apply andb_true_iff in Hrange as (Hlo & Hhi). cbn [fst snd].
  split; [exact Hl|]. split; [exact Hlast|]. right.
  exists (Js.truncZ (tapBpm times2)). split; [|reflexivity].
  now apply truncZ_20_300.
Qed.

Lemma timeAt_last (times : list Z) (t : Z) :
  last times = Some t -> timeAt times (Z.of_nat (length times) - 1) = t.
Proof.
  intros Hlast. pose proof Hlast as Hl. rewrite last_lookup in Hl.
  assert (length times <> 0)%nat.
  { destruct times; [discriminate|cbn; lia]. }
  unfold timeAt, Js.getZ.
  destruct (Z.ltb_spec (Z.of_nat (length times) - 1) 0); [lia|].
  replace (Z.to_nat (Z.of_nat (length times) - 1)) with (pred (length times)) by lia.
  now rewrite Hl.
Qed.

Lemma handleTap_restart (now : Z) (times : list Z) (s : State) :
  (times = [] \/ exists t, last times = Some t /\ now - t > 2000) ->
  handleTap now (times, s) = ([now], s).
Proof.
  intros [->|(t & Hlast & Hgap)]; [reflexivity|].
  unfold handleTap. rewrite (timeAt_last times t Hlast).
  assert (length times <> 0)%nat.
  { destruct times; [discriminate|cbn; lia]. }
  destruct (Z.ltb_spec 0 (Z.of_nat (length times))); [|lia].
  destruct (Z.gtb_spec (now - t) 2000); [reflexivity|lia].
Qed.

Lemma tempoStep_inv (ts : list Z * State) (ev : TempoEvent) :
  tempoEventOk ev -> TempoInv ts -> TempoInv (tempoStep ts ev).
Proof.
  destruct ts as [times s]. intros Hok (Hb & Hi & Hc & Ht & Hl).
  cbn [fst snd] in *.
  assert (HR : Ranges s) by auto.
  destruct ev; cbn [tempoStep tempoEventOk] in *;
    try (unfold TempoInv; cbn; repeat split; lia).
  - (* Tap *)
    destruct (handleTap_spec now times s Hl) as (Hl' & _ & Hs).
    destruct (handleTap now (times, s)) as [times' s']. cbn [fst snd] in *.
    unfold TempoInv. destruct Hs as [->|(b & Hb' & ->)]; cbn;
      repeat split; lia.
  - (* TrainerToggle *)
    unfold TempoInv. cbn [fst snd].
    destruct (render_ranges s
                (setTrainerSettings
                   (fun t => mkTrainer (negb (enabled t)) (barCount t)
                                       (increment t) (currentBarTracker t)) s))
      as (H1 & H2 & H3 & H4); [cbn; auto|auto].
  - (* TogglePlay *)
    unfold TempoInv. cbn [fst snd].
    destruct (togglePlay_ranges s HR) as (H1 & H2 & H3 & H4). auto.
  - (* EngineStep *)
    unfold TempoInv. cbn [fst snd].
    destruct (onStep_ranges step s HR) as (H1 & H2 & H3 & H4). auto.
Qed.

Lemma tempoRun_inv (evs : list TempoEvent) (ts : list Z * State) :
  Forall tempoEventOk evs -> TempoInv ts -> TempoInv (tempoRun evs ts).
Proof.
  intros Hok. revert ts. induction Hok as [|ev evs Hev _ IH]; intros ts HI.
  - exact HI.
  - cbn. apply IH. now apply tempoStep_inv.
Qed.

End TempoFacts.

(** X15. Tap tempo. A tap keeps at most the five latest tap times, the
    tap itself last; it leaves the tempo as it was or sets it to a whole
    number within 20..300, and touches nothing else of the state; a first
    tap, and a tap more than two seconds after the one before, only
    restart the list and leave the tempo. *)
Theorem tap_tempo (now : Z) (times : list Z) (s : Metronome.State) :
  (length times <= 5)%nat ->
  let r := MetronomeControls.handleTap now (times, s) in
  (1 <= length (fst r) <= 5)%nat
  /\ last (fst r) = Some now
  /\ (exists b, snd r = Metronome.setBpm (fun _ => b) s
                /\ (b = Metronome.bpm s \/ 20 <= b <= 300))
  /\ (times = [] -> r = ([now], s))
  /\ (forall t, last times = Some t -> now - t > 2000 -> r = ([now], s)).
Proof.
  intros Hlen r. subst r.
  destruct (handleTap_spec now times s Hlen) as (Hl & Hlast & Hs).
  split; [exact Hl|]. split; [exact Hlast|]. split.
  - destruct Hs as [->|(b & Hb & ->)].
    + exists (Metronome.bpm s). split; [now destruct s|now left].
    + exists b. auto.
  - split.
    + intros ->. reflexivity.
    + intros t Ht Hgap. apply handleTap_restart. right. eauto.
Qed.

Lemma tap_tempo_witness :
  let r := MetronomeControls.handleTap 2000
             ([1000; 1500], MetronomeControls.mounted) in
  (1 <= length (fst r) <= 5)%nat
  /\ last (fst r) = Some 2000
  /\ (exists b, snd r = Metronome.setBpm (fun _ => b) MetronomeControls.mounted
                /\ (b = Metronome.bpm MetronomeControls.mounted \/ 20 <= b <= 300))
  /\ ([1000; 1500] = [] -> r = ([2000], MetronomeControls.mounted))
  /\ (forall t, last [1000; 1500] = Some t -> 2000 - t > 2000 ->
                r = ([2000], MetronomeControls.mounted)).
Proof.
  apply (tap_tempo 2000 [1000; 1500] MetronomeControls.mounted). cbn. lia.
Defined.

(** Taps half a second apart set 120; a tap after a long pause, and two
    taps within the same millisecond, set nothing. *)
Example taps :
  Metronome.bpm
    (snd (MetronomeControls.handleTap 2000
            ([1000; 1500], Metronome.setBpm (fun _ => 90) MetronomeControls.mounted)))
  = 120
  /\ MetronomeControls.handleTap 9000
       ([1000; 1500], Metronome.setBpm (fun _ => 90) MetronomeControls.mounted)
     = ([9000], Metronome.setBpm (fun _ => 90) MetronomeControls.mounted)
  /\ MetronomeControls.handleTap 1000
       ([1000], Metronome.setBpm (fun _ => 90) MetronomeControls.mounted)
     = ([1000; 1000], Metronome.setBpm (fun _ => 90) MetronomeControls.mounted).
Proof. repeat split; vm_compute; reflexivity. Qed.

(** X16. The tempo stays within 20..300 beats per minute. Whatever the
    user does with the tempo buttons, the slider (a range input, reporting
    within its bounds 30..250), the tap button, the speed trainer's switch
    and buttons and the play button, and whatever steps the engine calls
    back with: the tempo is within 20..300, the trainer's increment within
    1..20 and its bar count within 1..64, the bar counter is not negative
    and at most five tap times are kept. *)
Theorem tempo_invariant (evs : list MetronomeControls.TempoEvent) :
  Forall MetronomeControls.tempoEventOk evs ->
  MetronomeControls.TempoInv
    (MetronomeControls.tempoRun evs ([], MetronomeControls.mounted)).
Proof.
  intros Hok. apply tempoRun_inv; [exact Hok|].
  unfold MetronomeControls.TempoInv. cbn. repeat split; lia.
Qed.

Lemma tempo_invariant_witness :
  MetronomeControls.TempoInv
    (MetronomeControls.tempoRun
       [MetronomeControls.BpmSlider 250; MetronomeControls.TrainerToggle;
        MetronomeControls.IncrementPlus; MetronomeControls.TogglePlay;
        MetronomeControls.EngineStep 0; MetronomeControls.EngineStep 1;
        MetronomeControls.Tap 1000; MetronomeControls.Tap 1100]
       ([], MetronomeControls.mounted)).
Proof.
  apply (tempo_invariant
           [MetronomeControls.BpmSlider 250; MetronomeControls.TrainerToggle;
            MetronomeControls.IncrementPlus; MetronomeControls.TogglePlay;
            MetronomeControls.EngineStep 0; MetronomeControls.EngineStep 1;
            MetronomeControls.Tap 1000; MetronomeControls.Tap 1100]).
  repeat constructor; cbn; lia.
Defined.

(** ** Ear-training questions *)

Section QuestionFacts.
Import Questions.

Lemma noteIndex_range (m : Z) : 0 <= noteIndex m < 12.
Proof.
  unfold noteIndex.
  pose proof (Z.rem_bound_abs m 12 ltac:(lia)) as H.
  rewrite Z.rem_mod_nonneg by lia. apply Z.mod_pos_bound. lia.
Qed.

(** The lookup of [noteNameOf] is always within the table. *)
Lemma noteNameOf_lookup (m : Z) :
  Js.getZ NOTE_STRINGS (noteIndex m) = Some (noteNameOf m).
Proof.
  unfold noteNameOf. pose proof (noteIndex_range m) as H.
  destruct (Js.getZ NOTE_STRINGS (noteIndex m)) eqn:Hg; [reflexivity|].
  unfold Js.getZ in Hg. destruct (Z.ltb_spec (noteIndex m) 0); [lia|].
  apply lookup_ge_None in Hg. cbn in Hg. lia.
Qed.

Lemma includes_spec {X : Type} `{EqDecision X} (arr : list X) (x : X) :
  includes arr x = true <-> x ∈ arr.
Proof. unfold includes. apply bool_decide_eq_true. Qed.

(** The loop that pushes the pitches kept is a filter. *)
Lemma fold_push_filter {X : Type} (p : X -> bool) (l acc : list X) :
  fold_left (fun acc x => if p x then acc ++ [x] else acc) l acc
  = acc ++ List.filter p l.
Proof.
  revert acc. induction l as [|x l IH]; intros acc; cbn.
  - now rewrite app_nil_r.
  - rewrite IH. destruct (p x); [now rewrite <- app_assoc|reflexivity].
Qed.

Lemma StronglySorted_seqZ (m : Z) (n : nat) :
  StronglySorted Z.lt (seqZ m (Z.of_nat n)).
Proof.
  revert m. induction n as [|n IH]; intros m; [constructor|].
  rewrite seqZ_cons by lia.
  replace (Z.pred (Z.of_nat (S n))) with (Z.of_nat n) by lia.
  constructor; [apply IH|].
  apply List.Forall_forall. intros x Hx. apply list_elem_of_In, elem_of_seqZ in Hx. lia.
Qed.

Lemma StronglySorted_filter {X : Type} (R : X -> X -> Prop) (p : X -> bool)
    (l : list X) :
  StronglySorted R l -> StronglySorted R (List.filter p l).
Proof.
  induction 1 as [|x l Hl IH Hx]; cbn; [constructor|].
  destruct (p x); [|exact IH]. constructor; [exact IH|].
  apply List.Forall_forall. intros y Hy. apply List.filter_In in Hy as [Hy _].
  rewrite List.Forall_forall in Hx. auto.
Qed.

(** The candidates are the selected pitches of the range, in the order of
    the range, or middle C alone. *)
Lemma candidatesOf_filter (settings : EarTrainingSettings) :
  let minMidi := (fst (octaveRange settings) + 1) * 12 in
  let maxMidi := (snd (octaveRange settings) + 1) * 12 + 11 in
  let cs := List.filter (fun m => includes (selectedNotes settings) (noteNameOf m))
                        (seqZ minMidi (maxMidi - minMidi + 1)) in
  candidatesOf settings = match cs with [] => [60] | _ => cs end.
Proof.
  cbn zeta. unfold candidatesOf. rewrite fold_push_filter. cbn [app].
  now destruct (List.filter _ _).
Qed.

Lemma seqZ_sorted (m len : Z) : StronglySorted Z.lt (seqZ m len).
Proof.
  destruct (Z.le_gt_cases 0 len) as [Hpos|Hneg].
  - rewrite <- (Z2Nat.id len) by lia. apply StronglySorted_seqZ.
  - unfold seqZ. replace (Z.to_nat len) with O by lia. constructor.
Qed.

Lemma candidatesOf_nonempty (settings : EarTrainingSettings) :
  candidatesOf settings <> [].
Proof.
  rewrite candidatesOf_filter. cbn zeta. now destruct (List.filter _ _).
Qed.

Lemma candidatesOf_sorted (settings : EarTrainingSettings) :
  StronglySorted Z.lt (candidatesOf settings).
Proof.
  rewrite candidatesOf_filter. cbn zeta.
  pose proof (StronglySorted_filter Z.lt
    (fun m => includes (selectedNotes settings) (noteNameOf m)) _
    (seqZ_sorted ((fst (octaveRange settings) + 1) * 12)
       ((snd (octaveRange settings) + 1) * 12 + 11
        - (fst (octaveRange settings) + 1) * 12 + 1))) as H.
  destruct (List.filter _ _); [repeat constructor|exact H].
Qed.

Lemma sorted_NoDup (l : list Z) : StronglySorted Z.lt l -> NoDup l.
Proof.
  induction 1 as [|x l Hl IH Hx]; constructor; [|exact IH].
  intros Hin. rewrite List.Forall_forall in Hx.
  apply list_elem_of_In in Hin. specialize (Hx x Hin). lia.
Qed.

End QuestionFacts.

(** X17. The pitches a question is drawn from: never none, in strictly
    ascending order, and either exactly the pitches of the octave range
    whose note is selected, or middle C alone when no pitch of the range
    has a selected note (no note selected, or a range whose first octave
    is above its second). *)
Theorem question_candidates (settings : Questions.EarTrainingSettings) :
  let minMidi := (fst (Questions.octaveRange settings) + 1) * 12 in
  let maxMidi := (snd (Questions.octaveRange settings) + 1) * 12 + 11 in
  let selected m :=
    minMidi <= m <= maxMidi
    /\ Questions.noteNameOf m ∈ Questions.selectedNotes settings in
  Questions.candidatesOf settings <> []
  /\ Questions.Ascending (Questions.candidatesOf settings)
  /\ ((forall m, m ∈ Questions.candidatesOf settings <-> selected m)
      \/ (Questions.candidatesOf settings = [60]
          /\ forall m, ~ selected m)).
Proof.
  intros minMidi maxMidi selected. unfold Questions.candidatesOf.
  fold minMidi maxMidi. rewrite fold_push_filter. cbn [app].
  set (cs := List.filter _ _).
  assert (Hin : forall m, m ∈ cs <-> selected m).
  { intros m. subst cs selected. rewrite list_elem_of_In, List.filter_In.
    rewrite <- list_elem_of_In, elem_of_seqZ, includes_spec. cbn beta.
    split; intros [H1 H2]; (split; [lia|exact H2]). }
  assert (Hsorted : StronglySorted Z.lt cs).
  { subst cs. apply StronglySorted_filter, seqZ_sorted. }
  clearbody cs. destruct cs as [|c cs']; cbn [length Z.of_nat Z.eqb].
  - split; [discriminate|]. split; [repeat constructor|]. right.
    split; [reflexivity|]. intros m Hm. apply Hin in Hm. inversion Hm.
  - split; [discriminate|]. split; [exact Hsorted|]. left. exact Hin.
Qed.

Example candidates_examples :
  Questions.candidatesOf
    (Questions.mkSettings Questions.ModeNote [NoteName.C; NoteName.G] (3, 4) 1 [] [])
  = [48; 55; 60; 67]
  /\ Questions.candidatesOf
       (Questions.mkSettings Questions.ModeNote [NoteName.C] (5, 3) 1 [] [])
     = [60]
  /\ Questions.candidatesOf
       (Questions.mkSettings Questions.ModeNote [] (6, 6) 1 [] [])
     = [60].
Proof. repeat split. Qed.

Section DrawFacts.
Import Questions.

Variable random : nat -> Z -> Z.
Hypothesis random_ok : RandomOk random.

Lemma choose_some {X : Type} (k : nat) (arr : list X) :
  arr <> [] -> exists x, choose random k arr = Some x /\ x ∈ arr.
Proof.
  intros Hne. unfold choose.
  assert (Hlen : 0 < Z.of_nat (length arr)).
  { destruct arr; [contradiction|cbn; lia]. }
  pose proof (random_ok k _ Hlen) as Hr. unfold Js.getZ.
  destruct (Z.ltb_spec (random k (Z.of_nat (length arr))) 0); [lia|].
  destruct (lookup_lt_is_Some_2 arr (Z.to_nat (random k (Z.of_nat (length arr)))))
    as (x & Hx); [lia|].
  exists x. split; [exact Hx|]. eapply list_elem_of_lookup_2, Hx.
Qed.

(** The list a quality is drawn from: the selection, or the fallback. *)
Lemma fallback_list {X : Type} (sel : list X) (d : X) :
  let l := if 0 <? Z.of_nat (length sel) then sel else [d] in
  l <> [] /\ forall x, x ∈ l -> x ∈ sel \/ (sel = [] /\ x = d).
Proof.
  cbn zeta. destruct sel as [|y sel]; cbn [length].
  - cbn. split; [discriminate|]. intros x Hx.
    apply list_elem_of_singleton in Hx. auto.
  - destruct (Z.ltb_spec 0 (Z.of_nat (S (length sel)))); [|lia].
    split; [discriminate|auto].
Qed.

(** *** The note mode's loop *)

Lemma insertAsc_perm (x : Z) (l : list Z) : insertAsc x l ≡ₚ x :: l.
Proof.
  induction l as [|y l IH]; cbn; [reflexivity|].
  destruct (x <=? y); [reflexivity|].
  rewrite IH. apply Permutation_swap.
Qed.

Lemma sortAsc_perm (l : list Z) : sortAsc l ≡ₚ l.
Proof.
  induction l as [|x l IH]; cbn; [reflexivity|].
  now rewrite insertAsc_perm, IH.
Qed.

Lemma insertAsc_sorted (x : Z) (l : list Z) :
  ~ x ∈ l -> StronglySorted Z.lt l -> StronglySorted Z.lt (insertAsc x l).
Proof.
  intros Hx Hl. induction Hl as [|y l Hl IH Hy]; cbn.
  - repeat constructor.
  - rewrite List.Forall_forall in Hy.
    assert (x <> y) by (intros ->; apply Hx; left).
    destruct (Z.leb_spec x y).
    + constructor; [now constructor; [|apply List.Forall_forall]|].
      apply List.Forall_forall. intros z [<-|Hz]; [lia|].
      specialize (Hy z Hz). lia.
    + constructor.
      * apply IH. intros Hin. apply Hx. now right.
      * apply List.Forall_forall. intros z Hz.
        apply list_elem_of_In in Hz. rewrite insertAsc_perm in Hz.
        apply list_elem_of_In in Hz. destruct Hz as [<-|Hz]; [lia|auto].
Qed.

Lemma sortAsc_sorted (l : list Z) : NoDup l -> StronglySorted Z.lt (sortAsc l).
Proof.
  induction 1 as [|x l Hx _ IH]; cbn; [constructor|].
  apply insertAsc_sorted; [|exact IH]. now rewrite sortAsc_perm.
Qed.

(** What the loop keeps: the notes drawn and the pool left are, together,
    the candidates; the names are those of the notes drawn, each once. *)
Definition DrawInv (candidates notes : list Z) (answerNames : list String.string)
    (pool : list Z) : Prop :=
  notes ++ pool ≡ₚ candidates
  /\ NoDup answerNames
  /\ forall s, s ∈ answerNames <->
               exists n, n ∈ notes /\ noteString (noteNameOf n) = s.

Lemma drawNotes_spec (candidates : list Z) (fuel k : nat) (notes : list Z)
    (answerNames : list String.string) (pool : list Z) :
  DrawInv candidates notes answerNames pool ->
  exists notes' answerNames' pool',
    drawNotes random fuel k notes answerNames pool = Some (notes', answerNames')
    /\ DrawInv candidates notes' answerNames' pool'
    /\ length notes' = (length notes + Nat.min fuel (length pool))%nat.
Proof.
  revert k notes answerNames pool.
  induction fuel as [|fuel IH]; intros k notes answerNames pool HI.
  - exists notes, answerNames, pool. cbn. repeat split; try apply HI. lia.
  - cbn [drawNotes].
    destruct pool as [|p0 pool0] eqn:Hpool.
    { exists notes, answerNames, []. cbn. repeat split; try apply HI. lia. }
    rewrite <- Hpool in *.
    assert (Hlen : 0 < Z.of_nat (length pool)) by (subst pool; cbn; lia).
    destruct (Z.eqb_spec (Z.of_nat (length pool)) 0) as [?|_]; [lia|].
    pose proof (random_ok k _ Hlen) as Hr.
    set (idx := random k (Z.of_nat (length pool))) in *.
    unfold Js.getZ. destruct (Z.ltb_spec idx 0); [lia|].
    destruct (lookup_lt_is_Some_2 pool (Z.to_nat idx)) as (n & Hn); [lia|].
    rewrite Hn. cbn zeta.
    destruct HI as (Hperm & Hnd & Hnames).
    edestruct (IH (S k) (notes ++ [n])
                 (if includes answerNames (noteString (noteNameOf n))
                  then answerNames
                  else answerNames ++ [noteString (noteNameOf n)])
                 (delete (Z.to_nat idx) pool))
      as (notes' & names' & pool' & Hrun & HI' & Hlen').
    { split; [|split].
      - rewrite <- Hperm, <- app_assoc. apply Permutation_app_head.
        cbn. symmetry. now apply delete_Permutation.
      - destruct (includes answerNames _) eqn:Hinc; [exact Hnd|].
        apply NoDup_app. repeat split; [exact Hnd| |apply NoDup_singleton].
        intros s Hs Hs'. apply list_elem_of_singleton in Hs'. subst s.
        apply includes_spec in Hs. congruence.
      - intros s. destruct (includes answerNames _) eqn:Hinc.
        + apply includes_spec in Hinc. rewrite Hnames. split.
          * intros (m & Hm & Hs). exists m. split; [|exact Hs].
            apply elem_of_app. now left.
          * intros (m & Hm & Hs). apply elem_of_app in Hm as [Hm|Hm]; [eauto|].
            apply list_elem_of_singleton in Hm. subst m s.
            now apply Hnames.
        + rewrite elem_of_app, list_elem_of_singleton, Hnames. split.
          * intros [(m & Hm & Hs)| ->].
            -- exists m. split; [apply elem_of_app; now left|exact Hs].
            -- exists n. split; [apply elem_of_app; right; now left|reflexivity].
          * intros (m & Hm & Hs). apply elem_of_app in Hm as [Hm|Hm]; [eauto|].
            apply list_elem_of_singleton in Hm. subst m. now right. }
    exists notes', names', pool'. split; [exact Hrun|]. split; [exact HI'|].
    rewrite Hlen', length_app, length_delete by eauto. cbn [length].
    assert (length pool <> 0)%nat by lia. lia.
Qed.

End DrawFacts.

Section GenerateFacts.
Import Stdlib.Strings.String.
Import Questions.

Variable random : nat -> Z -> Z.
Hypothesis random_ok : RandomOk random.

(** The root and the quality of the interval and chord modes are found. *)
Lemma draw_root_quality {Q : Type} (settings : EarTrainingSettings)
    (sel : list Q) (d : Q) :
  exists root quality,
    choose random 0 (candidatesOf settings) = Some root
    /\ choose random 1 (if 0 <? Z.of_nat (List.length sel) then sel else [d])
       = Some quality
    /\ root ∈ candidatesOf settings
    /\ (quality ∈ sel \/ (sel = [] /\ quality = d)).
Proof.
  destruct (choose_some random random_ok 0 (candidatesOf settings)
              (candidatesOf_nonempty settings)) as (root & Hroot & Hin).
  destruct (fallback_list sel d) as [Hne Hl].
  destruct (choose_some random random_ok 1 _ Hne) as (quality & Hq & Hqin).
  exists root, quality. auto.
Qed.

Lemma drawNotes_start (candidates : list Z) :
  DrawInv candidates [] [] candidates.
Proof.
  split; [reflexivity|]. split; [constructor|].
  intros s. split; [intros H; inversion H|].
  intros (n & H & _). inversion H.
Qed.

(** The note mode: the question is made of the notes and names the loop
    leaves, which keeps [DrawInv]. *)
Lemma generate_note (settings : EarTrainingSettings) :
  mode settings = ModeNote ->
  let numNotes := if polyphony settings =? 0 then 1 else polyphony settings in
  exists drawn names pool,
    generateQuestion random settings
    = Some (mkQuestion (sortAsc drawn)
              (String.concat ", "%string (map pitchLabel (sortAsc drawn))) names)
    /\ DrawInv (candidatesOf settings) drawn names pool
    /\ List.length drawn
       = Nat.min (Z.to_nat numNotes) (List.length (candidatesOf settings)).
Proof.
  intros Hmode numNotes.
  destruct (drawNotes_spec random random_ok (candidatesOf settings)
              (Z.to_nat numNotes) 0 [] [] (candidatesOf settings)
              (drawNotes_start _))
    as (drawn & names & pool & Hrun & HI & Hlen).
  exists drawn, names, pool. split; [|split; [exact HI|exact Hlen]].
  unfold generateQuestion. rewrite Hmode. fold numNotes. now rewrite Hrun.
Qed.

End GenerateFacts.

(** The sample source of indices is within the bounds. *)
Lemma sampleRandom_ok : Questions.RandomOk Questions.sampleRandom.
Proof. intros k n Hn. apply Z.mod_pos_bound. exact Hn. Defined.

Section QuestionTheorems.
Import Stdlib.Strings.String.

(** X18. An interval question is always produced: its root is one of the
    candidates, its second note lies 1 to 12 semitones above the root by
    the table of the quality, which is one of the selected qualities (the
    perfect fifth if none is selected), and the answer is the name of the
    quality. *)
Theorem interval_question (random : nat -> Z -> Z)
    (settings : Questions.EarTrainingSettings) :
  Questions.RandomOk random ->
  Questions.mode settings = Questions.ModeInterval ->
  exists root quality,
    Questions.generateQuestion random settings
    = Some (Questions.mkQuestion
              [root; root + Questions.semitonesOf quality]
              (Questions.intervalString quality)
              [Questions.intervalString quality])
    /\ root ∈ Questions.candidatesOf settings
    /\ 1 <= Questions.semitonesOf quality <= 12
    /\ (quality ∈ Questions.intervalQualities settings
        \/ (Questions.intervalQualities settings = []
            /\ quality = IntervalQuality.P5)).
Proof.
  intros Hr Hmode.
  destruct (draw_root_quality random Hr settings
              (Questions.intervalQualities settings) IntervalQuality.P5)
    as (root & quality & Hroot & Hq & Hin & Hsel).
  exists root, quality. unfold Questions.generateQuestion.
  rewrite Hmode, Hroot. cbn [mbind option_bind]. rewrite Hq. cbn [mbind option_bind].
  split; [reflexivity|]. split; [exact Hin|]. split; [|exact Hsel].
  destruct quality; cbn; lia.
Qed.

Lemma interval_question_witness :
  exists root quality,
    Questions.generateQuestion Questions.sampleRandom
      (Questions.mkSettings Questions.ModeInterval [NoteName.C; NoteName.G]
         (3, 4) 1 [] [IntervalQuality.m3; IntervalQuality.P4])
    = Some (Questions.mkQuestion
              [root; root + Questions.semitonesOf quality]
              (Questions.intervalString quality)
              [Questions.intervalString quality])
    /\ root ∈ Questions.candidatesOf
         (Questions.mkSettings Questions.ModeInterval [NoteName.C; NoteName.G]
            (3, 4) 1 [] [IntervalQuality.m3; IntervalQuality.P4])
    /\ 1 <= Questions.semitonesOf quality <= 12
    /\ (quality ∈ [IntervalQuality.m3; IntervalQuality.P4]
        \/ ([IntervalQuality.m3; IntervalQuality.P4] = []
            /\ quality = IntervalQuality.P5)).
Proof.
  apply (interval_question Questions.sampleRandom
           (Questions.mkSettings Questions.ModeInterval [NoteName.C; NoteName.G]
              (3, 4) 1 [] [IntervalQuality.m3; IntervalQuality.P4])).
  - exact sampleRandom_ok.
  - reflexivity.
Defined.

Example interval_question_run :
  Questions.generateQuestion Questions.sampleRandom
    (Questions.mkSettings Questions.ModeInterval [NoteName.C; NoteName.G]
       (3, 4) 1 [] [IntervalQuality.m3; IntervalQuality.P4])
  = Some (Questions.mkQuestion [67; 70] "Minor 3rd"%string ["Minor 3rd"%string]).
Proof. reflexivity. Qed.

(** X19. In the chord mode (and in any mode that is neither the interval
    nor the note mode) a question is always produced: its notes are the
    root, one of the candidates, and two or three notes above it within
    eleven semitones, in strictly ascending order; the quality is one of
    the selected ones (major if none is selected) and the label names the
    root's note and the quality. *)
Theorem chord_question (random : nat -> Z -> Z)
    (settings : Questions.EarTrainingSettings) :
  Questions.RandomOk random ->
  Questions.mode settings <> Questions.ModeInterval ->
  Questions.mode settings <> Questions.ModeNote ->
  exists root quality rest,
    Questions.generateQuestion random settings
    = Some (Questions.mkQuestion (root :: rest)
              (String.append (Questions.noteString (Questions.noteNameOf root))
                 (String.append " "%string (Questions.chordString quality)))
              [Questions.chordString quality])
    /\ root ∈ Questions.candidatesOf settings
    /\ Questions.Ascending (root :: rest)
    /\ (List.length rest = 2 \/ List.length rest = 3)%nat
    /\ Forall (fun n => root < n <= root + 11) rest
    /\ (quality ∈ Questions.chordQualities settings
        \/ (Questions.chordQualities settings = []
            /\ quality = ChordQuality.MAJOR)).
Proof.
  intros Hr Hm1 Hm2.
  destruct (draw_root_quality random Hr settings
              (Questions.chordQualities settings) ChordQuality.MAJOR)
    as (root & quality & Hroot & Hq & Hin & Hsel).
  exists root, quality, (map (fun i => root + i) (tl (Questions.intervalsOf quality))).
  split.
  { unfold Questions.generateQuestion.
    destruct (Questions.mode settings); try contradiction;
      rewrite Hroot; cbn [mbind option_bind]; rewrite Hq; cbn [mbind option_bind];
      do 2 f_equal; destruct quality; cbn; now rewrite Z.add_0_r. }
  split; [exact Hin|].
  split; [|split; [|split; [|exact Hsel]]].
  - unfold Questions.Ascending.
    destruct quality; cbn;
      repeat (constructor; [|repeat (constructor; try lia)]); constructor.
  - destruct quality; cbn; auto.
  - destruct quality; cbn; repeat (constructor; [lia|]); constructor.
Qed.

Lemma chord_question_witness :
  exists root quality rest,
    Questions.generateQuestion Questions.sampleRandom
      (Questions.mkSettings Questions.ModeChord [NoteName.D] (4, 4) 1
         [ChordQuality.MINOR_7; ChordQuality.AUGMENTED] [])
    = Some (Questions.mkQuestion (root :: rest)
              (String.append (Questions.noteString (Questions.noteNameOf root))
                 (String.append " "%string (Questions.chordString quality)))
              [Questions.chordString quality])
    /\ root ∈ Questions.candidatesOf
         (Questions.mkSettings Questions.ModeChord [NoteName.D] (4, 4) 1
            [ChordQuality.MINOR_7; ChordQuality.AUGMENTED] [])
    /\ Questions.Ascending (root :: rest)
    /\ (List.length rest = 2 \/ List.length rest = 3)%nat
    /\ Forall (fun n => root < n <= root + 11) rest
    /\ (quality ∈ [ChordQuality.MINOR_7; ChordQuality.AUGMENTED]
        \/ ([ChordQuality.MINOR_7; ChordQuality.AUGMENTED] = []
            /\ quality = ChordQuality.MAJOR)).
Proof.
  apply (chord_question Questions.sampleRandom
           (Questions.mkSettings Questions.ModeChord [NoteName.D] (4, 4) 1
              [ChordQuality.MINOR_7; ChordQuality.AUGMENTED] [])).
  - exact sampleRandom_ok.
  - discriminate.
  - discriminate.
Defined.

Example chord_question_run :
  Questions.generateQuestion Questions.sampleRandom
    (Questions.mkSettings Questions.ModeChord [NoteName.D] (4, 4) 1
       [ChordQuality.MINOR_7; ChordQuality.AUGMENTED] [])
  = Some (Questions.mkQuestion [62; 65; 69; 72] "D Minor 7"%string ["Minor 7"%string])
  /\ Questions.generateQuestion Questions.sampleRandom
       (Questions.mkSettings Questions.ModeVocal [] (4, 4) 1 [] [])
     = Some (Questions.mkQuestion [60; 64; 67] "C Major"%string ["Major"%string]).
Proof. split; reflexivity. Qed.

(** X20. A note question is always produced. Its notes are distinct
    candidates in strictly ascending order, as many as the polyphony asks
    for (one if it is 0) or all the candidates if there are fewer; its
    answer names are the note names of these notes, each listed once; and
    its label lists the notes in order with their octaves. *)
Theorem note_question (random : nat -> Z -> Z)
    (settings : Questions.EarTrainingSettings) :
  Questions.RandomOk random ->
  Questions.mode settings = Questions.ModeNote ->
  let numNotes :=
    if Questions.polyphony settings =? 0 then 1
    else Questions.polyphony settings in
  exists q,
    Questions.generateQuestion random settings = Some q
    /\ Questions.Ascending (Questions.notes q)
    /\ (forall n, n ∈ Questions.notes q -> n ∈ Questions.candidatesOf settings)
    /\ Z.of_nat (List.length (Questions.notes q))
       = Z.min (Z.max 0 numNotes)
               (Z.of_nat (List.length (Questions.candidatesOf settings)))
    /\ NoDup (Questions.answerNames q)
    /\ (forall s, s ∈ Questions.answerNames q <->
          exists n, n ∈ Questions.notes q
                    /\ Questions.noteString (Questions.noteNameOf n) = s)
    /\ Questions.answerLabel q
       = String.concat ", "%string (map Questions.pitchLabel (Questions.notes q)).
Proof.
  intros Hr Hmode numNotes.
  destruct (generate_note random Hr settings Hmode)
    as (notes & names & pool & Hgen & (Hperm & Hnd & Hnames) & Hlen).
  fold numNotes in Hlen. eexists. split; [exact Hgen|].
  cbn [Questions.notes Questions.answerNames Questions.answerLabel].
  assert (Hnd' : NoDup notes).
  { pose proof (sorted_NoDup _ (candidatesOf_sorted settings)) as Hc.
    rewrite <- Hperm in Hc. now apply NoDup_app in Hc as (Hc & _ & _). }
  split; [now apply sortAsc_sorted|].
  split.
  { intros n Hn. rewrite sortAsc_perm in Hn. rewrite <- Hperm.
    apply elem_of_app. now left. }
  split.
  { rewrite sortAsc_perm, Hlen. cbn [List.length]. lia. }
  split; [exact Hnd|]. split; [|reflexivity].
  intros s. rewrite Hnames. split; intros (n & Hn & Hs); exists n;
    (split; [|exact Hs]); [now rewrite sortAsc_perm|now rewrite sortAsc_perm in Hn].
Qed.

Lemma note_question_witness :
  exists q,
    Questions.generateQuestion Questions.sampleRandom
      (Questions.mkSettings Questions.ModeNote [NoteName.C; NoteName.E]
         (3, 4) 3 [] []) = Some q
    /\ Questions.Ascending (Questions.notes q)
    /\ (forall n, n ∈ Questions.notes q ->
          n ∈ Questions.candidatesOf
                (Questions.mkSettings Questions.ModeNote [NoteName.C; NoteName.E]
                   (3, 4) 3 [] []))
    /\ Z.of_nat (List.length (Questions.notes q))
       = Z.min (Z.max 0 3)
               (Z.of_nat (List.length
                  (Questions.candidatesOf
                     (Questions.mkSettings Questions.ModeNote
                        [NoteName.C; NoteName.E] (3, 4) 3 [] []))))
    /\ NoDup (Questions.answerNames q)
    /\ (forall s, s ∈ Questions.answerNames q <->
          exists n, n ∈ Questions.notes q
                    /\ Questions.noteString (Questions.noteNameOf n) = s)
    /\ Questions.answerLabel q
       = String.concat ", "%string (map Questions.pitchLabel (Questions.notes q)).
Proof.
  apply (note_question Questions.sampleRandom
           (Questions.mkSettings Questions.ModeNote [NoteName.C; NoteName.E]
              (3, 4) 3 [] [])).
  - exact sampleRandom_ok.
  - reflexivity.
Defined.

Example note_question_run :
  Questions.generateQuestion Questions.sampleRandom
    (Questions.mkSettings Questions.ModeNote [NoteName.C; NoteName.E]
       (3, 4) 3 [] [])
  = Some (Questions.mkQuestion [52; 60; 64] "E3, C4, E4"%string
            ["E"%string; "C"%string])
  /\ Questions.generateQuestion Questions.sampleRandom
       (Questions.mkSettings Questions.ModeNote [NoteName.A] (4, 4) 0 [] [])
     = Some (Questions.mkQuestion [69] "A4"%string ["A"%string])
  /\ Questions.generateQuestion Questions.sampleRandom
       (Questions.mkSettings Questions.ModeNote [NoteName.A] (2, 6) 9 [] [])
     = Some (Questions.mkQuestion [45; 57; 69; 81; 93]
               "A2, A3, A4, A5, A6"%string ["A"%string]).
Proof. repeat split. Qed.

End QuestionTheorems.

(** ** Ear training: answers and selections *)

Section AnswerFacts.
Import EarTraining.

Lemma judge_fields (isCorrect : bool) (delay : Z) (s : State) :
  feedback (judge isCorrect delay s)
  = Some (if isCorrect then Correct else Incorrect)
  /\ correct (score (judge isCorrect delay s))
     = correct (score s) + (if isCorrect then 1 else 0)
  /\ total (score (judge isCorrect delay s)) = total (score s) + 1
  /\ currentQuestion (judge isCorrect delay s) = currentQuestion s
  /\ userSelection (judge isCorrect delay s) = userSelection s.
Proof. destruct isCorrect; cbn; repeat split; lia. Qed.

(** A question is generated whatever the settings. *)
Lemma generate_some (random : nat -> Z -> Z)
    (settings : Questions.EarTrainingSettings) :
  Questions.RandomOk random ->
  exists q, Questions.generateQuestion random settings = Some q.
Proof.
  intros Hr. destruct (Questions.mode settings) eqn:Hmode.
  - destruct (generate_note random Hr settings Hmode)
      as (drawn & names & pool & Hgen & _). eauto.
  - destruct (draw_root_quality random Hr settings
                (Questions.chordQualities settings) ChordQuality.MAJOR)
      as (root & quality & Hroot & Hq & _).
    unfold Questions.generateQuestion. rewrite Hmode, Hroot.
    cbn [mbind option_bind]. rewrite Hq. cbn [mbind option_bind]. eauto.
  - destruct (draw_root_quality random Hr settings
                (Questions.intervalQualities settings) IntervalQuality.P5)
      as (root & quality & Hroot & Hq & _).
    unfold Questions.generateQuestion. rewrite Hmode, Hroot.
    cbn [mbind option_bind]. rewrite Hq. cbn [mbind option_bind]. eauto.
  - destruct (draw_root_quality random Hr settings
                (Questions.chordQualities settings) ChordQuality.MAJOR)
      as (root & quality & Hroot & Hq & _).
    unfold Questions.generateQuestion. rewrite Hmode, Hroot.
    cbn [mbind option_bind]. rewrite Hq. cbn [mbind option_bind]. eauto.
Qed.

Lemma nextQuestion_spec (random : nat -> Z -> Z) (s : State) :
  Questions.RandomOk random ->
  exists q,
    Questions.generateQuestion random (questionSettings s) = Some q
    /\ nextQuestion random s
       = Some (mkState (mode s) (gameMode s) (selectedNotes s) (octaveRange s)
                 (polyphony s) (chordQualities s) (intervalQualities s)
                 (Some q) [] None (score s) None).
Proof.
  intros Hr. destruct (generate_some random (questionSettings s) Hr) as (q & Hq).
  exists q. split; [exact Hq|]. unfold nextQuestion.
  change (questionSettings _) with (questionSettings s).
  now rewrite Hq.
Qed.




End AnswerFacts.


Section ScoreExamples.
Import Stdlib.Strings.String.


Example score_run :
  (s ← EarTraining.gameRun EarTraining.initialState
         [EarTraining.NextQuestion Questions.sampleRandom;
          EarTraining.AnswerClick "D#"%string;
          EarTraining.AnswerClick "C"%string;
          EarTraining.CheckAnswer];
   Some (EarTraining.currentQuestion s, EarTraining.feedback s,
         EarTraining.score s, EarTraining.autoAdvanceTimer s))
  = Some (Some (Questions.mkQuestion [51] "D#3"%string ["D#"%string]),
          Some EarTraining.Correct, EarTraining.mkScore 1 1, Some 1000).
Proof. reflexivity. Qed.

End ScoreExamples.

Section CheckFacts.
Import EarTraining.

Lemma without_spec {X : Type} `{EqDecision X} (x y : X) (arr : list X) :
  y ∈ without x arr <-> y ∈ arr /\ y <> x.
Proof.
  unfold without. rewrite !list_elem_of_In, List.filter_In.
  rewrite negb_true_iff, bool_decide_eq_false. reflexivity.
Qed.

Lemma without_NoDup {X : Type} `{EqDecision X} (x : X) (arr : list X) :
  NoDup arr -> NoDup (without x arr).
Proof.
  rewrite !NoDup_ListNoDup. apply List.NoDup_filter.
Qed.

(** The selection a click of the multi-note mode leaves. *)
Lemma selection_click_NoDup (answer : String.string) (limit : Z)
    (prev : list String.string) :
  NoDup prev ->
  NoDup (if Questions.includes prev answer then without answer prev
         else if Z.of_nat (length prev) <? limit
              then prev ++ [answer] else prev).
Proof.
  intros Hnd. destruct (Questions.includes prev answer) eqn:Hinc.
  - now apply without_NoDup.
  - destruct (_ <? _); [|exact Hnd].
    apply NoDup_app. repeat split; [exact Hnd| |apply NoDup_singleton].
    intros x Hx Hx'. apply list_elem_of_singleton in Hx'. subst x.
    apply includes_spec in Hx. congruence.
Qed.

(** In the multi-note mode a click changes the selection only. *)
Lemma click_multi (answer : String.string) (s : State) :
  gameMode s = GameNote -> polyphony s <> 1 ->
  let s' := handleAnswerClick answer s in
  gameMode s' = gameMode s /\ polyphony s' = polyphony s
  /\ currentQuestion s' = currentQuestion s /\ feedback s' = feedback s
  /\ score s' = score s
  /\ (NoDup (userSelection s) -> NoDup (userSelection s')).
Proof.
  intros Hmode Hpoly. cbn zeta. unfold handleAnswerClick.
  destruct (feedback s) eqn:Hf; [now rewrite Hf|].
  destruct (currentQuestion s) as [q|] eqn:Hq; [|now rewrite Hf, Hq].
  rewrite Hmode. destruct (Z.eqb_spec (polyphony s) 1); [contradiction|].
  cbn. repeat split; try assumption. apply selection_click_NoDup.
Qed.

Lemma clicks_multi (answers : list String.string) (s : State) :
  gameMode s = GameNote -> polyphony s <> 1 ->
  let s' := fold_left (fun st a => handleAnswerClick a st) answers s in
  gameMode s' = gameMode s /\ polyphony s' = polyphony s
  /\ currentQuestion s' = currentQuestion s /\ feedback s' = feedback s
  /\ score s' = score s
  /\ (NoDup (userSelection s) -> NoDup (userSelection s')).
Proof.
  revert s. induction answers as [|a answers IH]; intros s Hmode Hpoly.
  - cbn. repeat split; auto.
  - cbn [fold_left]. cbn zeta.
    destruct (click_multi a s Hmode Hpoly) as (Hm & Hp & Hq & Hf & Hs & Hnd).
    destruct (IH (handleAnswerClick a s)) as (Hm' & Hp' & Hq' & Hf' & Hs' & Hnd');
      [congruence|congruence|].
    repeat split; try congruence. auto.
Qed.

(** [every] and equal lengths, on lists without repetition: the same
    members. *)
Lemma same_members (sel names : list String.string) :
  NoDup sel ->
  ((Z.of_nat (length sel) =? Z.of_nat (length names))
   && forallb (fun val => Questions.includes names val) sel = true
   <-> sel ≡ₚ names).
Proof.
  intros Hsel. rewrite andb_true_iff, Z.eqb_eq, forallb_forall. split.
  - intros [Hlen Hall]. apply submseteq_length_Permutation; [|lia].
    apply NoDup_submseteq; [exact Hsel|].
    intros x Hx. apply includes_spec, Hall, list_elem_of_In, Hx.
  - intros Hperm. split; [now rewrite Hperm|].
    intros x Hx. apply includes_spec. rewrite <- Hperm.
    now apply list_elem_of_In.
Qed.

Lemma noteString_inj (a b : NoteName.t) :
  Questions.noteString a = Questions.noteString b -> a = b.
Proof. destruct a, b; cbn; intros H; first [reflexivity|discriminate H]. Qed.

Lemma NoDup_fmap_inj {X Y : Type} (f : X -> Y) (l : list X) (x y : X) :
  NoDup (f <$> l) -> x ∈ l -> y ∈ l -> f x = f y -> x = y.
Proof.
  induction l as [|z l IH]; intros Hnd Hx Hy Hf; [inversion Hx|].
  rewrite fmap_cons in Hnd. apply NoDup_cons in Hnd as [Hz Hnd].
  apply elem_of_cons in Hx as [->|Hx]; apply elem_of_cons in Hy as [->|Hy].
  - reflexivity.
  - exfalso. apply Hz. rewrite Hf. now apply list_elem_of_fmap_2.
  - exfalso. apply Hz. rewrite <- Hf. now apply list_elem_of_fmap_2.
  - now apply IH.
Qed.

(** Names listed once each for notes of which two share a name are fewer
    than the notes. *)
Lemma fewer_names {X Y : Type} (f : X -> Y) (notes : list X) (names : list Y)
    (n1 n2 : X) :
  NoDup names ->
  (forall s, s ∈ names <-> exists n, n ∈ notes /\ f n = s) ->
  n1 ∈ notes -> n2 ∈ notes -> n1 <> n2 -> f n1 = f n2 ->
  (length names < length notes)%nat.
Proof.
  intros Hnd Hnames H1 H2 Hne Hf.
  assert (Hsub : names ⊆+ f <$> notes).
  { apply NoDup_submseteq; [exact Hnd|]. intros s Hs.
    apply Hnames in Hs as (n & Hn & <-). now apply list_elem_of_fmap_2. }
  pose proof (submseteq_length _ _ Hsub) as Hle. rewrite length_fmap in Hle.
  destruct (decide (length names = length notes)) as [Heq|]; [|lia].
  exfalso. apply Hne.
  apply (NoDup_fmap_inj f notes); try assumption.
  rewrite <- (submseteq_length_Permutation _ _ Hsub); [exact Hnd|].
  rewrite length_fmap. lia.
Qed.

Lemma two_members {X : Type} (l : list X) (x y : X) :
  x ∈ l -> y ∈ l -> x <> y -> (2 <= length l)%nat.
Proof.
  intros Hx Hy Hne. destruct l as [|a [|b l]]; cbn; [inversion Hx| |lia].
  apply list_elem_of_singleton in Hx, Hy. congruence.
Qed.

End CheckFacts.

Section CheckTheorems.
Import Stdlib.Strings.String.

(** X22. The check of a multi-note answer. After any clicks on the answer
    buttons of a note question with a polyphony other than 1, the check
    judges the selection correct exactly if it consists of the answer
    names of the question, in any order, and incorrect otherwise; either
    way the total grows by one. *)
Theorem multi_note_check (s : EarTraining.State) (q : Questions.Question)
    (answers : list string) :
  EarTraining.gameMode s = EarTraining.GameNote ->
  EarTraining.polyphony s <> 1 ->
  EarTraining.feedback s = None ->
  EarTraining.currentQuestion s = Some q ->
  NoDup (EarTraining.userSelection s) ->
  NoDup (Questions.answerNames q) ->
  let s2 :=
    fold_left (fun st a => EarTraining.handleAnswerClick a st) answers s in
  let s3 := EarTraining.checkMultiNoteAnswer s2 in
  (EarTraining.feedback s3 = Some EarTraining.Correct
   <-> EarTraining.userSelection s2 ≡ₚ Questions.answerNames q)
  /\ (EarTraining.feedback s3 = Some EarTraining.Incorrect
      <-> ~ EarTraining.userSelection s2 ≡ₚ Questions.answerNames q)
  /\ EarTraining.total (EarTraining.score s3)
     = EarTraining.total (EarTraining.score s) + 1.
Proof.
  intros Hmode Hpoly Hf Hq Hsel Hnames s2 s3.
  destruct (clicks_multi answers s Hmode Hpoly)
    as (_ & _ & Hq2 & Hf2 & Hs2 & Hnd2).
  fold s2 in Hq2, Hf2, Hs2, Hnd2. specialize (Hnd2 Hsel).
  pose proof (same_members (EarTraining.userSelection s2)
                (Questions.answerNames q) Hnd2) as Hsame.
  subst s3. unfold EarTraining.checkMultiNoteAnswer.
  rewrite Hq2, Hq, Hf2, Hf. cbn zeta.
  match goal with
  | |- context [EarTraining.judge ?b ?d ?t] =>
      destruct (judge_fields b d t) as (-> & _ & -> & _);
      destruct b
  end; rewrite Hs2.
  - split; [|split; [|reflexivity]].
    + split; [intros _; now apply Hsame|reflexivity].
    + split; [discriminate|]. intros Hn. destruct Hn. now apply Hsame.
  - assert (Hno : ~ EarTraining.userSelection s2 ≡ₚ Questions.answerNames q).
    { intros Hp. apply Hsame in Hp. discriminate Hp. }
    split; [|split; [|reflexivity]].
    + split; [discriminate|]. intros Hp. now destruct Hno.
    + split; [intros _; exact Hno|reflexivity].
Qed.

Lemma multi_note_check_witness :
  let s :=
    EarTraining.mkState EarTraining.Game EarTraining.GameNote NOTE_STRINGS
      (3, 5) 2 [ChordQuality.MAJOR] [IntervalQuality.P5]
      (Some (Questions.mkQuestion [48; 55] "C3, G3"%string
               ["C"%string; "G"%string]))
      [] None (EarTraining.mkScore 0 0) None in
  let s2 :=
    fold_left (fun st a => EarTraining.handleAnswerClick a st)
      ["G"%string; "D"%string; "D"%string; "C"%string] s in
  let s3 := EarTraining.checkMultiNoteAnswer s2 in
  (EarTraining.feedback s3 = Some EarTraining.Correct
   <-> EarTraining.userSelection s2 ≡ₚ ["C"%string; "G"%string])
  /\ (EarTraining.feedback s3 = Some EarTraining.Incorrect
      <-> ~ EarTraining.userSelection s2 ≡ₚ ["C"%string; "G"%string])
  /\ EarTraining.total (EarTraining.score s3) = 0 + 1.
Proof.
  apply (multi_note_check
           (EarTraining.mkState EarTraining.Game EarTraining.GameNote
              NOTE_STRINGS (3, 5) 2 [ChordQuality.MAJOR] [IntervalQuality.P5]
              (Some (Questions.mkQuestion [48; 55] "C3, G3"%string
                       ["C"%string; "G"%string]))
              [] None (EarTraining.mkScore 0 0) None)
           (Questions.mkQuestion [48; 55] "C3, G3"%string
              ["C"%string; "G"%string])
           ["G"%string; "D"%string; "D"%string; "C"%string]).
  - reflexivity.
  - discriminate.
  - reflexivity.
  - reflexivity.
  - constructor.
  - apply NoDup_cons. split; [|apply NoDup_singleton].
    intros H. apply list_elem_of_singleton in H. discriminate H.
Defined.

Example multi_note_check_run :
  let s :=
    EarTraining.mkState EarTraining.Game EarTraining.GameNote NOTE_STRINGS
      (3, 5) 2 [ChordQuality.MAJOR] [IntervalQuality.P5]
      (Some (Questions.mkQuestion [48; 55] "C3, G3"%string
               ["C"%string; "G"%string]))
      [] None (EarTraining.mkScore 0 0) None in
  let run answers :=
    let s3 :=
      EarTraining.checkMultiNoteAnswer
        (fold_left (fun st a => EarTraining.handleAnswerClick a st) answers s) in
    (EarTraining.userSelection s3, EarTraining.feedback s3,
     EarTraining.score s3) in
  run ["G"%string; "D"%string; "D"%string; "C"%string]
  = (["G"%string; "C"%string], Some EarTraining.Correct,
     EarTraining.mkScore 1 1)
  /\ run ["C"%string; "D"%string; "G"%string]
     = (["C"%string; "D"%string], Some EarTraining.Incorrect,
        EarTraining.mkScore 0 1)
  /\ run ["C"%string]
     = (["C"%string], Some EarTraining.Incorrect, EarTraining.mkScore 0 1).
Proof. repeat split. Qed.

(** X23. A note question two of whose notes share a note name (the same
    note in two octaves) cannot be answered: its answer names are fewer
    than the polyphony, and whatever is clicked, once the selection has as
    many names as the polyphony, which is what enables the check button,
    the check judges it incorrect and counts it in the total only. *)
Theorem repeated_name_judged_incorrect (random : nat -> Z -> Z)
    (s s1 : EarTraining.State) (q : Questions.Question)
    (answers : list string) (n1 n2 : Z) :
  Questions.RandomOk random ->
  EarTraining.gameMode s = EarTraining.GameNote ->
  EarTraining.nextQuestion random s = Some s1 ->
  EarTraining.currentQuestion s1 = Some q ->
  n1 ∈ Questions.notes q -> n2 ∈ Questions.notes q -> n1 <> n2 ->
  Questions.noteNameOf n1 = Questions.noteNameOf n2 ->
  let s2 :=
    fold_left (fun st a => EarTraining.handleAnswerClick a st) answers s1 in
  Z.of_nat (List.length (EarTraining.userSelection s2))
  = EarTraining.polyphony s ->
  Z.of_nat (List.length (Questions.answerNames q)) < EarTraining.polyphony s
  /\ EarTraining.feedback (EarTraining.checkMultiNoteAnswer s2)
     = Some EarTraining.Incorrect
  /\ EarTraining.score (EarTraining.checkMultiNoteAnswer s2)
     = EarTraining.mkScore (EarTraining.correct (EarTraining.score s))
         (EarTraining.total (EarTraining.score s) + 1).
Proof.
  intros Hr Hmode Hnext Hq H1 H2 Hne Hname s2 Hlen.
  destruct (nextQuestion_spec random s Hr) as (q' & Hgen & Hs1).
  rewrite Hs1 in Hnext. injection Hnext as <-. cbn in Hq. injection Hq as ->.
  assert (Hsm : Questions.mode (EarTraining.questionSettings s)
                = Questions.ModeNote).
  { unfold EarTraining.questionSettings. now rewrite Hmode. }
  destruct (generate_note random Hr _ Hsm)
    as (drawn & names & pool & Hgen' & (Hperm & Hnd & Hnames) & Hdrawn).
  rewrite Hgen in Hgen'. injection Hgen' as ->.
  cbn [Questions.notes Questions.answerNames] in *.
  rewrite sortAsc_perm in H1, H2.
  assert (Hfew : (List.length names < List.length drawn)%nat).
  { apply (fewer_names (fun n => Questions.noteString (Questions.noteNameOf n))
             drawn names n1 n2); try assumption.
    cbn beta. now rewrite Hname. }
  assert (Hpoly : Z.of_nat (List.length drawn) <= EarTraining.polyphony s
                  /\ EarTraining.polyphony s <> 1).
  { pose proof (two_members drawn n1 n2 H1 H2 Hne) as Htwo.
    revert Hdrawn Hfew Htwo. unfold EarTraining.questionSettings.
    rewrite Hmode. cbn [Questions.polyphony].
    destruct (Z.eqb_spec (EarTraining.polyphony s) 0); lia. }
  destruct Hpoly as [Hle Hpoly]. split; [lia|].
  destruct (clicks_multi answers
           (EarTraining.mkState (EarTraining.mode s) (EarTraining.gameMode s)
              (EarTraining.selectedNotes s) (EarTraining.octaveRange s)
              (EarTraining.polyphony s) (EarTraining.chordQualities s)
              (EarTraining.intervalQualities s)
              (Some (Questions.mkQuestion (Questions.sortAsc drawn)
                       (concat ", "%string
                          (map Questions.pitchLabel (Questions.sortAsc drawn)))
                       names))
              [] None (EarTraining.score s) None) Hmode Hpoly)
    as (_ & _ & Hq2 & Hf2 & Hs2 & _).
  fold s2 in Hq2, Hf2, Hs2. cbn in Hq2, Hf2, Hs2.
  unfold EarTraining.checkMultiNoteAnswer. rewrite Hq2, Hf2. cbn zeta.
  cbn [Questions.answerNames].
  destruct (Z.eqb_spec (Z.of_nat (List.length (EarTraining.userSelection s2)))
              (Z.of_nat (List.length names))) as [Heq|_]; [lia|].
  cbn [andb EarTraining.judge]. cbn. rewrite Hs2. split; reflexivity.
Qed.

Lemma repeated_name_judged_incorrect_witness :
  let s :=
    EarTraining.mkState EarTraining.Game EarTraining.GameNote
      [NoteName.C; NoteName.D; NoteName.E] (3, 4) 2
      [ChordQuality.MAJOR] [IntervalQuality.P5]
      None [] None (EarTraining.mkScore 4 6) None in
  let q := Questions.mkQuestion [48; 60] "C3, C4"%string ["C"%string] in
  let s1 :=
    EarTraining.mkState EarTraining.Game EarTraining.GameNote
      [NoteName.C; NoteName.D; NoteName.E] (3, 4) 2
      [ChordQuality.MAJOR] [IntervalQuality.P5]
      (Some q) [] None (EarTraining.mkScore 4 6) None in
  let s2 :=
    fold_left (fun st a => EarTraining.handleAnswerClick a st)
      ["C"%string; "E"%string] s1 in
  EarTraining.nextQuestion Questions.sampleRandom s = Some s1
  /\ Z.of_nat (List.length (Questions.answerNames q)) < EarTraining.polyphony s
  /\ EarTraining.feedback (EarTraining.checkMultiNoteAnswer s2)
     = Some EarTraining.Incorrect
  /\ EarTraining.score (EarTraining.checkMultiNoteAnswer s2)
     = EarTraining.mkScore 4 (6 + 1).
Proof.
  split; [reflexivity|].
  apply (repeated_name_judged_incorrect Questions.sampleRandom
           (EarTraining.mkState EarTraining.Game EarTraining.GameNote
              [NoteName.C; NoteName.D; NoteName.E] (3, 4) 2
              [ChordQuality.MAJOR] [IntervalQuality.P5]
              None [] None (EarTraining.mkScore 4 6) None)
           (EarTraining.mkState EarTraining.Game EarTraining.GameNote
              [NoteName.C; NoteName.D; NoteName.E] (3, 4) 2
              [ChordQuality.MAJOR] [IntervalQuality.P5]
              (Some (Questions.mkQuestion [48; 60] "C3, C4"%string
                       ["C"%string]))
              [] None (EarTraining.mkScore 4 6) None)
           (Questions.mkQuestion [48; 60] "C3, C4"%string ["C"%string])
           ["C"%string; "E"%string] 48 60).
  - exact sampleRandom_ok.
  - reflexivity.
  - reflexivity.
  - reflexivity.
  - apply list_elem_of_here.
  - apply list_elem_of_further, list_elem_of_here.
  - discriminate.
  - reflexivity.
  - reflexivity.
Defined.

End CheckTheorems.

Section SelectionFacts.
Import EarTraining.

Lemma insertBy_perm {X : Type} (compare : X -> X -> Z) (x : X) (l : list X) :
  insertBy compare x l ≡ₚ x :: l.
Proof.
  induction l as [|y l IH]; cbn; [reflexivity|].
  destruct (compare x y <=? 0); [reflexivity|].
  rewrite IH. apply Permutation_swap.
Qed.

Lemma sortBy_perm {X : Type} (compare : X -> X -> Z) (l : list X) :
  sortBy compare l ≡ₚ l.
Proof.
  induction l as [|x l IH]; cbn; [reflexivity|].
  now rewrite insertBy_perm, IH.
Qed.

Section ByKey.

Variable X : Type.
Variable key : X -> Z.
Hypothesis key_inj : forall a b, key a = key b -> a = b.

Lemma insertBy_sorted (x : X) (l : list X) :
  ~ x ∈ l ->
  StronglySorted (fun a b => key a < key b) l ->
  StronglySorted (fun a b => key a < key b)
                 (insertBy (fun a b => key a - key b) x l).
Proof.
  intros Hx Hl. induction Hl as [|y l Hl IH Hy]; cbn.
  - repeat constructor.
  - rewrite List.Forall_forall in Hy.
    assert (key x <> key y).
    { intros Hk. apply key_inj in Hk. subst y. apply Hx. left. }
    destruct (Z.leb_spec (key x - key y) 0).
    + constructor; [now constructor; [|apply List.Forall_forall]|].
      apply List.Forall_forall. intros z [<-|Hz]; [lia|].
      specialize (Hy z Hz). lia.
    + constructor.
      * apply IH. intros Hin. apply Hx. now right.
      * apply List.Forall_forall. intros z Hz.
        apply list_elem_of_In in Hz. rewrite insertBy_perm in Hz.
        apply list_elem_of_In in Hz. destruct Hz as [<-|Hz]; [lia|auto].
Qed.

Lemma sortBy_sorted (l : list X) :
  NoDup l ->
  StronglySorted (fun a b => key a < key b)
                 (sortBy (fun a b => key a - key b) l).
Proof.
  induction 1 as [|x l Hx _ IH]; [constructor|].
  change (sortBy (fun a b => key a - key b) (x :: l))
    with (insertBy (fun a b => key a - key b) x
            (sortBy (fun a b => key a - key b) l)).
  apply insertBy_sorted; [|exact IH]. now rewrite sortBy_perm.
Qed.

End ByKey.

(** Every note has its own place in [NOTE_STRINGS]. *)
Lemma indexOf_NOTE_STRINGS_inj (a b : NoteName.t) :
  indexOf NOTE_STRINGS a = indexOf NOTE_STRINGS b -> a = b.
Proof. destruct a, b; intros H; first [reflexivity|discriminate H]. Qed.

Lemma without_nonempty {X : Type} `{EqDecision X} (x : X) (arr : list X) :
  NoDup arr -> 1 < Z.of_nat (length arr) -> without x arr <> [].
Proof.
  intros Hnd Hlen. destruct arr as [|a [|b arr]]; cbn in Hlen; try lia.
  apply NoDup_cons in Hnd as [Hab _].
  assert (Hne : a <> b) by (intros ->; apply Hab; left).
  destruct (decide (a = x)) as [->|Hax].
  - assert (Hb : b ∈ without x (x :: b :: arr)).
    { apply without_spec. split; [right; left|congruence]. }
    intros Heq. rewrite Heq in Hb. inversion Hb.
  - assert (Ha : a ∈ without x (a :: b :: arr)).
    { apply without_spec. split; [left|exact Hax]. }
    intros Heq. rewrite Heq in Ha. inversion Ha.
Qed.

Lemma toggled_inv {X : Type} `{EqDecision X} (q : X) (prev : list X) :
  prev <> [] -> NoDup prev -> toggled q prev <> [] /\ NoDup (toggled q prev).
Proof.
  intros Hne Hnd. unfold toggled.
  destruct (Questions.includes prev q) eqn:Hinc.
  - destruct (Z.ltb_spec 1 (Z.of_nat (length prev))); [|auto].
    split; [now apply without_nonempty|now apply without_NoDup].
  - split; [now destruct prev|].
    apply NoDup_app. repeat split; [exact Hnd| |apply NoDup_singleton].
    intros x Hx Hx'. apply list_elem_of_singleton in Hx'. subst x.
    apply includes_spec in Hx. congruence.
Qed.

Lemma toggleNote_inv (note : NoteName.t) (s : State) :
  SelectionInv s -> SelectionInv (toggleNote note s).
Proof.
  intros (Hne & Hnd & Hsorted & Hrest). unfold toggleNote.
  destruct (Questions.includes (selectedNotes s) note) eqn:Hinc.
  - destruct (Z.ltb_spec 1 (Z.of_nat (length (selectedNotes s))));
      [|now repeat split].
    split; [now apply without_nonempty|].
    split; [now apply without_NoDup|].
    split; [|exact Hrest].
    cbn [selectedNotes setSelectedNotes]. now apply StronglySorted_filter.
  - assert (Hnd' : NoDup (selectedNotes s ++ [note])).
    { apply NoDup_app. repeat split; [exact Hnd| |apply NoDup_singleton].
      intros x Hx Hx'. apply list_elem_of_singleton in Hx'. subst x.
      apply includes_spec in Hx. congruence. }
    unfold SelectionInv.
    cbn [selectedNotes setSelectedNotes chordQualities intervalQualities].
    split.
    { intros Heq.
      assert (Hin : note ∈ sortBy
                (fun a b => indexOf NOTE_STRINGS a - indexOf NOTE_STRINGS b)
                (selectedNotes s ++ [note])).
      { rewrite sortBy_perm. apply elem_of_app. right. left. }
      rewrite Heq in Hin. inversion Hin. }
    split; [now rewrite sortBy_perm|].
    split; [|exact Hrest].
    apply (sortBy_sorted _ (indexOf NOTE_STRINGS) indexOf_NOTE_STRINGS_inj).
    exact Hnd'.
Qed.

Lemma toggle_inv (t : Toggle) (s : State) :
  SelectionInv s -> SelectionInv (toggle s t).
Proof.
  destruct t as [note|q|q]; cbn [toggle]; [apply toggleNote_inv|..];
    intros (Hne & Hnd & Hsorted & Hcne & Hcnd & Hine & Hind);
    unfold SelectionInv; cbn.
  - destruct (toggled_inv q _ Hcne Hcnd). now repeat split.
  - destruct (toggled_inv q _ Hine Hind). now repeat split.
Qed.

Lemma initial_selection : SelectionInv initialState.
Proof.
  unfold SelectionInv. cbn.
  split; [discriminate|].
  split; [apply (bool_decide_unpack _); vm_compute; exact I|].
  split.
  { repeat (constructor; [|repeat (constructor; [vm_compute; reflexivity|]);
                           constructor]).
    constructor. }
  split; [discriminate|].
  split; [apply (bool_decide_unpack _); vm_compute; exact I|].
  split; [discriminate|].
  apply (bool_decide_unpack _); vm_compute; exact I.
Qed.

End SelectionFacts.

(** X24. The selections of the settings page. Whatever notes, chord
    qualities and interval qualities are toggled, none of the three
    selections becomes empty, none lists a member twice, and the selected
    notes stay in the order of the chromatic scale, so that the answer
    buttons of a note question show each selected note once, in that
    order. *)
Theorem selection_invariant (s : EarTraining.State)
    (toggles : list EarTraining.Toggle) :
  EarTraining.SelectionInv s ->
  EarTraining.SelectionInv (fold_left EarTraining.toggle toggles s).
Proof.
  revert s. induction toggles as [|t toggles IH]; intros s Hs; cbn.
  - exact Hs.
  - apply IH, toggle_inv, Hs.
Qed.

Lemma selection_invariant_witness :
  EarTraining.SelectionInv
    (fold_left EarTraining.toggle
       [EarTraining.ToggleNote NoteName.D;
        EarTraining.ToggleChord ChordQuality.MAJOR;
        EarTraining.ToggleChord ChordQuality.MINOR;
        EarTraining.ToggleNote NoteName.D]
       EarTraining.initialState).
Proof.
  apply (selection_invariant EarTraining.initialState). exact initial_selection.
Defined.

Example toggles_run :
  let s :=
    fold_left EarTraining.toggle
      [EarTraining.ToggleNote NoteName.D;
       EarTraining.ToggleNote NoteName.A;
       EarTraining.ToggleChord ChordQuality.MAJOR;
       EarTraining.ToggleChord ChordQuality.MINOR;
       EarTraining.ToggleInterval IntervalQuality.m2;
       EarTraining.ToggleNote NoteName.D]
      EarTraining.initialState in
  EarTraining.selectedNotes s
  = [NoteName.C; NoteName.CSharp; NoteName.D; NoteName.DSharp; NoteName.E;
     NoteName.F; NoteName.FSharp; NoteName.G; NoteName.GSharp;
     NoteName.ASharp; NoteName.B]
  /\ EarTraining.chordQualities s = [ChordQuality.MINOR]
  /\ EarTraining.intervalQualities s
     = [IntervalQuality.M3; IntervalQuality.P5; IntervalQuality.P8;
        IntervalQuality.m2].
Proof. repeat split. Qed.
